(** * Residual-map thresholding, segmentation and scoring

    A shallow embedding of the residual-map-to-decision pipeline of the
    anomaly-detection repository:

    - [processing/cv.py]: [threshold_images], [filter_median_images],
      [label_images];
    - [inspection.py]: [get_max_area], [get_threshold_min],
      [get_area_size_counts_multiple_thresholds];
    - [test.py]: [is_defective], [classify] and the scoring step of [main].

    Conventions.  A numpy array of shape (N, H, W, 1) is a list of images, an
    image a list of rows, a row a list of pixels; the trailing axis of
    length one is not represented.  Integers are [Z].  Floating-point
    values are exact rationals extended with the IEEE special values
    ([npfloat]); rounding error of the hardware is not modelled.  Python
    exceptions are values of [exn] carried by the [result] monad. *)

From Stdlib Require Import ZArith QArith Qround Qabs List Bool Lia Lqa.
From Stdlib Require Import Permutation PeanoNat Sorted.
Import ListNotations.

Open Scope Z_scope.

(* ================================================================== *)
(** ** Python runtime: exceptions *)

Inductive exn : Type :=
| ValueError
| IndexError
| UnboundLocalError
| OverflowError
| TypeError
| Cv2Error
| ParameterError.

Inductive result (A : Type) : Type :=
| Ok (a : A)
| Raise (e : exn).

Arguments Ok {A} a.
Arguments Raise {A} e.

Definition bind {A B : Type} (m : result A) (k : A -> result B) : result B :=
  match m with
  | Ok a => k a
  | Raise e => Raise e
  end.

Notation "x <- m ;; k" := (bind m (fun x => k))
  (at level 61, m at next level, right associativity).

(** A loop that builds one result per element and stops at the first
    exception. *)
Fixpoint mapM {A B : Type} (f : A -> result B) (l : list A) : result (list B) :=
  match l with
  | [] => Ok []
  | x :: xs => y <- f x ;; ys <- mapM f xs ;; Ok (y :: ys)
  end.

(* ================================================================== *)
(** ** Arrays *)

Definition image : Type := list (list Z).
Definition batch : Type := list image.

(** [img[r, c]]; positions outside the array read as 0. *)
Definition pix (img : image) (r c : nat) : Z := nth c (nth r img []) 0.

Definition height (img : image) : nat := length img.
Definition width (img : image) : nat := length (nth 0%nat img []).

(** An array of dtype uint8 holds values of [0, 255]. *)
Definition is_byte (p : Z) : Prop := 0 <= p <= 255.
Definition byte_image (img : image) : Prop := Forall (Forall is_byte) img.
Definition byte_batch (images : batch) : Prop := Forall byte_image images.

(** [x.astype("uint8")] on an integer. *)
Definition uint8 (p : Z) : Z := p mod 256.

(* ================================================================== *)
(** ** cv.py: threshold_images *)

(** OpenCV's rule for [cv2.THRESH_BINARY]:
    [dst(x,y) = maxval if src(x,y) > thresh, 0 otherwise]. *)
Definition THRESH_BINARY (src thresh maxval : Z) : Z :=
  if thresh <? src then maxval else 0.

(** The largest magnitude of a Python int that still converts to a C
    double (round to nearest, ties to even): the binding turns the
    argument [thresh] into a double and rejects an int beyond it. *)
Definition double_limit : Z := 2 ^ 1024 - 2 ^ 970.

Definition fits_double (t : Z) : bool := Z.abs t <? double_limit.

(** For an 8-bit source OpenCV works with [cvFloor(thresh)] as a C
    int; the conversion of a double outside the int range gives
    INT_MIN. *)
Definition int_of_thresh (t : Z) : Z :=
  if (- 2 ^ 31 <=? t) && (t <? 2 ^ 31) then t else - 2 ^ 31.

(** [cv2.threshold(src, thresh, maxval, cv2.THRESH_BINARY)[1]] on an
    8-bit image: cv2.error when [thresh] does not convert to a
    double, [None] for an image without rows or without columns, the
    thresholded image otherwise. *)
Definition cv2_threshold (img : image) (thresh maxval : Z)
  : result (option image) :=
  if negb (fits_double thresh) then Raise Cv2Error
  else if (height img =? 0)%nat || (width img =? 0)%nat then Ok None
  else Ok (Some (map (map (fun p =>
                             THRESH_BINARY p (int_of_thresh thresh) maxval))
                     img)).

(** [threshold_images(images, threshold)]: every image goes through
    [cv2.threshold(image, threshold, 255, cv2.THRESH_BINARY)[1]] and is
    stored with [astype("uint8")], which raises TypeError on the
    [None] that OpenCV returns for an image without pixels.  The
    function has no [raise] and no check of its own. *)
Definition threshold_images (images : batch) (threshold : Z) : result batch :=
  mapM (fun image =>
          image_th <- cv2_threshold image threshold 255 ;;
          match image_th with
          | Some image_th => Ok (map (map uint8) image_th)
          | None => Raise TypeError
          end)
       images.

(** What the docstring of [threshold_images] says:
    "All pixel values < threshold ==> 0, else ==> 255". *)
Definition binarize_doc (p threshold : Z) : Z :=
  if p <? threshold then 0 else 255.

(* ================================================================== *)
(** ** test.py: is_defective, classify *)

(** [areas[areas >= min_area].shape[0] > 0]. *)
Definition is_defective (areas : list Z) (min_area : Z) : Z :=
  if (0 <? Z.of_nat (length (filter (fun a => min_area <=? a) areas)))
  then 1 else 0.

Definition classify (areas_all : list (list Z)) (min_area : Z) : list Z :=
  map (fun areas => is_defective areas min_area) areas_all.

(* ================================================================== *)
(** ** numpy scalars *)

(** A float64: a finite value (kept exact) or an IEEE special value. *)
Inductive npfloat : Type :=
| Fin (q : Q)
| PInf
| NInf
| NaN.

(** [a / b] for a numpy integer scalar [a] and an integer [b]: true
    division; a zero divisor gives [nan] or an infinity together with a
    RuntimeWarning, never an exception. *)
Definition np_true_divide (a b : Z) : npfloat :=
  if b =? 0 then
    if a =? 0 then NaN else if 0 <? a then PInf else NInf
  else Fin (inject_Z a / inject_Z b).

(** [x / y] on float64 values: IEEE division, which never raises. *)
Definition np_fdiv (x y : npfloat) : npfloat :=
  match x, y with
  | Fin a, Fin b =>
      if Qeq_bool b 0 then
        if Qeq_bool a 0 then NaN
        else if Qle_bool 0 a then PInf else NInf
      else Fin (a / b)
  | Fin _, (PInf | NInf) => Fin 0
  | PInf, Fin b => if Qle_bool 0 b then PInf else NInf
  | NInf, Fin b => if Qle_bool 0 b then NInf else PInf
  | _, _ => NaN
  end.

Definition np_sum (l : list Z) : Z := fold_right Z.add 0 l.

(** [np.amax] of a one-dimensional array: a zero-size array has no
    maximum and numpy raises ValueError. *)
Definition np_amax (l : list Z) : result Z :=
  match l with
  | [] => Raise ValueError
  | x :: xs => Ok (fold_left Z.max xs x)
  end.

Definition np_amin (l : list Z) : result Z :=
  match l with
  | [] => Raise ValueError
  | x :: xs => Ok (fold_left Z.min xs x)
  end.

(** [np.arange(a, b)] on integers. *)
Definition np_arange (a b : Z) : list Z :=
  map (fun i => a + Z.of_nat i) (seq 0 (Z.to_nat (b - a))).

(** [arr.flatten()] of a batch. *)
Definition flatten (images : batch) : list Z := concat (map (@concat Z) images).

(* ================================================================== *)
(** ** Python lists and builtins *)

Definition py_count (x : Z) (l : list Z) : Z :=
  Z.of_nat (count_occ Z.eq_dec l x).

Definition getitem (l : list Z) (i : nat) : result Z :=
  match nth_error l i with
  | Some v => Ok v
  | None => Raise IndexError
  end.

(** Round half to even, the tie rule of Python's [round]. *)
Definition round_half_even (q : Q) : Z :=
  let f := Qfloor q in
  match ((q - inject_Z f) ?= (1 # 2))%Q with
  | Lt => f
  | Gt => f + 1
  | Eq => if Z.even f then f else f + 1
  end.

(** [round(x, 1)] on a float. *)
Definition py_round1 (x : npfloat) : npfloat :=
  match x with
  | Fin q => Fin (inject_Z (round_half_even (q * 10)) / 10)%Q
  | other => other
  end.

(** [round(x)] on a float: an int, or an exception on nan and inf. *)
Definition py_round0 (x : npfloat) : result Z :=
  match x with
  | Fin q => Ok (round_half_even q)
  | NaN => Raise ValueError
  | _ => Raise OverflowError
  end.

(** Truncation towards zero. *)
Definition Qtrunc (q : Q) : Z := Z.quot (Qnum q) (Zpos (Qden q)).

(** [int(x)] on a float. *)
Definition py_int (x : npfloat) : result Z :=
  match x with
  | Fin q => Ok (Qtrunc q)
  | NaN => Raise ValueError
  | _ => Raise OverflowError
  end.

(** Sorting of integers (insertion sort suffices for the model). *)
Fixpoint insert (x : Z) (l : list Z) : list Z :=
  match l with
  | [] => [x]
  | y :: t => if x <=? y then x :: l else y :: insert x t
  end.

Definition isort (l : list Z) : list Z := fold_right insert [] l.

(* ================================================================== *)
(** ** test.py: the scoring step of main (lines 160-191) *)

(** sklearn's [unique_labels(y_true, y_pred)]: the sorted distinct labels. *)
Definition unique_labels (y_true y_pred : list Z) : list Z :=
  isort (nodup Z.eq_dec (y_true ++ y_pred)).

Definition cm_count (y_true y_pred : list Z) (t p : Z) : Z :=
  Z.of_nat (length (filter (fun tp => (fst tp =? t) && (snd tp =? p))
                           (combine y_true y_pred))).

(** [normalize="true"]: each row divided by its sum, nan replaced by 0. *)
Definition normalize_true (row : list Z) : list Q :=
  let s := np_sum row in
  map (fun c => if s =? 0 then 0%Q else (inject_Z c / inject_Z s)%Q) row.

(** [sklearn.metrics.confusion_matrix(y_true, y_pred, normalize="true")]:
    a square matrix with one row and one column per label that occurs in
    [y_true] or [y_pred]. *)
Definition confusion_matrix (y_true y_pred : list Z) : result (list (list Q)) :=
  if negb (length y_true =? length y_pred)%nat then Raise ValueError
  else
    let labels := unique_labels y_true y_pred in
    match labels with
    | [] => Raise ValueError
    | _ => Ok (map (fun t => normalize_true
                               (map (fun p => cm_count y_true y_pred t p) labels))
                   labels)
    end.

(** [.ravel()]. *)
Definition ravel {A : Type} (m : list (list A)) : list A := concat m.

(** [a, b, c, d = xs]: exactly four values or ValueError. *)
Definition unpack4 {A : Type} (xs : list A) : result (A * A * A * A) :=
  match xs with
  | [a; b; c; d] => Ok (a, b, c, d)
  | _ => Raise ValueError
  end.

(** [1 if p == t == v else 0]: the chained comparison is
    [p == t and t == v]. *)
Definition agree (v p t : Z) : Z := if (p =? t) && (t =? v) then 1 else 0.

(** [[1 if y_pred[i] == y_true[i] == v else 0 for i in range(total_number)]];
    [False] is the integer 0. *)
Definition agree_on (v : Z) (y_pred y_true : list Z) (total_number : nat)
  : result (list Z) :=
  mapM (fun i =>
          p <- getitem y_pred i ;;
          t <- getitem y_true i ;;
          Ok (agree v p t))
       (seq 0 total_number).

Record rates : Type := { TPR : npfloat; TNR : npfloat }.

(** Lines 163-181: P, N, TP, TN and the two rates. *)
Definition compute_rates (y_pred y_true : list Z) (total_number : nat)
  : result rates :=
  let P := py_count 1 y_true in
  let N := py_count 0 y_true in
  tps <- agree_on 1 y_pred y_true total_number ;;
  let TP := np_sum tps in
  tns <- agree_on 0 y_pred y_true total_number ;;
  let TN := np_sum tns in
  Ok {| TPR := np_true_divide TP P; TNR := np_true_divide TN N |}.

(** Lines 163-191: the rates, then the confusion matrix unpacked into
    [tn, fp, fn, tp], then the rates appended to [test_result]. *)
Definition main_scoring (y_pred y_true : list Z) (total_number : nat)
  : result rates :=
  r <- compute_rates y_pred y_true total_number ;;
  cm <- confusion_matrix y_true y_pred ;;
  _ <- unpack4 (ravel cm) ;;
  Ok r.

(** Counts of the confusion matrix, as the specification names them. *)
Definition count_pairs (p t : Z) (y_pred y_true : list Z) : Z :=
  Z.of_nat (length (filter (fun pt => (fst pt =? p) && (snd pt =? t))
                           (combine y_pred y_true))).

Definition TP_of := count_pairs 1 1.
Definition FN_of := count_pairs 0 1.
Definition TN_of := count_pairs 0 0.
Definition FP_of := count_pairs 1 0.

Definition labels01 (l : list Z) : Prop := Forall (fun x => x = 0 \/ x = 1) l.

(* ================================================================== *)
(** ** inspection.py: get_threshold_min *)

(** The module-level arrays of the script that functions read. *)
Record module_state : Type := { resmaps_val_uint8 : batch }.

Section Statistics.

(** The numerical library: [np.sqrt] and the standard normal quantile
    [scipy.special.ndtri], on the idealised floats. *)
Variable fsqrt : Q -> Q.
Variable ndtri : Q -> Q.

Definition Qsum (l : list Q) : Q := fold_right Qplus 0%Q l.

(** [arr.mean()]. *)
Definition np_mean (xs : list Z) : npfloat :=
  match xs with
  | [] => NaN
  | _ => Fin (Qsum (map inject_Z xs) / inject_Z (Z.of_nat (length xs)))
  end.

(** [arr.std()]: the square root of the mean squared deviation. *)
Definition np_std (xs : list Z) : npfloat :=
  match np_mean xs with
  | Fin m =>
      Fin (fsqrt (Qsum (map (fun x => (inject_Z x - m) * (inject_Z x - m))%Q xs)
                  / inject_Z (Z.of_nat (length xs))))
  | other => other
  end.

(** [scipy.stats.norm(loc, scale).ppf(q)]: [ndtri(q) * scale + loc]
    for [0 < q < 1], nan when [scale <= 0] or an argument is nan. *)
Definition norm_ppf (loc scale : npfloat) (q : Q) : npfloat :=
  match loc, scale with
  | Fin mu, Fin sigma =>
      if Qle_bool sigma 0 then NaN
      else if Qeq_bool q 0 then NInf
      else if Qeq_bool q 1 then PInf
      else if Qle_bool 0 q && Qle_bool q 1
           then Fin (ndtri q * sigma + mu)
           else NaN
  | _, _ => NaN
  end.

(** [get_threshold_min(resmaps, ppf_value=0.97)]: the body reads the
    module-level [resmaps_val_uint8] and the literal 0.97; its [print]
    is not modelled. *)
Definition get_threshold_min (st : module_state)
           (resmaps : batch) (ppf_value : Q) : result Z :=
  let arr := flatten (resmaps_val_uint8 st) in
  minimum <- np_amin arr ;;
  maximum <- np_amax arr ;;
  let mu := np_mean arr in
  let sigma := np_std arr in
  th <- py_int (py_round1 (norm_ppf mu sigma (97 # 100))) ;;
  Ok (th - 1).

(** The threshold derivation as the specification words it: the
    Normal(mu, sigma) quantile of the batch at the configured
    percentile, rounded to the nearest integer, minus one. *)
Definition tau_min_spec (resmaps : batch) (percentile : Q) : result Z :=
  let arr := flatten resmaps in
  th <- py_round0 (norm_ppf (np_mean arr) (np_std arr) percentile) ;;
  Ok (th - 1).

End Statistics.

(** Square root on rationals, exact on squares of rationals. *)
Definition sqrt_q (q : Q) : Q :=
  (Z.sqrt (Qnum q * Zpos (Qden q))) # (Qden q).

(** Values of [scipy.special.ndtri] at the percentiles used below,
    to seven decimals. *)
Definition ndtri_table (q : Q) : Q :=
  if Qeq_bool q (1 # 2) then 0%Q
  else if Qeq_bool q (9 # 10) then (12815516 # 10000000)%Q
  else if Qeq_bool q (97 # 100) then (18807936 # 10000000)%Q
  else if Qeq_bool q (99 # 100) then (23263479 # 10000000)%Q
  else 0%Q.

(* ================================================================== *)
(** ** cv.py: filter_median_images *)

(** Index clamped to [0, n-1]: OpenCV's BORDER_REPLICATE. *)
Definition clamp (i : Z) (n : nat) : nat :=
  Z.to_nat (Z.max 0 (Z.min i (Z.of_nat n - 1))).

(** The offsets [-k .. k]. *)
Definition offsets (k : nat) : list Z :=
  map (fun i => Z.of_nat i - Z.of_nat k) (seq 0 (2 * k + 1)).

(** The [(2k+1) x (2k+1)] neighbourhood of [(r, c)], border replicated. *)
Definition window (img : image) (k r c : nat) : list Z :=
  flat_map (fun dr =>
              map (fun dc => pix img (clamp (Z.of_nat r + dr) (height img))
                                     (clamp (Z.of_nat c + dc) (width img)))
                  (offsets k))
           (offsets k).

Definition median (w : list Z) : Z := nth (length w / 2) (isort w) 0.

(** [cv2.medianBlur(src, ksize)]: the source must be non-empty and
    [ksize] odd ([ksize % 2 == 1] in C); [ksize <= 1] copies the source. *)
Definition cv2_medianBlur (img : image) (ksize : Z) : result image :=
  if (height img =? 0)%nat || (width img =? 0)%nat then Raise Cv2Error
  else if negb (Z.rem ksize 2 =? 1) then Raise Cv2Error
  else if ksize <=? 1 then Ok img
  else
    let k := Z.to_nat (ksize / 2) in
    Ok (map (fun r => map (fun c => median (window img k r c))
                          (seq 0 (width img)))
            (seq 0 (height img))).

(** [filter_median_images(images, kernel_size=3)]; the result array has
    dtype uint8. *)
Definition filter_median_images (images : batch) (kernel_size : Z)
  : result batch :=
  mapM (fun img =>
          image_filtered <- cv2_medianBlur img kernel_size ;;
          Ok (map (map uint8) image_filtered))
       images.

(* ================================================================== *)
(** ** cv.py: label_images *)

Definition pos : Type := (nat * nat)%type.

Definition pos_eqb (p q : pos) : bool :=
  (fst p =? fst q)%nat && (snd p =? snd q)%nat.

Definition mem (p : pos) (l : list pos) : bool := existsb (pos_eqb p) l.

Definition near (a b : nat) : bool :=
  (a =? b)%nat || (a =? S b)%nat || (S a =? b)%nat.

(** Full connectivity: the eight neighbours of a pixel. *)
Definition neighbours (p q : pos) : bool :=
  near (fst p) (fst q) && near (snd p) (snd q) && negb (pos_eqb p q).

Definition at_pos (img : image) (p : pos) : Z := pix img (fst p) (snd p).

(** Two pixels are connected when they are neighbours and have the
    same value. *)
Definition connected (img : image) (p q : pos) : bool :=
  neighbours p q && (at_pos img p =? at_pos img q).

(** All positions of the array, in raster order. *)
Definition grid (img : image) : list pos :=
  list_prod (seq 0 (height img)) (seq 0 (width img)).

(** The pixels that are not background (value 0). *)
Definition foreground (img : image) : list pos :=
  filter (fun p => negb (at_pos img p =? 0)) (grid img).

Section FloodFill.

Variable adj : pos -> pos -> bool.

(** One round: the pixels of [avail] next to the region join it. *)
Definition grow (avail region : list pos) : list pos :=
  region ++ filter (fun q => negb (mem q region)
                             && existsb (fun s => adj s q) region) avail.

Fixpoint flood (n : nat) (avail region : list pos) : list pos :=
  match n with
  | O => region
  | S n' => flood n' avail (grow avail region)
  end.

(** The region of the seed [p] among the unlabelled pixels. *)
Definition region_of (avail : list pos) (p : pos) : list pos :=
  flood (length avail) avail [p].

(** Raster scan: each unlabelled pixel met starts a new region. *)
Fixpoint regions (todo avail : list pos) : list (list pos) :=
  match todo with
  | [] => []
  | p :: rest =>
      if mem p avail then
        let C := region_of avail p in
        C :: regions rest (filter (fun q => negb (mem q C)) avail)
      else regions rest avail
  end.

End FloodFill.

Definition components (img : image) : list (list pos) :=
  regions (connected img) (foreground img) (foreground img).

(** The label of a pixel: the number of its region, 0 for background. *)
Fixpoint label_from (n : Z) (comps : list (list pos)) (p : pos) : Z :=
  match comps with
  | [] => 0
  | C :: rest => if mem p C then n else label_from (n + 1) rest p
  end.

(** [skimage.measure.label(image)]: background 0, full connectivity,
    regions numbered from 1 in raster order. *)
Definition skimage_label (img : image) : image :=
  map (fun r => map (fun c => label_from 1 (components img) (r, c))
                    (seq 0 (width img)))
      (seq 0 (height img)).

Definition label_max (labeled : image) : Z :=
  fold_right Z.max 0 (concat labeled).

(** [[region.area for region in regionprops(labeled)]]: one region per
    label that occurs, in label order; its area is its pixel count. *)
Definition regionprops_areas (labeled : image) : list Z :=
  filter (fun a => 0 <? a)
         (map (fun l => py_count (Z.of_nat l) (concat labeled))
              (seq 1 (Z.to_nat (label_max labeled)))).

(** [label_images(images)]: the labelled images and, per image, the
    list of region areas. *)
Definition label_images (images : batch) : batch * list (list Z) :=
  (map skimage_label images,
   map (fun img => regionprops_areas (skimage_label img)) images).

(* ================================================================== *)
(** ** inspection.py: get_max_area *)

Definition get_max_area (resmaps : batch) (threshold : Z) : result Z :=
  resmaps_th <- threshold_images resmaps threshold ;;
  resmaps_fil <- filter_median_images resmaps_th 3 ;;
  let '(resmaps_labeled, areas_all) := label_images resmaps_fil in
  let areas_all_1d := concat areas_all in
  np_amax areas_all_1d.

(** The areas of all regions of the batch at a threshold: the four
    lines that [get_max_area] and the loop of the sweep have in common. *)
Definition areas_at (resmaps : batch) (threshold : Z) : result (list Z) :=
  resmaps_th <- threshold_images resmaps threshold ;;
  resmaps_fil <- filter_median_images resmaps_th 3 ;;
  let '(resmaps_labeled, areas_all) := label_images resmaps_fil in
  Ok (concat areas_all).

(* ================================================================== *)
(** ** numpy: linspace and histogram *)

(** [np.linspace(start, stop, num)] with the end point included.  The
    edges are the exact values; numpy's float64 edges differ from them
    by rounding, so that a value equal to an exact edge may be counted
    in the bin on either side of it.  The statements about bins below
    leave that side open. *)
Definition linspace (start stop : Q) (num : nat) : list Q :=
  match num with
  | O => []
  | S O => [start]
  | S div =>
      let step := ((stop - start) / inject_Z (Z.of_nat div))%Q in
      map (fun i => (inject_Z (Z.of_nat i) * step + start)%Q) (seq 0 div)
          ++ [stop]
  end.

Definition edge (bin_edges : list Q) (i : Z) : Q :=
  nth (Z.to_nat i) bin_edges 0%Q.

Definition Qlt_bool (x y : Q) : bool := negb (Qle_bool y x).

(** The bin of a kept value: the scaled offset truncated to an integer,
    the right end folded into the last bin, then the two repairs against
    the edges. *)
Definition bin_index (bin_edges : list Q) (first_edge last_edge : Q)
           (n_equal_bins : Z) (a : Q) : Z :=
  let f_index :=
    ((a - first_edge) / (last_edge - first_edge) * inject_Z n_equal_bins)%Q in
  let i0 := Qtrunc f_index in
  let i1 := if i0 =? n_equal_bins then i0 - 1 else i0 in
  let i2 := if Qlt_bool a (edge bin_edges i1) then i1 - 1 else i1 in
  if Qle_bool (edge bin_edges (i2 + 1)) a && negb (i2 =? n_equal_bins - 1)
  then i2 + 1 else i2.

(** [np.bincount(indices, minlength=n)] for indices below [n]. *)
Definition bincount (indices : list Z) (n : nat) : list Z :=
  map (fun k => py_count (Z.of_nat k) indices) (seq 0 n).

(** [np.diff]. *)
Fixpoint diff (xs : list Q) : list Q :=
  match xs with
  | x :: (y :: _) as t => (y - x)%Q :: diff t
  | _ => []
  end.

(** [np.histogram(a, bins=bins, density=True, range=range)] for an
    integer number of bins: [(n / db / n.sum(), bin_edges)]. *)
Definition np_histogram (a : list Z) (bins : Z) (range : Q * Q)
  : result (list npfloat * list Q) :=
  if bins <? 1 then Raise ValueError
  else if Qlt_bool (snd range) (fst range) then Raise ValueError
  else
    let '(first_edge, last_edge) :=
      if Qeq_bool (fst range) (snd range)
      then ((fst range - (1 # 2))%Q, (snd range + (1 # 2))%Q)
      else range in
    let bin_edges := linspace first_edge last_edge (Z.to_nat bins + 1) in
    let tmp_a := map inject_Z a in
    let keep := filter (fun x => Qle_bool first_edge x && Qle_bool x last_edge)
                       tmp_a in
    let indices := map (bin_index bin_edges first_edge last_edge bins) keep in
    let n := bincount indices (Z.to_nat bins) in
    let db := diff bin_edges in
    let total := np_sum n in
    Ok (map (fun nd => np_fdiv (np_fdiv (Fin (inject_Z (fst nd))) (Fin (snd nd)))
                               (Fin (inject_Z total)))
            (combine n db),
        bin_edges).

(* ================================================================== *)
(** ** inspection.py: get_area_size_counts_multiple_thresholds *)

(** [np.zeros(shape=(rows, cols))]. *)
Definition zeros (rows cols : nat) : list (list npfloat) :=
  repeat (repeat (Fin 0) cols) rows.

(** [m[i] = row]. *)
Fixpoint set_row {A : Type} (i : nat) (row : A) (m : list A) : list A :=
  match m, i with
  | [], _ => []
  | _ :: t, O => row :: t
  | x :: t, S j => x :: set_row j row t
  end.

(** [enumerate]. *)
Definition enumerate {A : Type} (l : list A) : list (nat * A) :=
  combine (seq 0 (length l)) l.

(** The loop over the thresholds; [edges] is unbound until the first
    iteration has run. *)
Fixpoint sweep_loop (resmaps : batch) (nbins : Z) (range_area : Q * Q)
         (its : list (nat * Z))
         (counts : list (list npfloat)) (edges : option (list Q))
  : result (list (list npfloat) * option (list Q)) :=
  match its with
  | [] => Ok (counts, edges)
  | (i, threshold) :: rest =>
      resmaps_val_uint8_th <- threshold_images resmaps threshold ;;
      resmaps_val_uint8_th_fil <- filter_median_images resmaps_val_uint8_th 3 ;;
      let '(resmaps_val_labeled, areas_all_val) :=
        label_images resmaps_val_uint8_th_fil in
      let areas_all_val_1d := concat areas_all_val in
      h <- np_histogram areas_all_val_1d nbins range_area ;;
      let '(count, edges') := h in
      sweep_loop resmaps nbins range_area rest
                 (set_row i count counts) (Some edges')
  end.

Definition get_area_size_counts_multiple_thresholds
           (resmaps : batch) (th_min th_max : Z) (nbins : Z)
  : result (list (list npfloat) * list Q) :=
  max_area <- get_max_area resmaps th_min ;;
  let thresholds := np_arange th_min (th_max + 1) in
  let range_area := ((1 # 2)%Q, (inject_Z max_area + (1 # 2))%Q) in
  if nbins <? 0 then Raise ValueError
  else
    let counts := zeros (length thresholds) (Z.to_nat nbins) in
    st <- sweep_loop resmaps nbins range_area (enumerate thresholds)
                     counts None ;;
    match snd st with
    | None => Raise UnboundLocalError
    | Some edges => Ok (fst st, edges)
    end.

(** Membership of a value in bin [k] as numpy documents it: half-open
    bins, the last one closed on the right. *)
Definition in_bin (bin_edges : list Q) (bins k : Z) (a : Z) : bool :=
  Qle_bool (edge bin_edges k) (inject_Z a)
  && (Qlt_bool (inject_Z a) (edge bin_edges (k + 1))
      || ((k =? bins - 1) && Qle_bool (inject_Z a) (edge bin_edges (k + 1)))).

Definition count_in_bin (bin_edges : list Q) (bins k : Z) (areas : list Z) : Z :=
  Z.of_nat (length (filter (in_bin bin_edges bins k) areas)).

Definition count_in_range (lo hi : Q) (areas : list Z) : Z :=
  Z.of_nat (length (filter (fun a => Qle_bool lo (inject_Z a)
                                     && Qle_bool (inject_Z a) hi) areas)).

(* ================================================================== *)
(** ** Sample inputs *)

(** One 1x1 image whose only pixel lies on the threshold 100. *)
Definition boundary_batch : batch := [[[100]]].

(** A 2x3 byte image. *)
Definition small_batch : batch := [[[0; 100; 255]; [99; 101; 7]]].

(** Two validation arrays with mean 1 and 201 and standard deviation 1. *)
Definition val_low : batch := [[[0; 2]]].
Definition val_high : batch := [[[200; 202]]].

(** A 5x6 image with a 3x3 block of value 9 and a lone pixel of value 7. *)
Definition blob_image : image :=
  [[0; 0; 0; 0; 0; 0];
   [0; 9; 9; 9; 0; 0];
   [0; 9; 9; 9; 0; 7];
   [0; 9; 9; 9; 0; 0];
   [0; 0; 0; 0; 0; 0]].

(** [blob_image] thresholded at 8 and median filtered. *)
Definition blob_filtered : image :=
  [[0; 0; 0; 0; 0; 0];
   [0; 0; 255; 0; 0; 0];
   [0; 255; 255; 255; 0; 0];
   [0; 0; 255; 0; 0; 0];
   [0; 0; 0; 0; 0; 0]].

(** A 7x7 image: a 3x3 block of value 9 inside a ring of value 5. *)
Definition ring_image : image :=
  [[0; 0; 0; 0; 0; 0; 0];
   [0; 5; 5; 5; 5; 5; 0];
   [0; 5; 9; 9; 9; 5; 0];
   [0; 5; 9; 9; 9; 5; 0];
   [0; 5; 9; 9; 9; 5; 0];
   [0; 5; 5; 5; 5; 5; 0];
   [0; 0; 0; 0; 0; 0; 0]].

(** An image without any residual. *)
Definition flat_image : image := [[0; 0; 0]; [0; 0; 0]; [0; 0; 0]].

(* ================================================================== *)
(** ** Notions used in the statements *)

(** A set of pixels such that every available pixel connected to one
    of its members is a member. *)
Definition closed_in (adj : pos -> pos -> bool) (avail region : list pos)
  : Prop :=
  forall s q, In s region -> In q avail -> adj s q = true -> In q region.

(** No labelled pixel of [nodes] is connected to an available one. *)
Definition separated (adj : pos -> pos -> bool) (nodes avail : list pos)
  : Prop :=
  forall q r, In q nodes -> ~ In q avail -> In r avail -> adj q r = false.

(** The region areas of an image, read off the regions themselves. *)
Definition component_areas (img : image) : list Z :=
  map (fun C => Z.of_nat (length C)) (components img).

(** The number of elements of [l] that are at most [v]. *)
Definition count_le (v : Z) (l : list Z) : nat :=
  length (filter (fun x => x <=? v) l).

(** Every pixel is 0 or 255. *)
Definition binary_image (img : image) : Prop :=
  forall r c, pix img r c = 0 \/ pix img r c = 255.

(** Same shape, and pixelwise at most. *)
Definition image_le (A B : image) : Prop :=
  height A = height B /\ width A = width B
  /\ forall r c, pix A r c <= pix B r c.

(** The first two steps of [areas_at]: threshold, then median filter. *)
Definition denoised_at (resmaps : batch) (threshold : Z) : result batch :=
  resmaps_th <- threshold_images resmaps threshold ;;
  filter_median_images resmaps_th 3.

(** The regions of all images of a batch. *)
Definition batch_regions (images : batch) : list (list pos) :=
  flat_map components images.

(** What relates the filtered images at a stricter threshold to those
    at a laxer one. *)
Definition image_below (A B : image) : Prop :=
  image_le A B /\ binary_image A /\ binary_image B.

(** The [bins + 1] edges and the common width of [bins] equal bins
    over [lo, hi]. *)
Definition equal_bin_edges (lo hi : Q) (bins : Z) : list Q :=
  linspace lo hi (Z.to_nat bins + 1).

Definition bin_width (lo hi : Q) (bins : Z) : Q :=
  ((hi - lo) / inject_Z bins)%Q.

(** The density of bin [k]: its count divided by the bin width and by
    the number of values inside the range, in numpy's float division. *)
Definition density_entry (bin_edges : list Q) (bins k : Z) (lo hi : Q)
           (areas : list Z) : npfloat :=
  np_fdiv
    (np_fdiv (Fin (inject_Z (count_in_bin bin_edges bins k areas)))
             (Fin (edge bin_edges (k + 1) - edge bin_edges k)))
    (Fin (inject_Z (count_in_range lo hi areas))).

(** The bin indices numpy computes for the values inside the range. *)
Definition kept_indices (lo hi : Q) (bins : Z) (a : list Z) : list Z :=
  map (bin_index (equal_bin_edges lo hi bins) lo hi bins)
      (filter (fun x => Qle_bool lo x && Qle_bool x hi) (map inject_Z a)).

(** [q] is reached from [p] through foreground pixels, each connected
    to the one before. *)
Inductive reachable (img : image) (p : pos) : pos -> Prop :=
| reach_refl : reachable img p p
| reach_step (q r : pos) :
    reachable img p q -> In r (foreground img) ->
    connected img q r = true -> reachable img p r.

(** An image with at least one row and one column. *)
Definition nonempty_image (img : image) : Prop :=
  height img <> 0%nat /\ width img <> 0%nat.

(** A threshold that fits a C int. *)
Definition int32 (t : Z) : Prop := - 2 ^ 31 <= t < 2 ^ 31.

(** The number of values that [bin_of] sends to bin [k]. *)
Definition count_assigned (bin_of : Z -> Z) (k : Z) (areas : list Z) : Z :=
  Z.of_nat (length (filter (fun a => bin_of a =? k) areas)).

(** The value [threshold_images] stores for a pixel [p]. *)
Definition binarize_pixel (tau p : Z) : Z := if tau <? p then 255 else 0.

(* ================================================================== *)
(** * Further code of the repository *)

(** ** test.py: the classification step of main (lines 151-158) *)

(** [threshold_images(resmaps_test, threshold)[:, :, :, 0]], then
    [label_images] and [classify]; the slice drops the trailing axis,
    which is not represented.  No median filter is applied here.  The
    script imports the two functions under the module path
    [modules.cv]; their definitions are those of processing/cv.py. *)
Definition main_classification (resmaps_test : batch) (threshold min_area : Z)
  : result (list Z) :=
  resmaps_th <- threshold_images resmaps_test threshold ;;
  let '(resmaps_labeled, areas_all) := label_images resmaps_th in
  let y_pred := classify areas_all min_area in
  Ok y_pred.

(** ** Notions used in the further statements *)

Definition same_shape (A B : image) : Prop :=
  height A = height B /\ width A = width B.

(** The number of foreground (255) values of a window. *)
Definition count_fg (w : list Z) : nat :=
  length (filter (fun x => x =? 255) w).

(** Every pixel of [B] inside the frame of [A] carries the value of
    some pixel of [A]. *)
Definition values_from (A B : image) : Prop :=
  forall r c, (r < height A)%nat -> (c < width A)%nat ->
    exists r' c', (r' < height A)%nat /\ (c' < width A)%nat
                  /\ pix B r c = pix A r' c'.

(** A binary image with one lone foreground pixel and a 2x3 block. *)
Definition speck_image : image :=
  [[255; 0; 0; 0; 0];
   [0; 0; 255; 255; 255];
   [0; 0; 255; 255; 255];
   [0; 0; 0; 0; 0]].

(** The two results of [label_images] for image [i] of the batch. *)
Definition labeled_image (images : batch) (i : nat) : image :=
  nth i (fst (label_images images)) [].

Definition image_areas (images : batch) (i : nat) : list Z :=
  nth i (snd (label_images images)) [].

(** The positions of an image whose value exceeds the threshold. *)
Definition above (img : image) (threshold : Z) : list pos :=
  filter (fun p => threshold <? at_pos img p) (grid img).

(* ================================================================== *)
(** ** inspection.py: get_xbars, get_sum_counts *)




(** [edges[:-1] + ((edges[1] - edges[0]) / 2)]: the slice never
    fails, the two subscripts need two edges. *)
Definition get_xbars (edges : list Q) : result (list Q) :=
  match edges with
  | e0 :: e1 :: _ =>
      Ok (map (fun e => (e + (e1 - e0) / 2)%Q) (removelast edges))
  | _ => Raise IndexError
  end.


(** A validation array whose pixels all have the value 7. *)
Definition val_flat : batch := [[[7; 7]; [7; 7]]].

(* ================================================================== *)
(** * modules/utils.py *)

From Stdlib Require Ascii String.
Import Ascii.AsciiSyntax String.StringSyntax.
Delimit Scope string_scope with string.
Delimit Scope char_scope with char.

(** A Python [str]: the list of its characters. *)
Definition str : Type := list Ascii.ascii.

Definition lit (s : String.string) : str := String.list_ascii_of_string s.

Arguments lit s%_string.


Definition str_eqb (a b : str) : bool :=
  if list_eq_dec Ascii.ascii_dec a b then true else false.

(** The exceptions of this module; [ValueError_format] is the
    ValueError that [str.format] raises on a bad format specifier. *)
Inductive utils_exn : Type :=
| KeyError
| ZeroDivisionError
| ValueError_format.

Inductive outcome (A : Type) : Type :=
| Returned (a : A)
| Raised (e : utils_exn).

Arguments Returned {A} a.
Arguments Raised {A} e.

(** ** get_plot_name *)

(** [p.rfind(c)] for a character [c]: the last index of [c], or -1. *)
Fixpoint rfind (c : Ascii.ascii) (p : str) : Z :=
  match p with
  | [] => -1
  | x :: t =>
      let r := rfind c t in
      if 0 <=? r then r + 1 else if Ascii.eqb x c then 0 else -1
  end.

(** [p[a:b]] for [0 <= a]. *)
Definition slice (p : str) (a b : Z) : str :=
  firstn (Z.to_nat (b - a)) (skipn (Z.to_nat a) p).

(** [os.path.splitext(p)] on POSIX: the extension starts at the last
    dot, provided that dot comes after the last slash and after some
    character of the file name that is not a dot. *)
Definition splitext (p : str) : str * str :=
  let sepIndex := rfind "/"%char p in
  let dotIndex := rfind "."%char p in
  if sepIndex <? dotIndex then
    if existsb (fun c => negb (Ascii.eqb c "."%char))
               (slice p (sepIndex + 1) dotIndex)
    then (firstn (Z.to_nat dotIndex) p, skipn (Z.to_nat dotIndex) p)
    else (p, [])
  else (p, []).

(** [s.split(sep)] for a character [sep]. *)
Fixpoint split (sep : Ascii.ascii) (s : str) : list str :=
  match s with
  | [] => [[]]
  | c :: t =>
      if Ascii.eqb c sep then [] :: split sep t
      else match split sep t with
           | [] => [[c]]
           | w :: ws => (c :: w) :: ws
           end
  end.

(** [sep.join(parts)]. *)
Fixpoint join (sep : str) (parts : list str) : str :=
  match parts with
  | [] => []
  | [x] => x
  | x :: rest => x ++ sep ++ join sep rest
  end.

Definition get_plot_name (filename suffix : str) : str :=
  let '(filename_new, ext) := splitext filename in
  let filename_new :=
    ((join (lit "_") (split "/"%char filename_new) ++ lit "_") ++ suffix)
    ++ ext in
  filename_new.

(** What [get_plot_name] does to a character of the path. *)
Definition flatten_sep (c : Ascii.ascii) : Ascii.ascii :=
  if Ascii.eqb c "/"%char then "_"%char else c.

(** ** update_history *)

(** A Python [dict] with string keys, in insertion order. *)
Definition dict (V : Type) : Type := list (str * V).

Definition keys {V : Type} (d : dict V) : list str := map fst d.

(** [d[k]], [None] standing for KeyError. *)
Fixpoint dict_get {V : Type} (d : dict V) (k : str) : option V :=
  match d with
  | [] => None
  | (k', v) :: rest => if str_eqb k' k then Some v else dict_get rest k
  end.

(** [d[k] = v]: replaces the value of a present key, appends a new
    key. *)
Fixpoint dict_set {V : Type} (k : str) (v : V) (d : dict V) : dict V :=
  match d with
  | [] => [(k, v)]
  | (k', v') :: rest =>
      if str_eqb k' k then (k', v) :: rest else (k', v') :: dict_set k v rest
  end.

(** A Keras [History] object: its [history] attribute. *)
Record History : Type := { history : dict (list Q) }.

(** The loop over [list(history1.history.keys())]: [dict3[key]]
    starts empty and is extended by the two lists. *)
Fixpoint update_loop (h1 h2 : dict (list Q)) (ks : list str)
         (dict3 : dict (list Q)) : outcome (dict (list Q)) :=
  match ks with
  | [] => Returned dict3
  | key :: rest =>
      match dict_get h1 key with
      | None => Raised KeyError
      | Some v1 =>
          match dict_get h2 key with
          | None => Raised KeyError
          | Some v2 =>
              update_loop h1 h2 rest (dict_set key (([] ++ v1) ++ v2) dict3)
          end
      end
  end.

(** [update_history(history1, history2)]: the object returned is
    [history1], whose attribute now holds [dict3]. *)
Definition update_history (history1 history2 : History) : outcome History :=
  match update_loop (history history1) (history history2)
                    (keys (history history1)) [] with
  | Returned dict3 => Returned {| history := dict3 |}
  | Raised e => Raised e
  end.

(** ** printProgressBar *)



Section ProgressBar.

(** The text of [("{0:." + str(decimals) + "f}").format(x)] for a
    precision that the format specifier accepts. *)
Variable format_fixed : Z -> Q -> str.


End ProgressBar.

(** [d.get(k, [])]. *)
Definition get_or_nil (d : dict (list Q)) (k : str) : list Q :=
  match dict_get d k with
  | Some v => v
  | None => []
  end.

(** Two histories as Keras records them. *)
Definition history_first : History :=
  {| history := [(lit "loss", [(3 # 1)%Q; (2 # 1)%Q]);
                 (lit "val_loss", [(4 # 1)%Q; (3 # 1)%Q])] |}.

Definition history_second : History :=
  {| history := [(lit "val_loss", [(5 # 2)%Q]);
                 (lit "loss", [(3 # 2)%Q]);
                 (lit "lr", [(1 # 100)%Q])] |}.

(* ================================================================== *)
(** ** test.py: ground truth, classification and scoring together *)

(** [[1 if "good" not in filename.split("/") else 0
      for filename in filenames]]. *)
Definition y_true_of (filenames : list str) : list Z :=
  map (fun filename =>
         if negb (existsb (str_eqb (lit "good")) (split "/"%char filename))
         then 1 else 0)
      filenames.

(** Lines 151-191 of [main]: predictions from the residual maps,
    ground truth from the file names, then the scoring step. *)
Definition main_evaluation (resmaps_test : batch) (filenames : list str)
           (threshold min_area : Z) (total_number : nat) : result rates :=
  y_pred <- main_classification resmaps_test threshold min_area ;;
  let y_true := y_true_of filenames in
  main_scoring y_pred y_true total_number.

(** The file names of a test set with one good and one defective
    image. *)
Definition two_filenames : list str :=
  [lit "good/000.png"; lit "broken_large/000.png"].

(* ================================================================== *)
(** * Properties *)

(** ** The result monad *)

Lemma bind_Ok {A B : Type} (m : result A) (k : A -> result B) (b : B) :
  bind m k = Ok b -> exists a, m = Ok a /\ k a = Ok b.
Proof.
  destruct m as [a|e]; simpl; intros H; [now exists a | discriminate].
Qed.

(** Terms [length (filter f l)] made opaque to the arithmetic solver. *)
Ltac hide_lengths :=
  repeat match goal with
         | |- context [length (filter ?f ?l)] =>
             let n := fresh "n" in
             set (n := length (filter f l)) in *; clearbody n
         end.

(** ** Lists of lists *)

Lemma pix_map (f : Z -> Z) (img : image) (r c : nat) :
  (r < length img)%nat -> (c < length (nth r img []))%nat ->
  pix (map (map f) img) r c = f (pix img r c).
Proof.
  intros Hr Hc; unfold pix.
  rewrite nth_indep with (d' := map f []) by now rewrite length_map.
  rewrite map_nth.
  rewrite nth_indep with (d' := f 0) by now rewrite length_map.
  apply map_nth.
Qed.

(** ** threshold_images *)

Lemma uint8_binary (p tau : Z) :
  uint8 (THRESH_BINARY p tau 255) = binarize_pixel tau p.
Proof. unfold uint8, THRESH_BINARY, binarize_pixel; now destruct (tau <? p). Qed.

Lemma double_limit_int32 : 2147483648 < double_limit.
Proof. vm_compute; reflexivity. Qed.

Lemma int32_fits_double (t : Z) : int32 t -> fits_double t = true.
Proof.
  unfold int32, fits_double; change (2 ^ 31) with 2147483648.
  pose proof double_limit_int32 as H.
  set (d := double_limit) in *; clearbody d.
  intros Ht; apply Z.ltb_lt; lia.
Qed.

Lemma int32_int_of_thresh (t : Z) : int32 t -> int_of_thresh t = t.
Proof.
  unfold int32, int_of_thresh; intros [H1 H2].
  apply Z.leb_le in H1; apply Z.ltb_lt in H2; now rewrite H1, H2.
Qed.

Lemma int_of_thresh_mono (t1 t2 : Z) :
  t1 <= t2 -> t2 < 2 ^ 31 -> int_of_thresh t1 <= int_of_thresh t2.
Proof.
  unfold int_of_thresh; change (2 ^ 31) with 2147483648; intros H1 H2.
  destruct (- (2147483648) <=? t1) eqn:E1;
    destruct (t1 <? 2147483648) eqn:E2;
    destruct (- (2147483648) <=? t2) eqn:E3;
    destruct (t2 <? 2147483648) eqn:E4; cbn [andb]; lia.
Qed.

Lemma fits_double_between (t0 t : Z) :
  fits_double t0 = true -> t0 <= t -> t < 2 ^ 31 -> fits_double t = true.
Proof.
  unfold fits_double; change (2 ^ 31) with 2147483648.
  pose proof double_limit_int32 as H.
  set (d := double_limit) in *; clearbody d.
  intros H0 H1 H2; apply Z.ltb_lt in H0; apply Z.ltb_lt; lia.
Qed.

(** One iteration of the loop of [threshold_images]. *)
Lemma threshold_image_eq (img : image) (tau : Z) :
  fits_double tau = true -> nonempty_image img ->
  (image_th <- cv2_threshold img tau 255 ;;
   match image_th with
   | Some image_th => Ok (map (map uint8) image_th)
   | None => Raise TypeError
   end)
  = Ok (map (map (binarize_pixel (int_of_thresh tau))) img).
Proof.
  intros Hfit [Hh Hw]; unfold cv2_threshold; rewrite Hfit; cbn [negb].
  apply Nat.eqb_neq in Hh; apply Nat.eqb_neq in Hw; rewrite Hh, Hw.
  cbn [orb bind]; apply f_equal.
  rewrite map_map; apply map_ext; intros row; rewrite map_map.
  apply map_ext; intros p; apply uint8_binary.
Qed.

Lemma threshold_image_cases (img : image) (tau : Z) :
  (image_th <- cv2_threshold img tau 255 ;;
   match image_th with
   | Some image_th => Ok (map (map uint8) image_th)
   | None => Raise TypeError
   end)
  = if negb (fits_double tau) then Raise Cv2Error
    else if (height img =? 0)%nat || (width img =? 0)%nat
         then Raise TypeError
         else Ok (map (map (binarize_pixel (int_of_thresh tau))) img).
Proof.
  destruct (fits_double tau) eqn:Hfit; cbn [negb];
    [|unfold cv2_threshold; now rewrite Hfit].
  destruct ((height img =? 0)%nat || (width img =? 0)%nat) eqn:E.
  - unfold cv2_threshold; now rewrite Hfit, E.
  - apply Bool.orb_false_iff in E as [Eh Ew].
    apply threshold_image_eq; [assumption|].
    split; now apply Nat.eqb_neq.
Qed.

(** When the threshold converts to a double and no image is empty,
    [threshold_images] returns the batch thresholded at the C int of
    the threshold. *)
Lemma threshold_images_eq (images : batch) (tau : Z) :
  fits_double tau = true -> Forall nonempty_image images ->
  threshold_images images tau
  = Ok (map (fun img => map (map (binarize_pixel (int_of_thresh tau))) img)
            images).
Proof.
  intros Hfit Hne; unfold threshold_images.
  induction Hne as [|img rest Himg _ IH]; [reflexivity|].
  cbn [mapM map]; rewrite (threshold_image_eq img tau Hfit Himg).
  cbn [bind]; now rewrite IH.
Qed.

(** What a call that returns has returned. *)
Lemma threshold_images_Ok (images out : batch) (tau : Z) :
  threshold_images images tau = Ok out ->
  Forall nonempty_image images
  /\ (images <> [] -> fits_double tau = true)
  /\ out = map (fun img => map (map (binarize_pixel (int_of_thresh tau))) img)
               images.
Proof.
  unfold threshold_images; revert out.
  induction images as [|img rest IH]; intros out H.
  - cbn [mapM] in H; injection H as <-.
    split; [constructor|]; split; [congruence | reflexivity].
  - cbn [mapM] in H; rewrite threshold_image_cases in H.
    destruct (fits_double tau) eqn:Hfit; cbn [negb] in H;
      [|discriminate].
    destruct ((height img =? 0)%nat || (width img =? 0)%nat) eqn:E;
      [discriminate|].
    cbn [bind] in H.
    destruct (mapM _ rest) as [ys|e] eqn:Hrest; [|discriminate].
    cbn [bind] in H; injection H as <-.
    destruct (IH ys eq_refl) as [Hne [_ ->]].
    apply Bool.orb_false_iff in E as [Eh Ew].
    split; [constructor; [split; now apply Nat.eqb_neq | exact Hne]|].
    split; reflexivity.
Qed.

(** The only exceptions of [threshold_images] are those of OpenCV and
    of the uint8 conversion. *)
Lemma threshold_images_raises (images : batch) (tau : Z) (e : exn) :
  threshold_images images tau = Raise e -> e = Cv2Error \/ e = TypeError.
Proof.
  unfold threshold_images; induction images as [|img rest IH];
    cbn [mapM]; [discriminate|].
  rewrite threshold_image_cases.
  destruct (negb (fits_double tau)); [intros [= <-]; now left|].
  destruct ((height img =? 0)%nat || (width img =? 0)%nat);
    [intros [= <-]; now right|].
  cbn [bind]; destruct (mapM _ rest) as [ys|e'];
    [discriminate|].
  cbn [bind]; intros [= <-]; now apply IH.
Qed.

(** What the code does at every pixel: a value strictly above the
    threshold becomes 255, a value at or below it becomes 0. *)
Lemma threshold_images_pixel (images : batch) (tau : Z) :
  int32 tau -> Forall nonempty_image images ->
  exists out, threshold_images images tau = Ok out
    /\ length out = length images
    /\ forall i r c,
         (i < length images)%nat ->
         (r < length (nth i images []))%nat ->
         (c < length (nth r (nth i images []) []))%nat ->
         pix (nth i out []) r c
         = if tau <? pix (nth i images []) r c then 255 else 0.
Proof.
  intros Ht Hne.
  rewrite (threshold_images_eq images tau (int32_fits_double tau Ht) Hne).
  rewrite (int32_int_of_thresh tau Ht).
  eexists; split; [reflexivity|].
  split; [now rewrite length_map|].
  intros i r c Hi Hr Hc.
  rewrite nth_indep with (d' := map (map (binarize_pixel tau)) [])
    by now rewrite length_map.
  rewrite (map_nth (fun img => map (map (binarize_pixel tau)) img)).
  now rewrite pix_map.
Qed.

(** C1.  The specification asks for 255 at a pixel equal to the
    threshold, as the docstring of [threshold_images] does
    ("All pixel values < threshold ==> 0, else ==> 255");
    [cv2.THRESH_BINARY] compares strictly, so the code stores 0 there,
    at every threshold that fits a C int. *)
Theorem threshold_images_boundary_pixel :
  threshold_images boundary_batch 100 = Ok [[[0]]]
  /\ binarize_doc (pix (nth 0 boundary_batch []) 0 0) 100 = 255
  /\ forall tau, int32 tau -> threshold_images [[[tau]]] tau = Ok [[[0]]].
Proof.
  split; [vm_compute; reflexivity|]. split; [reflexivity|].
  intros tau Ht.
  rewrite (threshold_images_eq [[[tau]]] tau (int32_fits_double tau Ht)).
  - rewrite (int32_int_of_thresh tau Ht); unfold binarize_pixel.
    cbn [map]; now rewrite Z.ltb_irrefl.
  - constructor; [split; discriminate | constructor].
Qed.

Lemma binarize_pixel_idempotent (tau p : Z) :
  0 <= tau <= 255 -> is_byte p ->
  binarize_pixel tau (binarize_pixel tau p) = binarize_pixel tau p.
Proof.
  unfold binarize_pixel, is_byte; intros Htau Hp.
  destruct (tau <? p) eqn:E.
  - apply Z.ltb_lt in E.
    assert (H : tau < 255) by lia.
    now apply Z.ltb_lt in H; rewrite H.
  - assert (H : (tau <? 0) = false) by (apply Z.ltb_ge; lia).
    now rewrite H.
Qed.

(** C8.  On a byte-valued batch and for a threshold of [0, 255]:
    the call returns when every image has at least one row and one
    column, and whenever it returns, thresholding its result again at
    the same threshold returns that result unchanged. *)
Theorem threshold_images_idempotent (images : batch) (tau : Z) :
  byte_batch images -> 0 <= tau <= 255 ->
  (Forall nonempty_image images ->
   exists out, threshold_images images tau = Ok out)
  /\ forall out, threshold_images images tau = Ok out ->
                 threshold_images out tau = Ok out.
Proof.
  intros Hb Htau.
  assert (Ht : int32 tau) by (unfold int32; change (2 ^ 31) with 2147483648; lia).
  pose proof (int32_fits_double tau Ht) as Hfit.
  pose proof (int32_int_of_thresh tau Ht) as Hint.
  split.
  - intros Hne; rewrite (threshold_images_eq images tau Hfit Hne).
    eexists; reflexivity.
  - intros out Hout.
    destruct (threshold_images_Ok images out tau Hout) as [Hne [_ ->]].
    rewrite Hint; rewrite threshold_images_eq; [|exact Hfit|].
    + rewrite Hint; apply f_equal.
      rewrite map_map; apply map_ext_in; intros img Himg.
      rewrite map_map; apply map_ext_in; intros row Hrow.
      rewrite map_map; apply map_ext_in; intros p Hp.
      apply binarize_pixel_idempotent; [exact Htau|].
      unfold byte_batch, byte_image in Hb.
      rewrite Forall_forall in Hb; specialize (Hb _ Himg).
      rewrite Forall_forall in Hb; specialize (Hb _ Hrow).
      rewrite Forall_forall in Hb; exact (Hb _ Hp).
    + rewrite Forall_forall in *; intros o Ho.
      apply in_map_iff in Ho as [img [<- Himg]].
      destruct (Hne img Himg) as [Hh Hw]; unfold nonempty_image.
      unfold height, width in *.
      rewrite length_map.
      split; [exact Hh|].
      destruct img as [|row rest]; [contradiction Hh; reflexivity|].
      cbn [map nth] in *; now rewrite length_map.
Qed.

Lemma threshold_images_idempotent_witness :
  (Forall nonempty_image small_batch ->
   exists out, threshold_images small_batch 100 = Ok out)
  /\ forall out, threshold_images small_batch 100 = Ok out ->
                 threshold_images out 100 = Ok out.
Proof.
  apply (threshold_images_idempotent small_batch 100).
  - unfold small_batch, byte_batch, byte_image, is_byte.
    repeat constructor; lia.
  - lia.
Defined.

(** C10, as stated, fails: a threshold outside [0, 255] is accepted and
    the call returns. *)
Lemma threshold_images_accepts_300 :
  threshold_images small_batch 300 = Ok [[[0; 0; 0]; [0; 0; 0]]]
  /\ threshold_images small_batch 300 <> Raise ParameterError
  /\ ~ (0 <= 300 <= 255).
Proof.
  split; [vm_compute; reflexivity|].
  split; [vm_compute; discriminate | lia].
Qed.

(** C10, amended.  [threshold_images] does not validate its threshold:
    on a batch whose images have at least one row and one column, and
    for every threshold that fits a C int, inside or outside [0, 255],
    it returns the batch with each pixel [p] replaced by 255 when
    [p > threshold] and by 0 otherwise; and no call at all raises
    ParameterError. *)
Theorem threshold_images_unvalidated (images : batch) (tau : Z) :
  Forall nonempty_image images -> int32 tau ->
  threshold_images images tau
  = Ok (map (fun img => map (map (fun p => if tau <? p then 255 else 0)) img)
            images)
  /\ forall images' tau',
       threshold_images images' tau' <> Raise ParameterError.
Proof.
  intros Hne Ht; split.
  - rewrite (threshold_images_eq images tau (int32_fits_double tau Ht) Hne).
    now rewrite (int32_int_of_thresh tau Ht).
  - intros images' tau' H.
    apply threshold_images_raises in H as [H | H]; discriminate.
Qed.

Lemma threshold_images_unvalidated_witness :
  threshold_images small_batch 300
  = Ok (map (fun img => map (map (fun p => if 300 <? p then 255 else 0)) img)
            small_batch)
  /\ forall images' tau',
       threshold_images images' tau' <> Raise ParameterError.
Proof.
  apply (threshold_images_unvalidated small_batch 300).
  - repeat constructor; vm_compute; discriminate.
  - unfold int32; change (2 ^ 31) with 2147483648; lia.
Defined.

(** ** is_defective *)

Lemma filter_nonempty_iff {A : Type} (f : A -> bool) (l : list A) :
  (0 < length (filter f l))%nat <-> exists a, In a l /\ f a = true.
Proof.
  split.
  - destruct (filter f l) as [|a t] eqn:E; simpl; [lia|]; intros _.
    exists a; apply filter_In; rewrite E; now left.
  - intros [a Ha]; apply filter_In in Ha.
    destruct (filter f l); [destruct Ha | simpl; lia].
Qed.

(** C5.  [is_defective] returns 1 exactly when some area is at least
    [min_area], and 0 otherwise; on the empty sequence it returns 0. *)
Theorem is_defective_iff (areas : list Z) (min_area : Z) :
  (is_defective areas min_area = 1
   <-> exists a, In a areas /\ min_area <= a)
  /\ (is_defective areas min_area = 0
      <-> forall a, In a areas -> a < min_area)
  /\ is_defective [] min_area = 0.
Proof.
  unfold is_defective.
  pose proof (filter_nonempty_iff (fun a => min_area <=? a) areas) as H.
  destruct (0 <? Z.of_nat (length (filter (fun a => min_area <=? a) areas)))
    eqn:E.
  - apply Z.ltb_lt in E.
    assert (Hex : exists a, In a areas /\ min_area <= a).
    { destruct (proj1 H ltac:(lia)) as [a [Ha Hle]].
      exists a; split; [exact Ha | now apply Z.leb_le]. }
    split; [tauto|]. split; [|reflexivity].
    split; [discriminate|].
    intros Hall; destruct Hex as [a [Ha Hle]]; specialize (Hall a Ha); lia.
  - apply Z.ltb_ge in E.
    assert (Hno : forall a, In a areas -> a < min_area).
    { intros a Ha.
      destruct (Z.lt_ge_cases a min_area) as [|Hge]; [assumption|].
      assert (0 < length (filter (fun a => (min_area <=? a)%Z) areas))%nat;
        [|lia].
      apply H; exists a; split; [exact Ha | now apply Z.leb_le]. }
    split; [|split; [tauto | reflexivity]].
    split; [discriminate|].
    intros [a [Ha Hle]]; specialize (Hno a Ha); lia.
Qed.

(** ** The scoring step *)

Lemma mapM_map {A B C : Type} (g : A -> B) (f : B -> result C) (l : list A) :
  mapM f (map g l) = mapM (fun x => f (g x)) l.
Proof. induction l as [|x l IH]; simpl; [reflexivity | now rewrite IH]. Qed.

Lemma mapM_ext {A B : Type} (f g : A -> result B) (l : list A) :
  (forall x, f x = g x) -> mapM f l = mapM g l.
Proof.
  intros H; induction l as [|x l IH]; simpl; [reflexivity|].
  now rewrite H, IH.
Qed.

Lemma agree_on_combine (v : Z) (y_pred y_true : list Z) :
  length y_pred = length y_true ->
  agree_on v y_pred y_true (length y_true)
  = Ok (map (fun pt => agree v (fst pt) (snd pt)) (combine y_pred y_true)).
Proof.
  unfold agree_on; revert y_true.
  induction y_pred as [|p yp IH]; intros [|t yt] Hlen; simpl in Hlen;
    try discriminate; [reflexivity|].
  injection Hlen as Hlen.
  cbn [length seq mapM getitem nth_error bind combine map fst snd].
  rewrite <- seq_shift, mapM_map.
  erewrite mapM_ext; [rewrite (IH yt Hlen); reflexivity|].
  intros i; reflexivity.
Qed.

Lemma np_sum_agree (v : Z) (l : list (Z * Z)) :
  np_sum (map (fun pt => agree v (fst pt) (snd pt)) l)
  = Z.of_nat (length (filter (fun pt => (fst pt =? v) && (snd pt =? v)) l)).
Proof.
  induction l as [|[p t] l IH]; [reflexivity|].
  cbn [map np_sum fold_right filter fst snd].
  change (fold_right Z.add 0 ?x) with (np_sum x); rewrite IH.
  unfold agree.
  destruct (p =? t) eqn:E1, (t =? v) eqn:E2, (p =? v) eqn:E3;
    cbn [andb length]; rewrite ?Z.eqb_eq, ?Z.eqb_neq in *;
    try (exfalso; lia); hide_lengths; lia.
Qed.

Lemma py_count_split (v : Z) (y_pred y_true : list Z) :
  length y_pred = length y_true -> labels01 y_pred ->
  py_count v y_true
  = count_pairs 1 v y_pred y_true + count_pairs 0 v y_pred y_true.
Proof.
  unfold py_count, count_pairs; revert y_true.
  induction y_pred as [|p yp IH]; intros [|t yt] Hlen H01; simpl in Hlen;
    try discriminate; [reflexivity|].
  injection Hlen as Hlen.
  apply Forall_cons_iff in H01 as [Hp H01].
  specialize (IH yt Hlen H01).
  cbn [count_occ combine filter fst snd].
  destruct (Z.eq_dec t v) as [->|Hne].
  - rewrite Z.eqb_refl.
    destruct Hp as [-> | ->];
      change (0 =? 1) with false; change (1 =? 0) with false;
      change (0 =? 0) with true; change (1 =? 1) with true;
      cbn [andb length]; rewrite ?Nat2Z.inj_succ; hide_lengths; lia.
  - apply Z.eqb_neq in Hne; rewrite Hne, !andb_false_r. exact IH.
Qed.

(** On label sequences of equal length the two rates of lines 178 and
    181 are [TP / (TP + FN)] and [TN / (TN + FP)] by numpy's division. *)
Lemma compute_rates_formula (y_pred y_true : list Z) :
  length y_pred = length y_true -> labels01 y_pred ->
  compute_rates y_pred y_true (length y_true)
  = Ok {| TPR := np_true_divide (TP_of y_pred y_true)
                                (TP_of y_pred y_true + FN_of y_pred y_true);
          TNR := np_true_divide (TN_of y_pred y_true)
                                (TN_of y_pred y_true + FP_of y_pred y_true) |}.
Proof.
  intros Hlen H01; unfold compute_rates.
  rewrite !agree_on_combine by exact Hlen; cbn [bind].
  rewrite !np_sum_agree.
  rewrite (py_count_split 1 y_pred y_true Hlen H01).
  rewrite (py_count_split 0 y_pred y_true Hlen H01).
  unfold TP_of, FN_of, TN_of, FP_of, count_pairs.
  now rewrite (Z.add_comm (Z.of_nat (length (filter
    (fun pt => (fst pt =? 1) && (snd pt =? 0)) (combine y_pred y_true))))).
Qed.

(** A rate whose class is absent from the ground truth is nan: numpy's
    [0 / 0], which warns and does not raise. *)
Lemma compute_rates_absent_class (y_pred y_true : list Z) (r : rates) :
  length y_pred = length y_true -> labels01 y_pred ->
  compute_rates y_pred y_true (length y_true) = Ok r ->
  (py_count 1 y_true = 0 -> TPR r = NaN)
  /\ (py_count 0 y_true = 0 -> TNR r = NaN).
Proof.
  intros Hlen H01; rewrite (compute_rates_formula _ _ Hlen H01).
  intros [= <-]; cbn [TPR TNR].
  rewrite (py_count_split 1 y_pred y_true Hlen H01).
  rewrite (py_count_split 0 y_pred y_true Hlen H01).
  unfold TP_of, FN_of, TN_of, FP_of, count_pairs, np_true_divide.
  split; intros H.
  - replace (_ + _ =? 0) with true by (symmetry; apply Z.eqb_eq; lia).
    replace (_ =? 0) with true by (symmetry; apply Z.eqb_eq; lia).
    reflexivity.
  - replace (_ + _ =? 0) with true by (symmetry; apply Z.eqb_eq; lia).
    replace (_ =? 0) with true by (symmetry; apply Z.eqb_eq; lia).
    reflexivity.
Qed.

Lemma nodup_repeat (x : Z) (n : nat) :
  nodup Z.eq_dec (repeat x (S n)) = [x].
Proof.
  induction n as [|n IH]; [reflexivity|].
  change (repeat x (S (S n))) with (x :: repeat x (S n)).
  cbn [nodup]. destruct (in_dec Z.eq_dec x (repeat x (S n))) as [_|Hn].
  - exact IH.
  - exfalso; apply Hn; now left.
Qed.

(** When a single label occurs in the ground truth and in the
    predictions, the confusion matrix is 1x1 and cannot be unpacked into
    four values: the scoring step raises after the rates are computed. *)
Lemma main_scoring_single_label (v : Z) (n : nat) :
  main_scoring (repeat v (S n)) (repeat v (S n)) (S n) = Raise ValueError.
Proof.
  unfold main_scoring.
  assert (Hr : exists r, compute_rates (repeat v (S n)) (repeat v (S n)) (S n)
                         = Ok r).
  { unfold compute_rates.
    pose proof (agree_on_combine 1 (repeat v (S n)) (repeat v (S n)) eq_refl)
      as H1.
    pose proof (agree_on_combine 0 (repeat v (S n)) (repeat v (S n)) eq_refl)
      as H0.
    rewrite repeat_length in H1, H0; rewrite H1, H0; cbn [bind].
    eexists; reflexivity. }
  destruct Hr as [r ->]; cbn [bind].
  unfold confusion_matrix, unique_labels.
  rewrite Nat.eqb_refl; cbn [negb].
  rewrite <- repeat_app.
  replace (S n + S n)%nat with (S (n + S n)) by lia.
  rewrite nodup_repeat; reflexivity.
Qed.

(** C6.  On one "good" image predicted non-defective the class of
    defective images is absent; the rates are computed (TPR is nan), and
    then the scoring step raises ValueError instead of reporting them. *)
Theorem main_scoring_absent_class_raises :
  compute_rates [0] [0] 1 = Ok {| TPR := NaN; TNR := Fin (1 # 1) |}
  /\ main_scoring [0] [0] 1 = Raise ValueError.
Proof. split; reflexivity. Qed.

(** ** Rounding *)

Lemma round_half_even_bounds (q : Q) :
  (inject_Z (round_half_even q) - (1 # 2) <= q
   /\ q <= inject_Z (round_half_even q) + (1 # 2))%Q.
Proof.
  unfold round_half_even.
  pose proof (Qfloor_le q) as Hlo.
  pose proof (Qlt_floor q) as Hhi.
  rewrite inject_Z_plus in Hhi.
  change (inject_Z 1) with 1%Q in Hhi.
  set (f := Qfloor q) in *.
  destruct (Qcompare_spec (q - inject_Z f) (1 # 2)) as [He|Hl|Hg].
  - destruct (Z.even f); rewrite ?inject_Z_plus;
      change (inject_Z 1) with 1%Q; split; lra.
  - split; lra.
  - rewrite inject_Z_plus; change (inject_Z 1) with 1%Q; split; lra.
Qed.

Lemma round_half_even_nonneg (q : Q) : (0 <= q)%Q -> 0 <= round_half_even q.
Proof.
  intros Hq; unfold round_half_even.
  assert (Hf : 0 <= Qfloor q).
  { change 0 with (Qfloor 0); now apply Qfloor_resp_le. }
  destruct (_ ?= _)%Q; [destruct (Z.even _)| |]; lia.
Qed.

Lemma Qtrunc_tenths (n : Z) :
  0 <= n ->
  (inject_Z (Qtrunc (inject_Z n / 10)) <= inject_Z n / 10
   /\ inject_Z n / 10 <= inject_Z (Qtrunc (inject_Z n / 10)) + (9 # 10))%Q.
Proof.
  intros Hn.
  assert (E : Qtrunc (inject_Z n / 10) = Z.quot n 10).
  { unfold Qtrunc; simpl; now rewrite Z.mul_1_r. }
  rewrite E.
  pose proof (Z.quot_rem' n 10) as Hqr.
  pose proof (Z.rem_bound_pos n 10 Hn ltac:(lia)) as Hr.
  unfold Qle, Qdiv, Qmult, Qplus, Qinv, inject_Z; simpl.
  split; lia.
Qed.

(** ** get_threshold_min *)

(** The body never mentions its parameters. *)
Lemma get_threshold_min_ignores_arguments
      (fsqrt ndtri : Q -> Q) (st : module_state)
      (resmaps1 resmaps2 : batch) (p1 p2 : Q) :
  get_threshold_min fsqrt ndtri st resmaps1 p1
  = get_threshold_min fsqrt ndtri st resmaps2 p2.
Proof. reflexivity. Qed.

(** C9.  The result is fixed by the module-level array and the literal
    0.97, not by the arguments: any two argument lists give the same
    result, and the same arguments give 1 or 201 according to the array
    loaded in [resmaps_val_uint8]. *)
Theorem get_threshold_min_reads_module_state :
  (forall (fsqrt ndtri : Q -> Q) st resmaps1 resmaps2 p1 p2,
      get_threshold_min fsqrt ndtri st resmaps1 p1
      = get_threshold_min fsqrt ndtri st resmaps2 p2)
  /\ get_threshold_min sqrt_q ndtri_table
       {| resmaps_val_uint8 := val_low |} small_batch (1 # 2) = Ok 1
  /\ get_threshold_min sqrt_q ndtri_table
       {| resmaps_val_uint8 := val_high |} small_batch (1 # 2) = Ok 201.
Proof.
  split; [intros; apply get_threshold_min_ignores_arguments|].
  split; vm_compute; reflexivity.
Qed.

(** C2, as stated, fails: on the array [[0, 2]] (mean 1, deviation 1)
    the quantile at 0.97 is 2.8807936; the code returns
    [int(round(2.8807936, 1)) - 1 = int(2.9) - 1 = 1], the nearest
    integer minus one is 2. *)
Lemma get_threshold_min_not_nearest_integer :
  get_threshold_min sqrt_q ndtri_table
    {| resmaps_val_uint8 := val_low |} val_low (97 # 100) = Ok 1
  /\ tau_min_spec sqrt_q ndtri_table val_low (97 # 100) = Ok 2
  /\ get_threshold_min sqrt_q ndtri_table
       {| resmaps_val_uint8 := val_low |} val_low (97 # 100)
     <> tau_min_spec sqrt_q ndtri_table val_low (97 # 100).
Proof.
  split; [vm_compute; reflexivity|].
  split; [vm_compute; reflexivity|].
  vm_compute; discriminate.
Qed.

Lemma np_amin_amax_nonempty (xs : list Z) :
  xs <> [] -> exists lo hi, np_amin xs = Ok lo /\ np_amax xs = Ok hi.
Proof.
  destruct xs as [|x xs]; [congruence|]; intros _; simpl; eauto.
Qed.

(** C2, amended.  When the array passed is the module-level validation
    array and the percentile is 0.97, and the Normal(mu, sigma) quantile
    [x] of that array at 0.97 is finite and not negative, the function
    returns [int(round(x, 1)) - 1]: [x] rounded to one decimal, truncated
    to an integer, minus one; this value [t] satisfies
    [t + 0.95 <= x <= t + 1.95]. *)
Theorem get_threshold_min_value
        (fsqrt ndtri : Q -> Q) (st : module_state)
        (resmaps : batch) (ppf_value : Q) (x : Q) :
  resmaps_val_uint8 st = resmaps ->
  ppf_value = (97 # 100)%Q ->
  norm_ppf ndtri (np_mean (flatten resmaps))
           (np_std fsqrt (flatten resmaps)) ppf_value = Fin x ->
  (0 <= x)%Q ->
  exists t,
    get_threshold_min fsqrt ndtri st resmaps ppf_value = Ok t
    /\ py_int (py_round1 (Fin x)) = Ok (t + 1)
    /\ (inject_Z t + (19 # 20) <= x /\ x <= inject_Z t + (39 # 20))%Q.
Proof.
  intros Hst Hp Hx Hx0; subst ppf_value.
  unfold get_threshold_min; rewrite Hst.
  assert (Hne : flatten resmaps <> []).
  { intros E; rewrite E in Hx; discriminate Hx. }
  destruct (np_amin_amax_nonempty _ Hne) as [lo [hi [-> ->]]]; cbn [bind].
  rewrite Hx; cbn [py_round1 py_int bind].
  set (n := round_half_even (x * 10)).
  exists (Qtrunc (inject_Z n / 10) - 1).
  split; [reflexivity|].
  split; [f_equal; lia|].
  assert (Hn : 0 <= n) by (apply round_half_even_nonneg; lra).
  destruct (Qtrunc_tenths n Hn) as [H1 H2].
  destruct (round_half_even_bounds (x * 10)) as [H3 H4]; fold n in H3, H4.
  assert (Hy : (inject_Z n == (inject_Z n / 10) * 10)%Q) by field.
  set (y := (inject_Z n / 10)%Q) in *.
  assert (E : (inject_Z (Qtrunc y - 1) == inject_Z (Qtrunc y) - 1)%Q).
  { unfold Z.sub; rewrite inject_Z_plus; reflexivity. }
  rewrite E; split; lra.
Qed.

Lemma get_threshold_min_value_witness :
  exists t,
    get_threshold_min sqrt_q ndtri_table
      {| resmaps_val_uint8 := val_low |} val_low (97 # 100) = Ok t
    /\ py_int (py_round1 (Fin (1843707904 # 640000000))) = Ok (t + 1)
    /\ (inject_Z t + (19 # 20) <= 1843707904 # 640000000
        /\ 1843707904 # 640000000 <= inject_Z t + (39 # 20))%Q.
Proof.
  apply (get_threshold_min_value sqrt_q ndtri_table
           {| resmaps_val_uint8 := val_low |} val_low (97 # 100)).
  - reflexivity.
  - reflexivity.
  - vm_compute; reflexivity.
  - vm_compute; discriminate.
Defined.

(** ** Positions *)

Lemma pos_eqb_eq (p q : pos) : pos_eqb p q = true <-> p = q.
Proof.
  destruct p as [a b], q as [c d]; unfold pos_eqb; simpl.
  rewrite andb_true_iff, !Nat.eqb_eq.
  split; [intros [-> ->]; reflexivity | intros [= -> ->]; now split].
Qed.

Lemma mem_In (p : pos) (l : list pos) : mem p l = true <-> In p l.
Proof.
  unfold mem; rewrite existsb_exists; split.
  - intros [x [Hx E]]; apply pos_eqb_eq in E; now subst.
  - intros H; exists p; split; [exact H | now apply pos_eqb_eq].
Qed.

Lemma mem_false (p : pos) (l : list pos) : mem p l = false <-> ~ In p l.
Proof.
  rewrite <- mem_In; destruct (mem p l); split; congruence.
Qed.

Lemma pos_eq_dec (p q : pos) : {p = q} + {p <> q}.
Proof. decide equality; apply Nat.eq_dec. Qed.

Lemma filter_nil {A : Type} (f : A -> bool) (l : list A) :
  (forall x, In x l -> f x = false) -> filter f l = [].
Proof.
  induction l as [|x l IH]; intros H; [reflexivity|]; simpl.
  rewrite (H x (or_introl eq_refl)); apply IH.
  intros y Hy; apply H; now right.
Qed.

Lemma NoDup_app_disjoint {A : Type} (l1 l2 : list A) :
  NoDup (l1 ++ l2) -> forall a, In a l1 -> ~ In a l2.
Proof.
  induction l1 as [|x l1 IH]; intros Hnd a Ha; [destruct Ha|].
  simpl in Hnd; apply NoDup_cons_iff in Hnd as [Hx Hnd].
  destruct Ha as [->|Ha]; [|now apply IH].
  intros H2; apply Hx, in_app_iff; now right.
Qed.

(** ** Flood fill *)

Section FloodFillFacts.

Variable adj : pos -> pos -> bool.

Lemma grow_In (avail region : list pos) (x : pos) :
  In x (grow adj avail region)
  <-> In x region
      \/ (In x avail /\ ~ In x region
          /\ exists s, In s region /\ adj s x = true).
Proof.
  unfold grow; rewrite in_app_iff, filter_In, andb_true_iff, negb_true_iff,
    mem_false, existsb_exists; tauto.
Qed.

Lemma grow_NoDup (avail region : list pos) :
  NoDup avail -> NoDup region -> NoDup (grow adj avail region).
Proof.
  intros Ha Hr; unfold grow.
  apply NoDup_app; [exact Hr | now apply NoDup_filter |].
  intros x Hx Hf; apply filter_In in Hf as [_ Hf].
  apply andb_true_iff in Hf as [Hf _].
  apply negb_true_iff, mem_false in Hf; contradiction.
Qed.

Lemma grow_fix (avail region : list pos) :
  closed_in adj avail region -> grow adj avail region = region.
Proof.
  intros Hc; unfold grow.
  replace (filter _ avail) with (@nil pos); [apply app_nil_r|].
  symmetry; apply filter_nil; intros q Hq.
  destruct (mem q region) eqn:Em; [reflexivity|]; cbn [negb andb].
  apply not_true_is_false; intros He.
  apply existsb_exists in He as [s [Hs Hadj]].
  apply mem_false in Em; apply Em; exact (Hc s q Hs Hq Hadj).
Qed.

Lemma grow_closed_or_longer (avail region : list pos) :
  closed_in adj avail region
  \/ (length region < length (grow adj avail region))%nat.
Proof.
  unfold grow.
  destruct (filter _ avail) as [|q new] eqn:E.
  - left; intros s x Hs Hx Hadj.
    destruct (in_dec pos_eq_dec x region) as [|Hn]; [assumption|exfalso].
    assert (Hin : In x (filter (fun q => negb (mem q region)
                              && existsb (fun s => adj s q) region) avail)).
    { apply filter_In; split; [exact Hx|].
      apply andb_true_iff; split.
      - now apply negb_true_iff, mem_false.
      - apply existsb_exists; now exists s. }
    rewrite E in Hin; destruct Hin.
  - right; rewrite length_app; simpl; lia.
Qed.

Lemma flood_fix (n : nat) (avail region : list pos) :
  closed_in adj avail region -> flood adj n avail region = region.
Proof.
  intros Hc; induction n as [|n IH]; [reflexivity|].
  simpl; now rewrite grow_fix.
Qed.

Lemma flood_seed (n : nat) (avail region : list pos) (x : pos) :
  In x region -> In x (flood adj n avail region).
Proof.
  revert region; induction n as [|n IH]; intros region Hx; [exact Hx|].
  simpl; apply IH, grow_In; now left.
Qed.

Lemma flood_incl (n : nat) (avail region : list pos) (x : pos) :
  In x (flood adj n avail region) -> In x region \/ In x avail.
Proof.
  revert region; induction n as [|n IH]; intros region Hx; [now left|].
  simpl in Hx; apply IH in Hx as [Hx|Hx]; [|now right].
  apply grow_In in Hx; tauto.
Qed.

Lemma flood_NoDup (n : nat) (avail region : list pos) :
  NoDup avail -> NoDup region -> NoDup (flood adj n avail region).
Proof.
  intros Ha; revert region; induction n as [|n IH]; intros region Hr;
    [exact Hr|].
  simpl; apply IH; now apply grow_NoDup.
Qed.

(** After [n] rounds the region is closed or has gained [n] pixels. *)
Lemma flood_closed_or_long (n : nat) (avail region : list pos) :
  closed_in adj avail (flood adj n avail region)
  \/ (length region + n <= length (flood adj n avail region))%nat.
Proof.
  revert region; induction n as [|n IH]; intros region.
  - right; simpl; lia.
  - simpl.
    destruct (grow_closed_or_longer avail region) as [Hc|Hl].
    + left; rewrite grow_fix by exact Hc. now rewrite flood_fix.
    + destruct (IH (grow adj avail region)) as [Hc|Hlong];
        [now left | right; lia].
Qed.

(** The region of a seed contains every available pixel it touches. *)
Lemma region_of_closed (avail : list pos) (p : pos) :
  NoDup avail -> In p avail -> closed_in adj avail (region_of adj avail p).
Proof.
  intros Ha Hp; unfold region_of.
  destruct (flood_closed_or_long (length avail) avail [p]) as [Hc|Hl];
    [exact Hc | exfalso].
  assert (Hle : (length (flood adj (length avail) avail [p])
                 <= length avail)%nat).
  { apply NoDup_incl_length.
    - apply flood_NoDup; [exact Ha | repeat constructor; intros []].
    - intros x Hx; apply flood_incl in Hx as [[<-|[]]|Hx]; assumption. }
  simpl in Hl; lia.
Qed.

Lemma region_of_seed (avail : list pos) (p : pos) :
  In p (region_of adj avail p).
Proof. apply flood_seed; now left. Qed.

Lemma region_of_incl (avail : list pos) (p x : pos) :
  In p avail -> In x (region_of adj avail p) -> In x avail.
Proof.
  intros Hp Hx; apply flood_incl in Hx as [[<-|[]]|Hx]; assumption.
Qed.

Lemma region_of_NoDup (avail : list pos) (p : pos) :
  NoDup avail -> NoDup (region_of adj avail p).
Proof.
  intros Ha; apply flood_NoDup; [exact Ha | repeat constructor; intros []].
Qed.

End FloodFillFacts.

(** ** The raster scan *)

Section RegionsFacts.

Variable adj : pos -> pos -> bool.
Variable nodes : list pos.
Hypothesis adj_sym : forall p q, adj p q = adj q p.

Lemma remove_region_In (C avail : list pos) (x : pos) :
  In x (filter (fun q => negb (mem q C)) avail) <-> In x avail /\ ~ In x C.
Proof. now rewrite filter_In, negb_true_iff, mem_false. Qed.

Lemma separated_step (avail : list pos) (p : pos) :
  NoDup avail -> In p avail -> separated adj nodes avail ->
  separated adj nodes
            (filter (fun q => negb (mem q (region_of adj avail p))) avail).
Proof.
  intros Hnd Hp Hsep q r Hq Hnq Hr.
  apply remove_region_In in Hr as [Hr HrC].
  destruct (in_dec pos_eq_dec q avail) as [Hqa|Hqa].
  - assert (HqC : In q (region_of adj avail p)).
    { destruct (in_dec pos_eq_dec q (region_of adj avail p)) as [|Hn];
        [assumption | exfalso].
      apply Hnq, remove_region_In; now split. }
    apply not_true_is_false; intros Hadj; apply HrC.
    exact (region_of_closed adj avail p Hnd Hp q r HqC Hr Hadj).
  - now apply Hsep.
Qed.

(** Every region found is the flood of a seed among the pixels still
    available, and it is closed among all the nodes. *)
Lemma regions_spec (todo avail : list pos) (C : list pos) :
  NoDup avail -> incl avail nodes -> separated adj nodes avail ->
  In C (regions adj todo avail) ->
  (exists p avail', In p avail' /\ incl avail' avail /\ NoDup avail'
                    /\ C = region_of adj avail' p)
  /\ closed_in adj nodes C.
Proof.
  revert avail; induction todo as [|p rest IH];
    intros avail Hnd Hincl Hsep HC; [destruct HC|].
  simpl in HC. destruct (mem p avail) eqn:Ep.
  - apply mem_In in Ep. destruct HC as [<-|HC].
    + split.
      * exists p, avail; repeat split; auto using incl_refl.
      * intros s q Hs Hq Hadj.
        destruct (in_dec pos_eq_dec q avail) as [Hqa|Hqa].
        -- exact (region_of_closed adj avail p Hnd Ep s q Hs Hqa Hadj).
        -- exfalso.
           assert (Hsa : In s avail) by (eapply region_of_incl; eauto).
           rewrite adj_sym in Hadj.
           rewrite (Hsep q s Hq Hqa Hsa) in Hadj; discriminate.
    + destruct (IH _ (NoDup_filter _ Hnd)
                   (fun x Hx => Hincl x (proj1 (proj1 (remove_region_In _ _ _) Hx)))
                   (separated_step avail p Hnd Ep Hsep) HC)
        as [[q [avail' [Hq [Hsub [Hnd' ->]]]]] Hclosed].
      split; [|exact Hclosed].
      exists q, avail'; repeat split; auto.
      intros x Hx; exact (proj1 (proj1 (remove_region_In _ _ _) (Hsub x Hx))).
  - apply IH; assumption.
Qed.

Lemma regions_incl (todo avail : list pos) (x : pos) :
  In x (concat (regions adj todo avail)) -> In x avail.
Proof.
  revert avail; induction todo as [|p rest IH]; intros avail Hx;
    [destruct Hx|].
  simpl in Hx. destruct (mem p avail) eqn:Ep.
  - apply mem_In in Ep. simpl in Hx; apply in_app_iff in Hx as [Hx|Hx].
    + eapply region_of_incl; eauto.
    + apply IH in Hx; now apply remove_region_In in Hx.
  - now apply IH.
Qed.

(** The regions are duplicate-free and pairwise disjoint. *)
Lemma regions_NoDup (todo avail : list pos) :
  NoDup avail -> NoDup (concat (regions adj todo avail)).
Proof.
  revert avail; induction todo as [|p rest IH]; intros avail Hnd;
    [constructor|].
  simpl. destruct (mem p avail) eqn:Ep; [|now apply IH].
  simpl; apply NoDup_app.
  - now apply region_of_NoDup.
  - apply IH; now apply NoDup_filter.
  - intros x Hx Hrest; apply regions_incl, remove_region_In in Hrest.
    tauto.
Qed.

(** Every available pixel of the scan ends up in a region. *)
Lemma regions_cover (todo avail : list pos) (x : pos) :
  In x todo -> In x avail ->
  exists C, In C (regions adj todo avail) /\ In x C.
Proof.
  revert avail; induction todo as [|p rest IH]; intros avail Ht Ha;
    [destruct Ht|].
  simpl. destruct (mem p avail) eqn:Ep.
  - destruct (in_dec pos_eq_dec x (region_of adj avail p)) as [HxC|HxC].
    + eexists; split; [now left | exact HxC].
    + destruct Ht as [->|Ht]; [exfalso; apply HxC, region_of_seed|].
      destruct (IH (filter (fun q => negb (mem q (region_of adj avail p)))
                           avail) Ht) as [C [HC HxC']].
      { apply remove_region_In; now split. }
      exists C; split; [now right | exact HxC'].
  - destruct Ht as [->|Ht]; [apply mem_false in Ep; contradiction|].
    destruct (IH avail Ht Ha) as [C [HC HxC]]; now exists C.
Qed.

Lemma regions_nonempty (todo avail : list pos) (C : list pos) :
  In C (regions adj todo avail) -> C <> [].
Proof.
  revert avail; induction todo as [|p rest IH]; intros avail HC;
    [destruct HC|].
  simpl in HC. destruct (mem p avail); [|now apply IH in HC].
  destruct HC as [<-|HC]; [|now apply IH in HC].
  intros E; pose proof (region_of_seed adj avail p) as H.
  rewrite E in H; destruct H.
Qed.

End RegionsFacts.

(** The flood of a seed stays inside every set that contains the seed
    and is closed under the connection. *)
Lemma flood_least (adj : pos -> pos -> bool) (T : pos -> Prop)
      (n : nat) (avail region : list pos) :
  (forall s q, T s -> In q avail -> adj s q = true -> T q) ->
  (forall s, In s region -> T s) ->
  forall x, In x (flood adj n avail region) -> T x.
Proof.
  intros Hstep; revert region; induction n as [|n IH];
    intros region Hseed x Hx; [now apply Hseed|].
  simpl in Hx; apply (IH (grow adj avail region)); [|exact Hx].
  intros s Hs; apply grow_In in Hs as [Hs|[Hav [_ [s' [Hs' Hadj]]]]].
  - now apply Hseed.
  - apply (Hstep s' s); auto.
Qed.

(** ** Images: grid, foreground, connection *)

Lemma grid_In (img : image) (p : pos) :
  In p (grid img) <-> (fst p < height img)%nat /\ (snd p < width img)%nat.
Proof.
  destruct p as [r c]; unfold grid; cbn [fst snd].
  pose proof (in_prod_iff (seq 0 (height img)) (seq 0 (width img)) r c) as H.
  rewrite !in_seq in H; split; intros H'; [apply H in H' | apply H]; lia.
Qed.

Lemma NoDup_list_prod {A B : Type} (l : list A) (l' : list B) :
  NoDup l -> NoDup l' -> NoDup (list_prod l l').
Proof.
  intros Hl Hl'; induction Hl as [|x l Hx Hl IH]; simpl; [constructor|].
  apply NoDup_app.
  - apply Finite.Injective_map_NoDup; [|exact Hl'].
    intros a b [= ->]; reflexivity.
  - exact IH.
  - intros [a b] H1 H2.
    apply in_map_iff in H1 as [y [[= <- <-] _]].
    apply in_prod_iff in H2 as [H2 _]; contradiction.
Qed.

Lemma grid_NoDup (img : image) : NoDup (grid img).
Proof. apply NoDup_list_prod; apply seq_NoDup. Qed.

Lemma foreground_In (img : image) (p : pos) :
  In p (foreground img)
  <-> (fst p < height img)%nat /\ (snd p < width img)%nat
      /\ at_pos img p <> 0.
Proof.
  unfold foreground.
  rewrite filter_In, grid_In, negb_true_iff, Z.eqb_neq; tauto.
Qed.

Lemma foreground_NoDup (img : image) : NoDup (foreground img).
Proof. apply NoDup_filter, grid_NoDup. Qed.

Lemma near_sym (a b : nat) : near a b = near b a.
Proof.
  unfold near.
  destruct (Nat.eqb_spec a b), (Nat.eqb_spec b a),
    (Nat.eqb_spec a (S b)), (Nat.eqb_spec (S b) a),
    (Nat.eqb_spec (S a) b), (Nat.eqb_spec b (S a)); simpl; try reflexivity;
    lia.
Qed.

Lemma pos_eqb_sym (p q : pos) : pos_eqb p q = pos_eqb q p.
Proof. unfold pos_eqb; now rewrite (Nat.eqb_sym (fst p)), (Nat.eqb_sym (snd p)). Qed.

Lemma connected_sym (img : image) (p q : pos) :
  connected img p q = connected img q p.
Proof.
  unfold connected, neighbours.
  now rewrite (near_sym (fst p)), (near_sym (snd p)), (pos_eqb_sym p),
    (Z.eqb_sym (at_pos img p)).
Qed.

Lemma separated_all (adj : pos -> pos -> bool) (nodes : list pos) :
  separated adj nodes nodes.
Proof. intros q r Hq Hnq; contradiction. Qed.

(** ** Components of an image *)

Lemma components_spec (img : image) (C : list pos) :
  In C (components img) ->
  (exists p avail, In p avail /\ incl avail (foreground img) /\ NoDup avail
                   /\ C = region_of (connected img) avail p)
  /\ closed_in (connected img) (foreground img) C.
Proof.
  apply regions_spec.
  - apply connected_sym.
  - apply foreground_NoDup.
  - apply incl_refl.
  - apply separated_all.
Qed.

Lemma components_NoDup (img : image) : NoDup (concat (components img)).
Proof. apply regions_NoDup, foreground_NoDup. Qed.

Lemma components_cover (img : image) (p : pos) :
  In p (foreground img) -> exists C, In C (components img) /\ In p C.
Proof. intros Hp; now apply regions_cover. Qed.

Lemma components_foreground (img : image) (C : list pos) (p : pos) :
  In C (components img) -> In p C -> In p (foreground img).
Proof.
  intros HC Hp; apply (regions_incl (connected img) (foreground img)).
  apply in_concat; now exists C.
Qed.

Lemma components_nonempty (img : image) (C : list pos) :
  In C (components img) -> C <> [].
Proof. apply regions_nonempty. Qed.

Lemma component_NoDup (img : image) (C : list pos) :
  In C (components img) -> NoDup C.
Proof.
  intros HC; destruct (components_spec img C HC)
    as [[p [avail [_ [_ [Hnd ->]]]]] _].
  now apply region_of_NoDup.
Qed.

(** ** Regions are the connected components *)

Lemma reachable_trans (img : image) (p q r : pos) :
  reachable img p q -> reachable img q r -> reachable img p r.
Proof.
  intros Hpq Hqr; induction Hqr as [|s t _ IH Ht Hc]; [exact Hpq|].
  exact (reach_step img p s t IH Ht Hc).
Qed.

Lemma reachable_foreground (img : image) (p q : pos) :
  In p (foreground img) -> reachable img p q -> In q (foreground img).
Proof. intros Hp H; destruct H; assumption. Qed.

Lemma reachable_sym (img : image) (p q : pos) :
  In p (foreground img) -> reachable img p q -> reachable img q p.
Proof.
  intros Hp H; induction H as [|s t Hps IH Ht Hc]; [constructor|].
  apply reachable_trans with (q := s); [|exact IH].
  apply reach_step with (q := t); [constructor| |].
  - exact (reachable_foreground img p s Hp Hps).
  - now rewrite connected_sym.
Qed.

(** Every pixel of a flood is reached from a seed. *)
Lemma flood_reachable (img : image) (n : nat) (avail region : list pos)
      (x : pos) :
  incl avail (foreground img) ->
  In x (flood (connected img) n avail region) ->
  exists s, In s region /\ reachable img s x.
Proof.
  intros Hav; revert region; induction n as [|n IH]; intros region Hx.
  - exists x; split; [exact Hx | constructor].
  - simpl in Hx; apply IH in Hx as [s [Hs Hsx]].
    apply grow_In in Hs as [Hs|[Hsa [_ [s' [Hs' Hadj]]]]].
    + now exists s.
    + exists s'; split; [exact Hs'|].
      apply reachable_trans with (q := s); [|exact Hsx].
      apply reach_step with (q := s'); [constructor | now apply Hav | exact Hadj].
Qed.

(** A region is the set of foreground pixels reachable from any of its
    pixels: the regions are the connected components of the foreground. *)
Lemma components_are_classes (img : image) (C : list pos) (p q : pos) :
  In C (components img) -> In p C ->
  (In q C <-> reachable img p q).
Proof.
  intros HC Hp.
  destruct (components_spec img C HC)
    as [[seed [avail [Hseed [Hsub [Hnd HCeq]]]]] Hclosed].
  split.
  - intros Hq; subst C; unfold region_of in *.
    apply (flood_reachable img _ _ _ _ Hsub) in Hp as [s [[<-|[]] Hsp]].
    apply (flood_reachable img _ _ _ _ Hsub) in Hq as [s' [[<-|[]] Hsq]].
    apply reachable_trans with (q := seed); [|exact Hsq].
    apply reachable_sym; [now apply Hsub | exact Hsp].
  - intros H; induction H as [|s t _ IH Ht Hc]; [exact Hp|].
    exact (Hclosed s t IH Ht Hc).
Qed.

(** ** Labels and region areas *)

Lemma concat_map_rows {A : Type} (f : pos -> A) (rows cols : list nat) :
  concat (map (fun r => map (fun c => f (r, c)) cols) rows)
  = map f (list_prod rows cols).
Proof.
  induction rows as [|r rows IH]; [reflexivity|].
  simpl; now rewrite map_app, map_map, IH.
Qed.

Lemma skimage_label_flat (img : image) :
  concat (skimage_label img)
  = map (label_from 1 (components img)) (grid img).
Proof. apply concat_map_rows. Qed.

Lemma label_from_hit (comps : list (list pos)) (n : Z) (i : nat)
      (C : list pos) (p : pos) :
  NoDup (concat comps) -> nth_error comps i = Some C -> In p C ->
  label_from n comps p = n + Z.of_nat i.
Proof.
  revert n i; induction comps as [|D comps IH]; intros n i Hnd Hi Hp;
    [destruct i; discriminate|].
  simpl in Hnd; apply NoDup_app_remove_l in Hnd as Hnd'.
  destruct i as [|i]; simpl in Hi.
  - injection Hi as ->; simpl.
    apply mem_In in Hp; rewrite Hp; lia.
  - simpl. destruct (mem p D) eqn:Em.
    + exfalso; apply mem_In in Em.
      apply (NoDup_app_disjoint _ _ Hnd p Em), in_concat.
      exists C; split; [eapply nth_error_In; eauto | exact Hp].
    + rewrite (IH (n + 1) i Hnd' Hi Hp); lia.
Qed.

Lemma label_from_inv (comps : list (list pos)) (n : Z) (p : pos) :
  label_from n comps p = 0
  \/ exists i C, nth_error comps i = Some C /\ In p C
                 /\ label_from n comps p = n + Z.of_nat i.
Proof.
  revert n; induction comps as [|D comps IH]; intros n; [now left|].
  simpl. destruct (mem p D) eqn:Em.
  - right; exists 0%nat, D; repeat split; [now apply mem_In | lia].
  - destruct (IH (n + 1)) as [H0|[i [C [Hi [Hp E]]]]]; [now left|].
    right; exists (S i), C; repeat split; auto. rewrite E; lia.
Qed.

Lemma count_occ_map_filter {A : Type} (f : A -> Z) (v : Z) (l : list A) :
  count_occ Z.eq_dec (map f l) v = length (filter (fun x => f x =? v) l).
Proof.
  induction l as [|x l IH]; [reflexivity|]; simpl.
  destruct (Z.eq_dec (f x) v) as [E|E].
  - apply Z.eqb_eq in E; rewrite E; simpl; now rewrite IH.
  - apply Z.eqb_neq in E; now rewrite E.
Qed.

(** The pixels that carry label [1 + i] are those of region [i]. *)
Lemma label_count (img : image) (i : nat) (C : list pos) :
  nth_error (components img) i = Some C ->
  py_count (1 + Z.of_nat i) (concat (skimage_label img))
  = Z.of_nat (length C).
Proof.
  intros Hi; unfold py_count; f_equal.
  rewrite skimage_label_flat, count_occ_map_filter.
  apply Permutation_length, NoDup_Permutation.
  - apply NoDup_filter, grid_NoDup.
  - eapply component_NoDup, nth_error_In; eauto.
  - intros x; rewrite filter_In, Z.eqb_eq; split.
    + intros [_ Hl].
      destruct (label_from_inv (components img) 1 x)
        as [H0|[j [D [Hj [Hx E]]]]]; [lia|].
      assert (j = i) by lia; subst j.
      rewrite Hi in Hj; now injection Hj as ->.
    + intros Hx; split.
      * apply nth_error_In in Hi.
        pose proof (components_foreground img C x Hi Hx) as Hf.
        apply foreground_In in Hf; apply grid_In; tauto.
      * exact (label_from_hit _ 1 i C x (components_NoDup img) Hi Hx).
Qed.

Lemma fold_right_max_le (l : list Z) (m : Z) :
  0 <= m -> (forall v, In v l -> v <= m) -> fold_right Z.max 0 l <= m.
Proof.
  intros Hm; induction l as [|x l IH]; intros H; simpl; [exact Hm|].
  apply Z.max_lub; [apply H; now left | apply IH; intros; apply H; now right].
Qed.

Lemma fold_right_max_ge (l : list Z) (v : Z) :
  In v l -> v <= fold_right Z.max 0 l.
Proof.
  induction l as [|x l IH]; intros H; [destruct H|]; simpl.
  destruct H as [->|H]; [lia | specialize (IH H); lia].
Qed.

Lemma fold_right_max_nonneg (l : list Z) : 0 <= fold_right Z.max 0 l.
Proof. induction l as [|x l IH]; simpl; lia. Qed.

Lemma label_from_bound (comps : list (list pos)) (n : Z) (p : pos) :
  0 < n -> label_from n comps p < n + Z.of_nat (length comps).
Proof.
  intros Hn.
  destruct (label_from_inv comps n p) as [->|[i [C [Hi [_ ->]]]]]; [lia|].
  assert (i < length comps)%nat by (apply nth_error_Some; congruence).
  lia.
Qed.

(** The largest label is the number of regions. *)
Lemma label_max_components (img : image) :
  label_max (skimage_label img) = Z.of_nat (length (components img)).
Proof.
  unfold label_max; rewrite skimage_label_flat.
  apply Z.le_antisymm.
  - apply fold_right_max_le; [lia|].
    intros v Hv; apply in_map_iff in Hv as [p [<- _]].
    pose proof (label_from_bound (components img) 1 p ltac:(lia)); lia.
  - destruct (components img) as [|C0 comps] eqn:E;
      [apply fold_right_max_nonneg|].
    rewrite <- E.
    assert (Hlast : exists C, nth_error (components img)
                                (length (components img) - 1) = Some C).
    { destruct (nth_error (components img) (length (components img) - 1))
        as [C|] eqn:En; [now exists C|].
      apply nth_error_None in En; rewrite E in En; simpl in En; lia. }
    destruct Hlast as [C HC].
    pose proof (nth_error_In _ _ HC) as HCin.
    destruct C as [|x C']; [now apply components_nonempty in HCin|].
    assert (Hx : In x (x :: C')) by now left.
    pose proof (components_foreground img _ x HCin Hx) as Hf.
    apply foreground_In in Hf.
    pose proof (label_from_hit _ 1 _ _ x (components_NoDup img) HC Hx) as Hl.
    replace (Z.of_nat (length (components img)))
      with (1 + Z.of_nat (length (components img) - 1))
      by (rewrite E; simpl length; lia).
    rewrite <- Hl; apply fold_right_max_ge, in_map, grid_In; tauto.
Qed.

Lemma map_nth_error_seq {A B : Type} (f : nat -> A -> B) (g : nat -> B)
      (l : list A) :
  (forall i x, nth_error l i = Some x -> g i = f i x) ->
  map g (seq 0 (length l)) = map (fun ix => f (fst ix) (snd ix))
                                 (combine (seq 0 (length l)) l).
Proof.
  intros H.
  assert (G : forall s, (forall i x, nth_error l i = Some x -> g (s + i)%nat
                                      = f (s + i)%nat x) ->
              map g (seq s (length l))
              = map (fun ix => f (fst ix) (snd ix))
                    (combine (seq s (length l)) l)).
  { clear H; induction l as [|x l IH]; intros s Hs; [reflexivity|].
    simpl; f_equal.
    - specialize (Hs 0%nat x eq_refl); now rewrite Nat.add_0_r in Hs.
    - apply IH; intros i y Hi.
      specialize (Hs (S i) y Hi); now rewrite Nat.add_succ_r in Hs. }
  apply (G 0%nat); exact H.
Qed.

(** [regionprops] on the labelled image yields the sizes of the
    regions, in label order. *)
Lemma regionprops_areas_components (img : image) :
  regionprops_areas (skimage_label img) = component_areas img.
Proof.
  unfold regionprops_areas, component_areas.
  rewrite label_max_components, Nat2Z.id.
  rewrite <- seq_shift, map_map.
  rewrite (map_nth_error_seq (fun _ C => Z.of_nat (length C))).
  - set (comps := components img).
    assert (Hne : forall C, In C comps -> C <> [])
      by (intros C; apply components_nonempty).
    clearbody comps; generalize 0%nat.
    induction comps as [|C comps IH]; intros s; [reflexivity|].
    simpl. destruct C as [|x C];
      [exfalso; apply (Hne []); [now left | reflexivity]|].
    replace (0 <? Z.of_nat (length (x :: C))) with true
      by (symmetry; apply Z.ltb_lt; simpl length; lia).
    f_equal; apply IH; intros; apply Hne; now right.
  - intros i C Hi.
    replace (Z.of_nat (S i)) with (1 + Z.of_nat i) by lia.
    now apply label_count.
Qed.

(** ** Sorting and the median *)

Lemma insert_perm (x : Z) (l : list Z) : Permutation (insert x l) (x :: l).
Proof.
  induction l as [|y l IH]; simpl; [reflexivity|].
  destruct (x <=? y); [reflexivity|].
  rewrite IH; apply perm_swap.
Qed.

Lemma isort_perm (l : list Z) : Permutation (isort l) l.
Proof.
  induction l as [|x l IH]; simpl; [reflexivity|].
  now rewrite insert_perm, IH.
Qed.

Lemma insert_sorted (x : Z) (l : list Z) :
  StronglySorted Z.le l -> StronglySorted Z.le (insert x l).
Proof.
  induction 1 as [|y l Hs IH Hy]; simpl; [repeat constructor|].
  destruct (x <=? y) eqn:E.
  - apply Z.leb_le in E; constructor; [now constructor|].
    constructor; [exact E|].
    eapply Forall_impl; [|exact Hy]; intros; lia.
  - apply Z.leb_gt in E; constructor; [exact IH|].
    apply (Permutation_Forall (Permutation_sym (insert_perm x l))).
    constructor; [lia | exact Hy].
Qed.

Lemma isort_sorted (l : list Z) : StronglySorted Z.le (isort l).
Proof.
  induction l as [|x l IH]; simpl; [constructor | now apply insert_sorted].
Qed.

Lemma count_le_perm (v : Z) (l l' : list Z) :
  Permutation l l' -> count_le v l = count_le v l'.
Proof.
  unfold count_le; induction 1 as [|x l l' _ IH|x y l|l l' l'' _ IH1 _ IH2];
    simpl; [reflexivity| | |congruence].
  - destruct (x <=? v); simpl; congruence.
  - destruct (x <=? v), (y <=? v); reflexivity.
Qed.

Lemma count_le_mono (v : Z) (l1 l2 : list Z) :
  Forall2 Z.le l1 l2 -> (count_le v l2 <= count_le v l1)%nat.
Proof.
  unfold count_le; induction 1 as [|x y l1 l2 Hxy _ IH]; simpl; [lia|].
  destruct (y <=? v) eqn:Ey.
  - apply Z.leb_le in Ey.
    replace (x <=? v) with true by (symmetry; apply Z.leb_le; lia).
    simpl; lia.
  - destruct (x <=? v); simpl; lia.
Qed.

(** In a sorted list more than [k] elements are at most the one of
    rank [k]. *)
Lemma sorted_rank_upper (s : list Z) (k : nat) :
  StronglySorted Z.le s -> (k < length s)%nat ->
  (k < count_le (nth k s 0%Z) s)%nat.
Proof.
  intros Hs; revert k; induction Hs as [|a s Hs IH Ha]; intros k Hk;
    [simpl in Hk; lia|].
  unfold count_le in *; destruct k as [|k]; simpl.
  - rewrite Z.leb_refl; simpl; lia.
  - simpl in Hk. assert (Hk' : (k < length s)%nat) by lia.
    specialize (IH k Hk').
    assert (Hle : a <= nth k s 0).
    { rewrite Forall_forall in Ha; apply Ha, nth_In; exact Hk'. }
    apply Z.leb_le in Hle; rewrite Hle; simpl; lia.
Qed.

(** If more than [k] elements of a sorted list are at most [v], so is
    the one of rank [k]. *)
Lemma sorted_rank_lower (s : list Z) (k : nat) (v : Z) :
  StronglySorted Z.le s -> (k < count_le v s)%nat -> nth k s 0 <= v.
Proof.
  intros Hs; revert k; induction Hs as [|a s Hs IH Ha]; intros k Hk;
    [unfold count_le in Hk; simpl in Hk; lia|].
  unfold count_le in *; simpl in Hk.
  destruct (a <=? v) eqn:E.
  - destruct k as [|k]; simpl; [now apply Z.leb_le|].
    apply IH; simpl in Hk; lia.
  - exfalso; apply Z.leb_gt in E.
    rewrite filter_nil in Hk; [simpl in Hk; lia|].
    intros x Hx; rewrite Forall_forall in Ha; specialize (Ha x Hx).
    apply Z.leb_gt; lia.
Qed.

(** The median is monotone in the window. *)
Lemma median_mono (w1 w2 : list Z) :
  Forall2 Z.le w1 w2 -> median w1 <= median w2.
Proof.
  intros H; unfold median.
  pose proof (Forall2_length H) as Hlen; rewrite <- Hlen.
  set (k := (length w1 / 2)%nat).
  destruct (Nat.eq_dec (length w1) 0) as [E1|E1].
  { assert (E2 : length w2 = 0%nat) by lia.
    apply length_zero_iff_nil in E1, E2; subst; simpl; lia. }
  assert (Hk : (k < length w1)%nat) by (subst k; apply Nat.div_lt; lia).
  apply sorted_rank_lower; [apply isort_sorted|].
  rewrite (count_le_perm _ _ _ (isort_perm w1)).
  eapply Nat.lt_le_trans; [|apply count_le_mono; exact H].
  rewrite <- (count_le_perm _ _ _ (isort_perm w2)).
  apply sorted_rank_upper; [apply isort_sorted|].
  now rewrite (Permutation_length (isort_perm w2)), <- Hlen.
Qed.

(** The median of a non-empty window is one of its elements. *)
Lemma median_In (w : list Z) : w <> [] -> In (median w) w.
Proof.
  intros Hw; unfold median.
  apply (Permutation_in _ (isort_perm w)), nth_In.
  rewrite (Permutation_length (isort_perm w)).
  apply Nat.div_lt; [destruct w; [congruence | simpl; lia] | lia].
Qed.

(** ** Pixels of mapped and tabulated images *)

Lemma pix_map_cases (f : Z -> Z) (img : image) (r c : nat) :
  pix (map (map f) img) r c
  = if (r <? length img)%nat && (c <? length (nth r img []))%nat
    then f (pix img r c) else 0.
Proof.
  destruct (Nat.ltb_spec r (length img)) as [Hr|Hr]; cbn [andb].
  - destruct (Nat.ltb_spec c (length (nth r img []))) as [Hc|Hc].
    + now apply pix_map.
    + unfold pix.
      rewrite nth_indep with (d' := map f []) by now rewrite length_map.
      rewrite map_nth, nth_overflow; [reflexivity | now rewrite length_map].
  - unfold pix; rewrite (nth_overflow (map (map f) img));
      [now destruct c | now rewrite length_map].
Qed.

Lemma nth_map_seq {A : Type} (g : nat -> A) (n i : nat) (d : A) :
  (i < n)%nat -> nth i (map g (seq 0 n)) d = g i.
Proof.
  intros Hi.
  rewrite nth_indep with (d' := g 0%nat) by now rewrite length_map, length_seq.
  now rewrite (map_nth g), seq_nth.
Qed.

Lemma pix_tabulate (f : nat -> nat -> Z) (H W r c : nat) :
  pix (map (fun r => map (fun c => f r c) (seq 0 W)) (seq 0 H)) r c
  = if (r <? H)%nat && (c <? W)%nat then f r c else 0.
Proof.
  unfold pix.
  destruct (Nat.ltb_spec r H) as [Hr|Hr]; cbn [andb].
  - rewrite nth_map_seq by exact Hr.
    destruct (Nat.ltb_spec c W) as [Hc|Hc].
    + now rewrite nth_map_seq.
    + apply nth_overflow; now rewrite length_map, length_seq.
  - rewrite (nth_overflow (map _ (seq 0 H)));
      [now destruct c | now rewrite length_map, length_seq].
Qed.

Lemma height_tabulate (f : nat -> nat -> Z) (H W : nat) :
  height (map (fun r => map (fun c => f r c) (seq 0 W)) (seq 0 H)) = H.
Proof. unfold height; now rewrite length_map, length_seq. Qed.

Lemma width_tabulate (f : nat -> nat -> Z) (H W : nat) :
  H <> 0%nat ->
  width (map (fun r => map (fun c => f r c) (seq 0 W)) (seq 0 H)) = W.
Proof.
  intros HH; unfold width; destruct H as [|H]; [congruence|].
  simpl; now rewrite length_map, length_seq.
Qed.

Lemma height_map (f : Z -> Z) (img : image) :
  height (map (map f) img) = height img.
Proof. unfold height; apply length_map. Qed.

Lemma width_map (f : Z -> Z) (img : image) :
  width (map (map f) img) = width img.
Proof.
  unfold width; destruct img as [|row img]; [reflexivity|].
  simpl; apply length_map.
Qed.

Lemma uint8_binary_id (v : Z) : v = 0 \/ v = 255 -> uint8 v = v.
Proof. intros [-> | ->]; reflexivity. Qed.

(** ** Thresholded images *)

Lemma binarize_pixel_binary (tau p : Z) :
  binarize_pixel tau p = 0 \/ binarize_pixel tau p = 255.
Proof. unfold binarize_pixel; destruct (tau <? p); auto. Qed.

Lemma binarize_pixel_antitone (tau1 tau2 p : Z) :
  tau1 <= tau2 -> binarize_pixel tau2 p <= binarize_pixel tau1 p.
Proof.
  intros H; unfold binarize_pixel.
  destruct (Z.ltb_spec tau2 p), (Z.ltb_spec tau1 p); lia.
Qed.

Lemma thresholded_binary (tau : Z) (img : image) :
  binary_image (map (map (binarize_pixel tau)) img).
Proof.
  intros r c; rewrite pix_map_cases.
  destruct (_ && _); [apply binarize_pixel_binary | now left].
Qed.

Lemma thresholded_le (tau1 tau2 : Z) (img : image) :
  tau1 <= tau2 ->
  image_le (map (map (binarize_pixel tau2)) img)
           (map (map (binarize_pixel tau1)) img).
Proof.
  intros Ht; unfold image_le; rewrite !height_map, !width_map.
  split; [reflexivity|]. split; [reflexivity|].
  intros r c; rewrite !pix_map_cases.
  destruct (_ && _); [now apply binarize_pixel_antitone | lia].
Qed.

(** ** The median filter *)

Lemma Forall2_map_same {A B C : Type} (R : B -> C -> Prop)
      (f : A -> B) (g : A -> C) (l : list A) :
  (forall x, In x l -> R (f x) (g x)) -> Forall2 R (map f l) (map g l).
Proof.
  induction l as [|x l IH]; intros H; simpl; constructor.
  - apply H; now left.
  - apply IH; intros; apply H; now right.
Qed.

Lemma Forall2_flat_map_same {A B C : Type} (R : B -> C -> Prop)
      (f : A -> list B) (g : A -> list C) (l : list A) :
  (forall x, In x l -> Forall2 R (f x) (g x)) ->
  Forall2 R (flat_map f l) (flat_map g l).
Proof.
  induction l as [|x l IH]; intros H; simpl; [constructor|].
  apply Forall2_app; [apply H; now left|].
  apply IH; intros; apply H; now right.
Qed.

Lemma window_le (A B : image) (k r c : nat) :
  image_le A B -> Forall2 Z.le (window A k r c) (window B k r c).
Proof.
  intros [Hh [Hw Hle]]; unfold window; rewrite Hh, Hw.
  apply Forall2_flat_map_same; intros dr _.
  apply Forall2_map_same; intros dc _; apply Hle.
Qed.

Lemma window_In (img : image) (k r c : nat) (v : Z) :
  In v (window img k r c) -> exists r' c', v = pix img r' c'.
Proof.
  unfold window; intros H.
  apply in_flat_map in H as [dr [_ H]].
  apply in_map_iff in H as [dc [<- _]]; eauto.
Qed.

Lemma window_nonempty (img : image) (k r c : nat) : window img k r c <> [].
Proof.
  unfold window, offsets.
  replace (2 * k + 1)%nat with (S (2 * k)) by lia; simpl; discriminate.
Qed.

Lemma median_window_binary (img : image) (k r c : nat) :
  binary_image img ->
  median (window img k r c) = 0 \/ median (window img k r c) = 255.
Proof.
  intros Hb.
  destruct (window_In img k r c _ (median_In _ (window_nonempty img k r c)))
    as [r' [c' ->]]; apply Hb.
Qed.

(** [cv2.medianBlur(img, 3)] followed by the store into the uint8
    array, as one tabulated image. *)
Lemma filter_image_eq (img : image) :
  (image_filtered <- cv2_medianBlur img 3 ;;
   Ok (map (map uint8) image_filtered))
  = if (height img =? 0)%nat || (width img =? 0)%nat then Raise Cv2Error
    else Ok (map (fun r => map (fun c => uint8 (median (window img 1 r c)))
                               (seq 0 (width img)))
                 (seq 0 (height img))).
Proof.
  unfold cv2_medianBlur.
  destruct ((height img =? 0)%nat || (width img =? 0)%nat); [reflexivity|].
  change (Z.rem 3 2 =? 1) with true; change (3 <=? 1) with false.
  change (Z.to_nat (3 / 2)) with 1%nat; cbn [negb bind].
  apply f_equal; rewrite map_map; apply map_ext; intros r.
  now rewrite map_map.
Qed.

Lemma filter_image_mono (A B FA : image) :
  image_below A B ->
  (image_filtered <- cv2_medianBlur A 3 ;;
   Ok (map (map uint8) image_filtered)) = Ok FA ->
  exists FB,
    (image_filtered <- cv2_medianBlur B 3 ;;
     Ok (map (map uint8) image_filtered)) = Ok FB
    /\ image_below FA FB.
Proof.
  intros [Hle [HbA HbB]]; pose proof Hle as [Hh [Hw Hpix]].
  rewrite !filter_image_eq, <- Hh, <- Hw.
  destruct ((height A =? 0)%nat || (width A =? 0)%nat) eqn:E; [discriminate|].
  intros [= <-]; eexists; split; [reflexivity|].
  apply orb_false_iff in E as [EH EW]; apply Nat.eqb_neq in EH.
  pose proof (pix_tabulate
    (fun r c => uint8 (median (window A 1 r c))) (height A) (width A)) as PA.
  pose proof (pix_tabulate
    (fun r c => uint8 (median (window B 1 r c))) (height A) (width A)) as PB.
  cbv beta in PA, PB.
  split; [|split].
  - split; [now rewrite !height_tabulate|].
    split; [now rewrite !width_tabulate|].
    intros r c; rewrite PA, PB.
    destruct (_ && _); [|lia].
    rewrite !uint8_binary_id by now apply median_window_binary.
    now apply median_mono, window_le.
  - intros r c; rewrite PA; destruct (_ && _); [|now left].
    rewrite uint8_binary_id; now apply median_window_binary.
  - intros r c; rewrite PB; destruct (_ && _); [|now left].
    rewrite uint8_binary_id; now apply median_window_binary.
Qed.

Lemma mapM_Forall2 {A B : Type} (R : A -> A -> Prop) (S : B -> B -> Prop)
      (f : A -> result B) (l1 l2 : list A) (o1 : list B) :
  (forall x y a, R x y -> f x = Ok a -> exists b, f y = Ok b /\ S a b) ->
  Forall2 R l1 l2 -> mapM f l1 = Ok o1 ->
  exists o2, mapM f l2 = Ok o2 /\ Forall2 S o1 o2.
Proof.
  intros Hf H; revert o1; induction H as [|x y l1 l2 Hxy _ IH]; intros o1 Ho.
  - injection Ho as <-; exists []; split; [reflexivity | constructor].
  - simpl in Ho.
    apply bind_Ok in Ho as [a [Ha Ho]].
    apply bind_Ok in Ho as [o1' [Ho1 Ho]]; injection Ho as <-.
    destruct (Hf x y a Hxy Ha) as [b [Hb Hab]].
    destruct (IH o1' Ho1) as [o2' [Ho2 Hall]].
    exists (b :: o2'); split; [|now constructor].
    simpl; now rewrite Hb, Ho2.
Qed.

(** The filtered batch at a stricter threshold lies below the one at a
    laxer threshold; if the first exists, so does the second. *)
Lemma denoised_at_mono (resmaps : batch) (tau1 tau2 : Z) (F2 : batch) :
  tau1 <= tau2 -> tau2 < 2 ^ 31 -> fits_double tau1 = true ->
  denoised_at resmaps tau2 = Ok F2 ->
  exists F1, denoised_at resmaps tau1 = Ok F1 /\ Forall2 image_below F2 F1.
Proof.
  intros Ht Hint Hfit; unfold denoised_at; intros H2.
  apply bind_Ok in H2 as [th2 [Hth2 H2]].
  destruct (threshold_images_Ok resmaps th2 tau2 Hth2) as [Hne [_ ->]].
  rewrite (threshold_images_eq resmaps tau1 Hfit Hne); cbn [bind].
  revert H2; unfold filter_median_images.
  apply mapM_Forall2 with (R := image_below).
  - intros A B FA HAB; now apply filter_image_mono.
  - apply Forall2_map_same; intros img _; split; [|split].
    + apply thresholded_le; now apply int_of_thresh_mono.
    + apply thresholded_binary.
    + apply thresholded_binary.
Qed.

(** ** Regions under a laxer threshold *)

Lemma foreground_below (A B : image) (p : pos) :
  image_below A B -> In p (foreground A) ->
  In p (foreground B) /\ at_pos A p = 255 /\ at_pos B p = 255.
Proof.
  intros [[Hh [Hw Hle]] [HbA HbB]] Hp.
  apply foreground_In in Hp as [Hr [Hc Hv]].
  unfold at_pos in *.
  specialize (Hle (fst p) (snd p)).
  destruct (HbA (fst p) (snd p)) as [E|E]; [contradiction|].
  destruct (HbB (fst p) (snd p)) as [E'|E']; [lia|].
  split; [|now split].
  apply foreground_In; unfold at_pos; rewrite <- Hh, <- Hw, E'.
  repeat split; auto; lia.
Qed.

(** Each region of the smaller foreground lies inside a region of the
    larger one. *)
Lemma components_mono (A B : image) (C2 : list pos) :
  image_below A B -> In C2 (components A) ->
  exists C1, In C1 (components B) /\ (length C2 <= length C1)%nat.
Proof.
  intros HAB HC2.
  destruct (components_spec A C2 HC2) as [[p [avail [Hp [Hsub [Hnd ->]]]]] _].
  destruct (foreground_below A B p HAB (Hsub p Hp)) as [HpB _].
  destruct (components_cover B p HpB) as [C1 [HC1 HpC1]].
  destruct (components_spec B C1 HC1) as [_ Hclosed].
  exists C1; split; [exact HC1|].
  apply NoDup_incl_length; [now apply region_of_NoDup|].
  intros x Hx; unfold region_of in Hx.
  apply (flood_least (connected A) (fun y => In y C1)) in Hx; [exact Hx| |].
  - intros s q Hs Hq Hconn.
    destruct (foreground_below A B q HAB (Hsub q Hq)) as [HqB [EqA EqB]].
    apply (Hclosed s q Hs HqB).
    unfold connected in *; apply andb_true_iff in Hconn as [Hn Hv].
    rewrite Hn; cbn [andb]; apply Z.eqb_eq in Hv; apply Z.eqb_eq.
    rewrite EqA in Hv; rewrite EqB.
    destruct HAB as [[_ [_ Hle]] [_ HbB]].
    specialize (Hle (fst s) (snd s)); unfold at_pos in *.
    destruct (HbB (fst s) (snd s)); lia.
  - intros s [<-|[]]; exact HpC1.
Qed.

Lemma batch_regions_mono (F2 F1 : batch) (C2 : list pos) :
  Forall2 image_below F2 F1 -> In C2 (batch_regions F2) ->
  exists C1, In C1 (batch_regions F1) /\ (length C2 <= length C1)%nat.
Proof.
  unfold batch_regions; induction 1 as [|A B F2 F1 HAB _ IH]; intros HC;
    [destruct HC|].
  simpl in HC; apply in_app_iff in HC as [HC|HC].
  - destruct (components_mono A B C2 HAB HC) as [C1 [H1 Hl]].
    exists C1; split; [simpl; apply in_app_iff; now left | exact Hl].
  - destruct (IH HC) as [C1 [H1 Hl]].
    exists C1; split; [simpl; apply in_app_iff; now right | exact Hl].
Qed.

(** ** get_max_area *)

Lemma fold_left_max_spec (xs : list Z) (x : Z) :
  In (fold_left Z.max xs x) (x :: xs)
  /\ forall y, In y (x :: xs) -> y <= fold_left Z.max xs x.
Proof.
  revert x; induction xs as [|z xs IH]; intros x; simpl.
  - split; [now left | intros y [->|[]]; lia].
  - destruct (IH (Z.max x z)) as [Hin Hmax]; split.
    + destruct Hin as [E|Hin]; [|now right; right].
      rewrite <- E; destruct (Z.max_spec x z) as [[_ ->]|[_ ->]]; auto.
    + pose proof (Hmax (Z.max x z) (or_introl eq_refl)) as Hm.
      intros y [E|[E|Hy]]; [subst y; lia | subst y; lia |].
      apply Hmax; now right.
Qed.

Lemma np_amax_spec (l : list Z) :
  (l = [] /\ np_amax l = Raise ValueError)
  \/ exists m, np_amax l = Ok m /\ In m l /\ forall y, In y l -> y <= m.
Proof.
  destruct l as [|x xs]; [left; now split | right].
  exists (fold_left Z.max xs x); split; [reflexivity|].
  apply fold_left_max_spec.
Qed.

Lemma areas_at_eq (resmaps : batch) (tau : Z) :
  areas_at resmaps tau
  = (fil <- denoised_at resmaps tau ;;
     Ok (map (fun C => Z.of_nat (length C)) (batch_regions fil))).
Proof.
  unfold areas_at, denoised_at.
  destruct (threshold_images resmaps tau) as [th|e]; [|reflexivity].
  cbn [bind].
  destruct (filter_median_images _ 3) as [fil|e]; [|reflexivity].
  cbn [bind label_images]; apply f_equal.
  unfold batch_regions; rewrite flat_map_concat_map, concat_map, map_map.
  apply f_equal, map_ext; intros img.
  apply regionprops_areas_components.
Qed.

Lemma get_max_area_areas_at (resmaps : batch) (tau : Z) :
  get_max_area resmaps tau
  = (areas_all_1d <- areas_at resmaps tau ;; np_amax areas_all_1d).
Proof.
  unfold get_max_area, areas_at.
  destruct (threshold_images resmaps tau) as [th|e]; [|reflexivity].
  cbn [bind].
  destruct (filter_median_images th 3) as [fil|e]; reflexivity.
Qed.

Lemma get_max_area_eq (resmaps : batch) (tau : Z) :
  get_max_area resmaps tau
  = (fil <- denoised_at resmaps tau ;;
     np_amax (map (fun C => Z.of_nat (length C)) (batch_regions fil))).
Proof.
  rewrite get_max_area_areas_at, areas_at_eq.
  now destruct (denoised_at resmaps tau).
Qed.

(** C4, as stated, fails: on a batch without any region the call raises
    ValueError ([np.amax] of an empty array); it does not return 0. *)
Lemma get_max_area_no_region_raises :
  areas_at [flat_image] 100 = Ok []
  /\ get_max_area [flat_image] 100 = Raise ValueError
  /\ get_max_area [flat_image] 100 <> Ok 0.
Proof.
  split; [vm_compute; reflexivity|].
  split; [vm_compute; reflexivity | vm_compute; discriminate].
Qed.

(** C4, amended.  When thresholding and median filtering the batch at
    [tau] leaves at least one region in some image, [get_max_area]
    returns the pixel count of a largest region of the batch; when no
    image has a region it raises ValueError. *)
Theorem get_max_area_largest_region
        (resmaps : batch) (tau : Z) (fil : batch) :
  denoised_at resmaps tau = Ok fil ->
  (batch_regions fil = [] -> get_max_area resmaps tau = Raise ValueError)
  /\ (batch_regions fil <> [] ->
      exists C, In C (batch_regions fil)
                /\ get_max_area resmaps tau = Ok (Z.of_nat (length C))
                /\ forall C', In C' (batch_regions fil) ->
                              (length C' <= length C)%nat).
Proof.
  intros Hfil; rewrite get_max_area_eq, Hfil; cbn [bind]; split.
  - intros ->; reflexivity.
  - intros Hne.
    destruct (np_amax_spec (map (fun C => Z.of_nat (length C))
                                (batch_regions fil)))
      as [[E _]|[m [Hm [Hin Hmax]]]].
    + apply map_eq_nil in E; contradiction.
    + apply in_map_iff in Hin as [C [<- HC]].
      exists C; split; [exact HC|]. split; [exact Hm|].
      intros C' HC'.
      assert (Z.of_nat (length C') <= Z.of_nat (length C)); [|lia].
      apply Hmax, in_map_iff; now exists C'.
Qed.

Lemma get_max_area_largest_region_witness :
  (batch_regions [blob_filtered] = [] ->
   get_max_area [blob_image] 8 = Raise ValueError)
  /\ (batch_regions [blob_filtered] <> [] ->
      exists C, In C (batch_regions [blob_filtered])
                /\ get_max_area [blob_image] 8 = Ok (Z.of_nat (length C))
                /\ forall C', In C' (batch_regions [blob_filtered]) ->
                              (length C' <= length C)%nat).
Proof.
  apply (get_max_area_largest_region [blob_image] 8 [blob_filtered]).
  vm_compute; reflexivity.
Defined.

(** C7, as stated, fails: beyond the range of a C int the threshold
    that OpenCV uses wraps to INT_MIN, every pixel is switched on and
    the largest area grows with the threshold; and at a threshold that
    leaves no region there is no largest area to compare. *)
Lemma get_max_area_grows_past_int32 :
  get_max_area [ring_image] 8 = Ok 5
  /\ get_max_area [ring_image] (2 ^ 31) = Ok 49
  /\ 8 <= 2 ^ 31
  /\ ~ (49 <= 5)
  /\ get_max_area [ring_image] 9 = Raise ValueError.
Proof.
  split; [vm_compute; reflexivity|].
  split; [vm_compute; reflexivity|].
  split; [vm_compute; discriminate|].
  split; [lia | vm_compute; reflexivity].
Qed.

(** C7, amended.  For thresholds [tau1 <= tau2] that fit a C int,
    whenever [get_max_area] returns at [tau2] it returns at [tau1] as
    well, with a value at least as large: the largest region area
    does not grow with the threshold. *)
Theorem get_max_area_monotone (resmaps : batch) (tau1 tau2 m2 : Z) :
  - 2 ^ 31 <= tau1 -> tau1 <= tau2 -> tau2 < 2 ^ 31 ->
  get_max_area resmaps tau2 = Ok m2 ->
  exists m1, get_max_area resmaps tau1 = Ok m1 /\ m2 <= m1.
Proof.
  intros Hlo Ht Hhi; rewrite !get_max_area_eq; intros H2.
  apply bind_Ok in H2 as [F2 [HF2 Hm2]].
  assert (Hfit : fits_double tau1 = true)
    by (apply int32_fits_double; unfold int32; lia).
  destruct (denoised_at_mono resmaps tau1 tau2 F2 Ht Hhi Hfit HF2)
    as [F1 [HF1 Hbelow]].
  rewrite HF1; cbn [bind].
  destruct (np_amax_spec (map (fun C => Z.of_nat (length C))
                              (batch_regions F2)))
    as [[_ E]|[m [Hm [Hin _]]]]; [congruence|].
  rewrite Hm in Hm2; injection Hm2 as ->.
  apply in_map_iff in Hin as [C2 [<- HC2]].
  destruct (batch_regions_mono F2 F1 C2 Hbelow HC2) as [C1 [HC1 Hlen]].
  destruct (np_amax_spec (map (fun C => Z.of_nat (length C))
                              (batch_regions F1)))
    as [[E _]|[m1 [Hm1 [_ Hmax]]]].
  - apply map_eq_nil in E; rewrite E in HC1; destruct HC1.
  - exists m1; split; [exact Hm1|].
    assert (Z.of_nat (length C1) <= m1)
      by (apply Hmax, in_map_iff; now exists C1).
    lia.
Qed.

Lemma get_max_area_monotone_witness :
  exists m1, get_max_area [ring_image] 4 = Ok m1 /\ 5 <= m1.
Proof.
  apply (get_max_area_monotone [ring_image] 4 8 5).
  - vm_compute; discriminate.
  - lia.
  - vm_compute; reflexivity.
  - vm_compute; reflexivity.
Defined.

(** ** Rationals *)

Lemma Qlt_bool_iff (x y : Q) : Qlt_bool x y = true <-> (x < y)%Q.
Proof.
  unfold Qlt_bool; rewrite negb_true_iff; split.
  - intros H; apply Qnot_le_lt; intros Hle.
    apply Qle_bool_iff in Hle; congruence.
  - intros H; apply not_true_is_false; intros Hle.
    apply Qle_bool_iff in Hle; now apply (Qlt_not_le x y).
Qed.

Lemma Qlt_bool_false (x y : Q) : Qlt_bool x y = false <-> (y <= x)%Q.
Proof.
  unfold Qlt_bool; rewrite negb_false_iff; apply Qle_bool_iff.
Qed.

Lemma Qle_bool_false (x y : Q) : Qle_bool x y = false <-> (y < x)%Q.
Proof.
  rewrite <- Qlt_bool_iff; unfold Qlt_bool.
  destruct (Qle_bool x y); simpl; split; congruence.
Qed.

Lemma Qtrunc_floor (q : Q) : (0 <= q)%Q -> Qtrunc q = Qfloor q.
Proof.
  destruct q as [n d]; unfold Qle, Qtrunc, Qfloor; simpl; intros H.
  apply Z.quot_div_nonneg; lia.
Qed.

(** ** linspace *)

Lemma linspace_length (lo hi : Q) (n : nat) :
  length (linspace lo hi n) = n.
Proof.
  destruct n as [|[|n]]; [reflexivity | reflexivity|].
  unfold linspace; rewrite length_app, length_map, length_seq; simpl; lia.
Qed.

Section Histogram.

Variables lo hi : Q.
Variable bins : Z.
Hypothesis lo_lt_hi : (lo < hi)%Q.
Hypothesis bins_pos : 1 <= bins.

Lemma bins_Q_pos : (0 < inject_Z bins)%Q.
Proof. change 0%Q with (inject_Z 0); rewrite <- Zlt_Qlt; lia. Qed.

Lemma bin_width_pos : (0 < bin_width lo hi bins)%Q.
Proof.
  unfold bin_width; apply Qlt_shift_div_l; [apply bins_Q_pos | lra].
Qed.

Lemma bin_width_total : (inject_Z bins * bin_width lo hi bins == hi - lo)%Q.
Proof.
  unfold bin_width; field. intros H.
  pose proof bins_Q_pos as Hp; rewrite H in Hp; now apply Qlt_irrefl in Hp.
Qed.

(** The edges are equally spaced from [lo] to [hi]. *)
Lemma edge_linspace (j : Z) :
  0 <= j <= bins ->
  (edge (equal_bin_edges lo hi bins) j
   == lo + inject_Z j * bin_width lo hi bins)%Q.
Proof.
  intros Hj; unfold edge, equal_bin_edges.
  replace (Z.to_nat bins + 1)%nat with (S (Z.to_nat bins)) by lia.
  destruct (Z.to_nat bins) as [|d] eqn:Ed; [lia|].
  assert (Hb : bins = Z.of_nat (S d)) by lia.
  change (linspace lo hi (S (S d)))
    with (map (fun i => (inject_Z (Z.of_nat i)
                         * ((hi - lo) / inject_Z (Z.of_nat (S d))) + lo)%Q)
              (seq 0 (S d)) ++ [hi]).
  rewrite <- Hb; fold (bin_width lo hi bins).
  destruct (Z.eq_dec j bins) as [->|Hne].
  - rewrite app_nth2; rewrite length_map, length_seq; [|lia].
    replace (Z.to_nat bins - S d)%nat with 0%nat by lia; cbn [nth].
    pose proof bin_width_total; lra.
  - rewrite app_nth1 by (rewrite length_map, length_seq; lia).
    rewrite nth_map_seq by lia.
    rewrite !Z2Nat.id by lia. ring.
Qed.

Lemma edges_length :
  length (equal_bin_edges lo hi bins) = S (Z.to_nat bins).
Proof. unfold equal_bin_edges; rewrite linspace_length; lia. Qed.

(** The index numpy computes for a kept value is the bin that holds
    it; neither repair changes it. *)
Lemma bin_index_spec (x : Q) :
  (lo <= x)%Q -> (x <= hi)%Q ->
  let k := bin_index (equal_bin_edges lo hi bins) lo hi bins x in
  0 <= k < bins
  /\ (edge (equal_bin_edges lo hi bins) k <= x)%Q
  /\ ((x < edge (equal_bin_edges lo hi bins) (k + 1))%Q
      \/ (k = bins - 1
          /\ (x <= edge (equal_bin_edges lo hi bins) (k + 1))%Q)).
Proof.
  intros Hlo Hhi; unfold bin_index.
  set (f := ((x - lo) / (hi - lo) * inject_Z bins)%Q).
  pose proof bin_width_pos as Hw. pose proof bin_width_total as Hwt.
  pose proof bins_Q_pos as Hb.
  assert (Hf : (f * bin_width lo hi bins == x - lo)%Q).
  { unfold f, bin_width; field; split; [|lra].
    intros H; rewrite H in Hb; now apply Qlt_irrefl in Hb. }
  assert (Hf0 : (0 <= f)%Q) by nra.
  assert (Hfb : (f <= inject_Z bins)%Q) by nra.
  rewrite (Qtrunc_floor f Hf0).
  pose proof (Qfloor_le f) as Hfl. pose proof (Qlt_floor f) as Hfu.
  rewrite inject_Z_plus in Hfu; change (inject_Z 1) with 1%Q in Hfu.
  set (i0 := Qfloor f) in *.
  assert (Hi0 : 0 <= i0 <= bins).
  { split.
    - assert (H : (inject_Z (-1) < inject_Z i0)%Q)
        by (change (inject_Z (-1)) with (-1)%Q; lra).
      rewrite <- Zlt_Qlt in H; lia.
    - assert (H : (inject_Z i0 <= inject_Z bins)%Q) by lra.
      rewrite <- Zle_Qle in H; exact H. }
  assert (Hlow : (inject_Z i0 * bin_width lo hi bins
                  <= f * bin_width lo hi bins)%Q)
    by (apply Qmult_le_compat_r; lra).
  assert (Hupp : (f * bin_width lo hi bins
                  < (inject_Z i0 + 1) * bin_width lo hi bins)%Q)
    by (apply Qmult_lt_compat_r; lra).
  destruct (Z.eqb_spec i0 bins) as [Ei|Ei].
  - (* the value is the right end of the range *)
    assert (He : (edge (equal_bin_edges lo hi bins) (i0 - 1) <= x)%Q).
    { rewrite edge_linspace by lia.
      unfold Z.sub; rewrite inject_Z_plus, inject_Z_opp.
      change (inject_Z 1) with 1%Q; clearbody i0 f; lra. }
    apply Qlt_bool_false in He; rewrite He.
    replace (i0 - 1 =? bins - 1) with true by (symmetry; apply Z.eqb_eq; lia).
    rewrite andb_false_r; cbv zeta.
    split; [lia|]. split; [now apply Qlt_bool_false|].
    right; split; [lia|].
    replace (i0 - 1 + 1) with bins by lia.
    rewrite edge_linspace by lia; clearbody i0 f; lra.
  - assert (He : (edge (equal_bin_edges lo hi bins) i0 <= x)%Q).
    { rewrite edge_linspace by lia; clearbody i0 f; lra. }
    assert (Hn : (x < edge (equal_bin_edges lo hi bins) (i0 + 1))%Q).
    { rewrite edge_linspace by lia.
      rewrite inject_Z_plus; change (inject_Z 1) with 1%Q.
      clearbody i0 f; lra. }
    pose proof He as He'; apply Qlt_bool_false in He'; rewrite He'.
    pose proof Hn as Hn'; apply Qle_bool_false in Hn'; rewrite Hn'.
    cbn [andb]; cbv zeta.
    split; [lia|]. split; [exact He | now left].
Qed.

(** The bins are disjoint. *)
Lemma bin_unique (x : Q) (k k' : Z) :
  0 <= k < bins -> 0 <= k' < bins ->
  (edge (equal_bin_edges lo hi bins) k <= x)%Q ->
  ((x < edge (equal_bin_edges lo hi bins) (k + 1))%Q
   \/ (k = bins - 1 /\ (x <= edge (equal_bin_edges lo hi bins) (k + 1))%Q)) ->
  (edge (equal_bin_edges lo hi bins) k' <= x)%Q ->
  ((x < edge (equal_bin_edges lo hi bins) (k' + 1))%Q
   \/ (k' = bins - 1
       /\ (x <= edge (equal_bin_edges lo hi bins) (k' + 1))%Q)) ->
  k = k'.
Proof.
  intros Hk Hk'.
  rewrite !edge_linspace by lia.
  rewrite !inject_Z_plus; change (inject_Z 1) with 1%Q.
  pose proof bin_width_pos as Hw.
  intros H1 H2 H3 H4.
  assert (Hlt : forall a b : Z,
             (inject_Z a * bin_width lo hi bins
              < (inject_Z b + 1) * bin_width lo hi bins)%Q -> a <= b).
  { intros a b H.
    assert (H' : (inject_Z a < inject_Z (b + 1))%Q)
      by (rewrite inject_Z_plus; change (inject_Z 1) with 1%Q; nra).
    rewrite <- Zlt_Qlt in H'; lia. }
  destruct H2 as [H2|[-> H2]], H4 as [H4|[-> H4]]; try lia.
  - apply Z.le_antisymm; apply Hlt; lra.
  - assert (bins - 1 <= k) by (apply Hlt; lra); lia.
  - assert (bins - 1 <= k') by (apply Hlt; lra); lia.
Qed.

Lemma in_bin_iff (k a : Z) :
  in_bin (equal_bin_edges lo hi bins) bins k a = true
  <-> (edge (equal_bin_edges lo hi bins) k <= inject_Z a)%Q
      /\ ((inject_Z a < edge (equal_bin_edges lo hi bins) (k + 1))%Q
          \/ (k = bins - 1
              /\ (inject_Z a
                  <= edge (equal_bin_edges lo hi bins) (k + 1))%Q)).
Proof.
  unfold in_bin.
  rewrite andb_true_iff, orb_true_iff, andb_true_iff, Z.eqb_eq,
    !Qle_bool_iff, Qlt_bool_iff; tauto.
Qed.

Lemma in_bin_in_range (k a : Z) :
  0 <= k < bins ->
  in_bin (equal_bin_edges lo hi bins) bins k a = true ->
  (lo <= inject_Z a)%Q /\ (inject_Z a <= hi)%Q.
Proof.
  intros Hk H; apply in_bin_iff in H as [H1 H2].
  rewrite edge_linspace in H1 by lia.
  pose proof bin_width_pos as Hw. pose proof bin_width_total as Hwt.
  assert (H0 : (0 <= inject_Z k)%Q)
    by (change 0%Q with (inject_Z 0); rewrite <- Zle_Qle; lia).
  assert (Hk1 : (inject_Z (k + 1) <= inject_Z bins)%Q)
    by (rewrite <- Zle_Qle; lia).
  split; [nra|].
  assert (H3 : (inject_Z a
                <= edge (equal_bin_edges lo hi bins) (k + 1))%Q).
  { destruct H2 as [H2|[_ H2]]; [now apply Qlt_le_weak | exact H2]. }
  rewrite edge_linspace in H3 by lia. nra.
Qed.

(** A value lies in bin [k] exactly when it is kept and numpy's index
    for it is [k]. *)
Lemma in_bin_bin_index (k a : Z) :
  0 <= k < bins ->
  in_bin (equal_bin_edges lo hi bins) bins k a
  = Qle_bool lo (inject_Z a) && Qle_bool (inject_Z a) hi
    && (bin_index (equal_bin_edges lo hi bins) lo hi bins (inject_Z a) =? k).
Proof.
  intros Hk; apply eq_true_iff_eq.
  rewrite !andb_true_iff, !Qle_bool_iff, Z.eqb_eq; split.
  - intros H; pose proof (in_bin_in_range k a Hk H) as [Hlo Hhi].
    split; [now split|].
    destruct (bin_index_spec (inject_Z a) Hlo Hhi) as [Hr [He Hn]].
    apply in_bin_iff in H as [H1 H2].
    exact (bin_unique (inject_Z a) _ k Hr Hk He Hn H1 H2).
  - intros [[Hlo Hhi] <-]; apply in_bin_iff.
    exact (proj2 (bin_index_spec (inject_Z a) Hlo Hhi)).
Qed.

End Histogram.

(** ** bincount and diff *)

Lemma filter_all {A : Type} (f : A -> bool) (l : list A) :
  (forall x, In x l -> f x = true) -> filter f l = l.
Proof.
  induction l as [|x l IH]; intros H; [reflexivity|]; simpl.
  rewrite (H x (or_introl eq_refl)); f_equal.
  apply IH; intros; apply H; now right.
Qed.

Lemma filter_map_length {A B : Type} (g : A -> B) (P : B -> bool)
      (l : list A) :
  length (filter P (map g l)) = length (filter (fun a => P (g a)) l).
Proof.
  induction l as [|a l IH]; [reflexivity|]; simpl.
  destruct (P (g a)); simpl; now rewrite IH.
Qed.

Lemma filter_filter_map {A B : Type} (g : A -> B) (P1 P2 : B -> bool)
      (l : list A) :
  length (filter P2 (filter P1 (map g l)))
  = length (filter (fun a => P1 (g a) && P2 (g a)) l).
Proof.
  induction l as [|a l IH]; [reflexivity|]; simpl.
  destruct (P1 (g a)); simpl; [|exact IH].
  destruct (P2 (g a)); simpl; now rewrite IH.
Qed.

Lemma count_window_step (l : list Z) (s n : nat) :
  length (filter (fun i => (Z.of_nat s <=? i) && (i <? Z.of_nat (s + S n))) l)
  = (count_occ Z.eq_dec l (Z.of_nat s)
     + length (filter (fun i => ((Z.of_nat (S s) <=? i)%Z
                                 && (i <? Z.of_nat (S s + n))%Z)%bool) l))%nat.
Proof.
  induction l as [|i l IH]; [reflexivity|]; cbn [filter count_occ].
  destruct (Z.eq_dec i (Z.of_nat s)) as [->|Hne].
  - destruct (Z.eq_dec (Z.of_nat s) (Z.of_nat s)) as [_|Hn]; [|congruence].
    replace (Z.of_nat s <=? Z.of_nat s) with true
      by (symmetry; apply Z.leb_le; lia).
    replace (Z.of_nat s <? Z.of_nat (s + S n)) with true
      by (symmetry; apply Z.ltb_lt; lia).
    replace (Z.of_nat (S s) <=? Z.of_nat s) with false
      by (symmetry; apply Z.leb_gt; lia).
    cbn [andb length]; rewrite IH; lia.
  - destruct (Z.eq_dec i (Z.of_nat s)) as [|_]; [congruence|].
    destruct (Z.leb_spec (Z.of_nat s) i), (Z.leb_spec (Z.of_nat (S s)) i),
      (Z.ltb_spec i (Z.of_nat (s + S n))), (Z.ltb_spec i (Z.of_nat (S s + n)));
      cbn [andb length]; rewrite ?IH; try reflexivity; lia.
Qed.

(** The counts of [bincount] add up to the number of indices in range. *)
Lemma np_sum_bincount (l : list Z) (s n : nat) :
  np_sum (map (fun k => py_count (Z.of_nat k) l) (seq s n))
  = Z.of_nat (length (filter (fun i => (Z.of_nat s <=? i)
                                       && (i <? Z.of_nat (s + n))) l)).
Proof.
  revert s; induction n as [|n IH]; intros s.
  - simpl; rewrite filter_nil; [reflexivity|].
    intros i _; destruct (Z.leb_spec (Z.of_nat s) i),
      (Z.ltb_spec i (Z.of_nat (s + 0))); simpl; try reflexivity; lia.
  - cbn [seq map np_sum fold_right].
    change (fold_right Z.add 0 ?x) with (np_sum x).
    rewrite IH, count_window_step; unfold py_count; lia.
Qed.

Lemma diff_length (l : list Q) : length (diff l) = (length l - 1)%nat.
Proof.
  induction l as [|x [|y l] IH]; [reflexivity | reflexivity|].
  change (diff (x :: y :: l)) with ((y - x)%Q :: diff (y :: l)).
  simpl length in *; lia.
Qed.

Lemma nth_diff (l : list Q) (k : nat) :
  (S k < length l)%nat ->
  nth k (diff l) 0%Q = (nth (S k) l 0 - nth k l 0)%Q.
Proof.
  revert k; induction l as [|x [|y l] IH]; intros k Hk;
    [simpl in Hk; lia | simpl in Hk; lia|].
  change (diff (x :: y :: l)) with ((y - x)%Q :: diff (y :: l)).
  destruct k as [|k]; [reflexivity|].
  cbn [nth]; apply IH; simpl in *; lia.
Qed.

(** ** np.histogram *)

Lemma kept_bin_count (lo hi : Q) (bins k : Z) (a : list Z) :
  (lo < hi)%Q -> 1 <= bins -> 0 <= k < bins ->
  py_count k (kept_indices lo hi bins a)
  = count_in_bin (equal_bin_edges lo hi bins) bins k a.
Proof.
  intros Hlt Hb Hk; unfold py_count, count_in_bin, kept_indices; f_equal.
  rewrite count_occ_map_filter, filter_filter_map.
  f_equal; apply filter_ext; intros x.
  now rewrite (in_bin_bin_index lo hi bins Hlt Hb k x Hk).
Qed.

Lemma kept_indices_range (lo hi : Q) (bins i : Z) (a : list Z) :
  (lo < hi)%Q -> 1 <= bins ->
  In i (kept_indices lo hi bins a) -> 0 <= i < bins.
Proof.
  intros Hlt Hb Hi; unfold kept_indices in Hi.
  apply in_map_iff in Hi as [x [<- Hx]].
  apply filter_In in Hx as [_ Hx].
  apply andb_true_iff in Hx as [H1 H2]; apply Qle_bool_iff in H1, H2.
  exact (proj1 (bin_index_spec lo hi bins Hlt Hb x H1 H2)).
Qed.

Lemma kept_total (lo hi : Q) (bins : Z) (a : list Z) :
  (lo < hi)%Q -> 1 <= bins ->
  np_sum (bincount (kept_indices lo hi bins a) (Z.to_nat bins))
  = count_in_range lo hi a.
Proof.
  intros Hlt Hb; unfold bincount; rewrite np_sum_bincount.
  unfold count_in_range; f_equal.
  rewrite filter_all.
  - unfold kept_indices; rewrite length_map.
    apply (filter_map_length inject_Z
             (fun x => Qle_bool lo x && Qle_bool x hi)).
  - intros i Hi; apply (kept_indices_range lo hi bins i a Hlt Hb) in Hi.
    apply andb_true_iff; split; [apply Z.leb_le | apply Z.ltb_lt]; lia.
Qed.

(** The bins partition the values inside the range. *)
Lemma count_in_bin_total (lo hi : Q) (bins : Z) (a : list Z) :
  (lo < hi)%Q -> 1 <= bins ->
  np_sum (map (fun k => count_in_bin (equal_bin_edges lo hi bins) bins
                                     (Z.of_nat k) a)
              (seq 0 (Z.to_nat bins)))
  = count_in_range lo hi a.
Proof.
  intros Hlt Hb; rewrite <- (kept_total lo hi bins a Hlt Hb).
  unfold bincount; f_equal; apply map_ext_in; intros k Hk.
  apply in_seq in Hk; symmetry; apply kept_bin_count; auto; lia.
Qed.

(** With [bins >= 1] and [lo < hi], [np.histogram] returns the
    equal-width edges over [lo, hi] and, for each bin, the density of
    the values that fall in it. *)
Lemma np_histogram_spec (a : list Z) (bins : Z) (lo hi : Q) :
  1 <= bins -> (lo < hi)%Q ->
  exists hist,
    np_histogram a bins (lo, hi) = Ok (hist, equal_bin_edges lo hi bins)
    /\ length hist = Z.to_nat bins
    /\ forall k, 0 <= k < bins ->
         nth (Z.to_nat k) hist NaN
         = density_entry (equal_bin_edges lo hi bins) bins k lo hi a.
Proof.
  intros Hb Hlt; unfold np_histogram; cbn [fst snd].
  replace (bins <? 1) with false by (symmetry; apply Z.ltb_ge; lia).
  replace (Qlt_bool hi lo) with false
    by (symmetry; apply Qlt_bool_false; lra).
  replace (Qeq_bool lo hi) with false.
  2:{ symmetry; apply not_true_is_false; intros H.
      apply Qeq_bool_iff in H; lra. }
  fold (equal_bin_edges lo hi bins); fold (kept_indices lo hi bins a).
  set (E := equal_bin_edges lo hi bins).
  set (n := bincount (kept_indices lo hi bins a) (Z.to_nat bins)).
  assert (Hn : length n = Z.to_nat bins)
    by (unfold n, bincount; now rewrite length_map, length_seq).
  assert (Hd : length (diff E) = Z.to_nat bins).
  { rewrite diff_length; unfold E; rewrite edges_length; lia. }
  eexists; split; [reflexivity|].
  split; [rewrite length_map, length_combine, Hn, Hd; lia|].
  intros k Hk.
  assert (Hkn : (Z.to_nat k < Z.to_nat bins)%nat) by lia.
  rewrite nth_indep with (d' := (fun nd => np_fdiv
      (np_fdiv (Fin (inject_Z (fst nd))) (Fin (snd nd)))
      (Fin (inject_Z (np_sum n)))) (0, 0%Q))
    by (rewrite length_map, length_combine, Hn, Hd; lia).
  rewrite (map_nth (fun nd => np_fdiv
      (np_fdiv (Fin (inject_Z (fst nd))) (Fin (snd nd)))
      (Fin (inject_Z (np_sum n))))).
  rewrite combine_nth by lia; cbn [fst snd].
  unfold density_entry; fold E.
  assert (Hcount : nth (Z.to_nat k) n 0 = count_in_bin E bins k a).
  { unfold n, bincount; rewrite nth_map_seq by exact Hkn.
    rewrite Z2Nat.id by lia. now apply kept_bin_count. }
  assert (Hwidth : nth (Z.to_nat k) (diff E) 0%Q
                   = (edge E (k + 1) - edge E k)%Q).
  { rewrite nth_diff by (unfold E; rewrite edges_length; lia).
    unfold edge; now replace (Z.to_nat (k + 1)) with (S (Z.to_nat k)) by lia. }
  assert (Htotal : np_sum n = count_in_range lo hi a)
    by now apply kept_total.
  now rewrite Hcount, Hwidth, Htotal.
Qed.

(** The width of every bin is the common width. *)
Lemma bin_edges_step (lo hi : Q) (bins k : Z) :
  1 <= bins -> 0 <= k < bins ->
  (edge (equal_bin_edges lo hi bins) (k + 1)
   - edge (equal_bin_edges lo hi bins) k == bin_width lo hi bins)%Q.
Proof.
  intros Hb Hk; rewrite !edge_linspace by lia.
  rewrite inject_Z_plus; change (inject_Z 1) with 1%Q; ring.
Qed.

(** A density entry is a finite quotient when some value lies inside
    the range, and nan (numpy's [0 / 0]) when none does. *)
Lemma density_entry_value (lo hi : Q) (bins k : Z) (a : list Z) :
  (lo < hi)%Q -> 1 <= bins -> 0 <= k < bins ->
  let E := equal_bin_edges lo hi bins in
  (0 < count_in_range lo hi a ->
   density_entry E bins k lo hi a
   = Fin (inject_Z (count_in_bin E bins k a)
          / (edge E (k + 1) - edge E k)
          / inject_Z (count_in_range lo hi a)))
  /\ (count_in_range lo hi a = 0 ->
      density_entry E bins k lo hi a = NaN).
Proof.
  intros Hlt Hb Hk E; unfold density_entry; fold E.
  pose proof (bin_edges_step lo hi bins k Hb Hk) as Hstep; fold E in Hstep.
  pose proof (bin_width_pos lo hi bins Hlt Hb) as Hw.
  assert (Hwne : Qeq_bool (edge E (k + 1) - edge E k) 0 = false).
  { apply not_true_is_false; intros H; apply Qeq_bool_iff in H.
    rewrite Hstep in H; rewrite H in Hw; now apply Qlt_irrefl in Hw. }
  cbn [np_fdiv]; rewrite Hwne; split.
  - intros Hpos.
    assert (Htne : Qeq_bool (inject_Z (count_in_range lo hi a)) 0 = false).
    { apply not_true_is_false; intros H; apply Qeq_bool_iff in H.
      change 0%Q with (inject_Z 0) in H.
      apply (proj1 (inject_Z_injective _ _)) in H.
      rewrite H in Hpos; now apply Z.lt_irrefl in Hpos. }
    cbn [np_fdiv]; now rewrite Htne.
  - intros Hzero; rewrite Hzero.
    assert (Hk0 : count_in_bin E bins k a = 0).
    { unfold count_in_bin, count_in_range in *.
      rewrite filter_nil; [reflexivity|].
      intros x Hx; apply not_true_is_false; intros Hin.
      apply (in_bin_in_range lo hi bins Hlt Hb k x Hk) in Hin as [H1 H2].
      assert (Hf : In x (filter (fun a => Qle_bool lo (inject_Z a)
                                   && Qle_bool (inject_Z a) hi) a)).
      { apply filter_In; split; [exact Hx|].
        apply andb_true_iff; split; now apply Qle_bool_iff. }
      destruct (filter _ a); [destruct Hf | simpl in Hzero; lia]. }
    rewrite Hk0; cbn [np_fdiv].
    change (Qeq_bool (inject_Z 0) 0) with true; cbv iota.
    replace (Qeq_bool (inject_Z 0 / (edge E (k + 1) - edge E k)) 0)
      with true; [reflexivity|].
    symmetry; apply Qeq_bool_iff.
    unfold Qdiv; change (inject_Z 0) with 0%Q; ring.
Qed.

(** ** The sweep over thresholds *)

Lemma set_row_length {A : Type} (i : nat) (row : A) (m : list A) :
  length (set_row i row m) = length m.
Proof.
  revert i; induction m as [|x m IH]; intros [|i]; simpl; auto.
Qed.

Lemma set_row_same {A : Type} (i : nat) (row d : A) (m : list A) :
  (i < length m)%nat -> nth i (set_row i row m) d = row.
Proof.
  revert i; induction m as [|x m IH]; intros [|i] Hi; simpl in *;
    try lia; [reflexivity | apply IH; lia].
Qed.

Lemma set_row_other {A : Type} (i j : nat) (row d : A) (m : list A) :
  i <> j -> nth j (set_row i row m) d = nth j m d.
Proof.
  revert i j; induction m as [|x m IH]; intros [|i] [|j] Hij; simpl;
    try reflexivity; try congruence.
  apply IH; congruence.
Qed.

(** Whether thresholding and filtering succeed depends on the shape of
    the images only. *)
Lemma denoised_at_returns (resmaps : batch) (tau0 tau : Z) (F0 : batch) :
  fits_double tau = true ->
  denoised_at resmaps tau0 = Ok F0 ->
  exists F, denoised_at resmaps tau = Ok F.
Proof.
  intros Hfit; unfold denoised_at; intros H0.
  apply bind_Ok in H0 as [th0 [Hth0 H0]].
  destruct (threshold_images_Ok resmaps th0 tau0 Hth0) as [Hne [_ ->]].
  rewrite (threshold_images_eq resmaps tau Hfit Hne); cbn [bind].
  revert H0; unfold filter_median_images; intros H0.
  destruct (mapM_Forall2
              (fun A B : image => height A = height B /\ width A = width B)
              (fun _ _ : image => True)
              (fun img => image_filtered <- cv2_medianBlur img 3 ;;
                          Ok (map (map uint8) image_filtered))
              (map (fun img => map (map (binarize_pixel (int_of_thresh tau0)))
                                   img) resmaps)
              (map (fun img => map (map (binarize_pixel (int_of_thresh tau)))
                                   img) resmaps)
              F0) as [F [HF _]]; [| |exact H0|now exists F].
  - intros A B FA [Hh Hw]; rewrite !filter_image_eq, Hh, Hw.
    destruct (_ || _); [discriminate|]; intros _; eauto.
  - apply Forall2_map_same; intros img _.
    now rewrite !height_map, !width_map.
Qed.

Lemma areas_at_returns (resmaps : batch) (tau0 tau M : Z) :
  fits_double tau = true ->
  get_max_area resmaps tau0 = Ok M ->
  exists areas, areas_at resmaps tau = Ok areas.
Proof.
  intros Hfit; rewrite get_max_area_eq; intros H.
  apply bind_Ok in H as [F0 [HF0 _]].
  destruct (denoised_at_returns resmaps tau0 tau F0 Hfit HF0) as [F HF].
  rewrite areas_at_eq, HF; cbn [bind]; eauto.
Qed.

(** A call of [get_max_area] that returns had a threshold that
    converts to a double. *)
Lemma get_max_area_fits (resmaps : batch) (tau M : Z) :
  get_max_area resmaps tau = Ok M -> fits_double tau = true.
Proof.
  rewrite get_max_area_eq; unfold denoised_at; intros H.
  apply bind_Ok in H as [F [HF HM]].
  apply bind_Ok in HF as [th [Hth HF]].
  destruct (threshold_images_Ok resmaps th tau Hth) as [_ [Hfit ->]].
  destruct resmaps as [|img rest]; [|apply Hfit; discriminate].
  cbn [map filter_median_images mapM] in HF; injection HF as <-.
  discriminate HM.
Qed.

(** A region has at least one pixel. *)
Lemma get_max_area_pos (resmaps : batch) (tau M : Z) :
  get_max_area resmaps tau = Ok M -> 1 <= M.
Proof.
  rewrite get_max_area_eq; intros H.
  apply bind_Ok in H as [F [_ HM]].
  destruct (np_amax_spec (map (fun C => Z.of_nat (length C))
                              (batch_regions F)))
    as [[_ E]|[m [Hm [Hin _]]]]; [congruence|].
  rewrite Hm in HM; injection HM as ->.
  apply in_map_iff in Hin as [C [<- HC]].
  apply in_flat_map in HC as [img [_ HC]].
  apply components_nonempty in HC.
  destruct C; [congruence | simpl length; lia].
Qed.

(** No area at a threshold of the sweep exceeds the largest area at the
    minimum threshold: the range of the histogram holds all of them. *)
Lemma areas_within_range (resmaps : batch) (th_min tau M : Z)
      (areas : list Z) :
  th_min <= tau -> tau < 2 ^ 31 ->
  get_max_area resmaps th_min = Ok M ->
  areas_at resmaps tau = Ok areas ->
  forall a, In a areas -> 1 <= a <= M.
Proof.
  intros Ht Hint HM Ha a Hin.
  rewrite areas_at_eq in Ha; apply bind_Ok in Ha as [F2 [HF2 Ha]].
  injection Ha as <-.
  apply in_map_iff in Hin as [C2 [<- HC2]].
  destruct (denoised_at_mono resmaps th_min tau F2 Ht Hint
              (get_max_area_fits resmaps th_min M HM) HF2)
    as [F1 [HF1 Hbelow]].
  destruct (batch_regions_mono F2 F1 C2 Hbelow HC2) as [C1 [HC1 Hlen]].
  rewrite get_max_area_eq, HF1 in HM; cbn [bind] in HM.
  destruct (np_amax_spec (map (fun C => Z.of_nat (length C))
                              (batch_regions F1)))
    as [[_ E]|[m [Hm [_ Hmax]]]]; [congruence|].
  rewrite Hm in HM; injection HM as ->.
  assert (Z.of_nat (length C1) <= M)
    by (apply Hmax, in_map_iff; now exists C1).
  apply in_flat_map in HC2 as [img [_ HC2]].
  apply components_nonempty in HC2.
  destruct C2; [congruence | simpl length in *; lia].
Qed.

Lemma count_in_range_all (lo hi : Q) (areas : list Z) :
  (forall a, In a areas -> (lo <= inject_Z a)%Q /\ (inject_Z a <= hi)%Q) ->
  count_in_range lo hi areas = Z.of_nat (length areas).
Proof.
  intros H; unfold count_in_range; rewrite filter_all; [reflexivity|].
  intros a Ha; destruct (H a Ha) as [H1 H2].
  apply andb_true_iff; split; now apply Qle_bool_iff.
Qed.

Lemma sweep_loop_cons (resmaps : batch) (nbins : Z) (range_area : Q * Q)
      (i : nat) (threshold : Z) (rest : list (nat * Z))
      (counts : list (list npfloat)) (edges : option (list Q)) :
  sweep_loop resmaps nbins range_area ((i, threshold) :: rest) counts edges
  = (areas <- areas_at resmaps threshold ;;
     h <- np_histogram areas nbins range_area ;;
     sweep_loop resmaps nbins range_area rest
                (set_row i (fst h) counts) (Some (snd h))).
Proof.
  cbn [sweep_loop]; unfold areas_at.
  destruct (threshold_images resmaps threshold) as [th|e]; [|reflexivity].
  cbn [bind].
  destruct (filter_median_images th 3) as [fil|e]; [|reflexivity].
  cbn [bind label_images].
  destruct (np_histogram _ nbins range_area) as [[count edges']|e];
    reflexivity.
Qed.

Lemma sweep_loop_spec (resmaps : batch) (nbins : Z) (lo hi : Q) :
  1 <= nbins -> (lo < hi)%Q ->
  forall (ths : list Z) (s : nat) (counts : list (list npfloat))
         (edges : option (list Q)),
    (forall tau, In tau ths -> exists areas, areas_at resmaps tau = Ok areas) ->
    (s + length ths <= length counts)%nat ->
    exists counts',
      sweep_loop resmaps nbins (lo, hi) (combine (seq s (length ths)) ths)
                 counts edges
      = Ok (counts', match ths with
                     | [] => edges
                     | _ => Some (equal_bin_edges lo hi nbins)
                     end)
      /\ length counts' = length counts
      /\ (forall j, (j < s)%nat -> nth j counts' [] = nth j counts [])
      /\ forall i, (i < length ths)%nat ->
           exists areas,
             areas_at resmaps (nth i ths 0) = Ok areas
             /\ forall k, 0 <= k < nbins ->
                  nth (Z.to_nat k) (nth (s + i) counts' []) NaN
                  = density_entry (equal_bin_edges lo hi nbins) nbins k
                                  lo hi areas.
Proof.
  intros Hb Hlt; induction ths as [|t ths IH];
    intros s counts edges Hall Hlen.
  - exists counts; simpl; repeat split; auto; intros i Hi; lia.
  - cbn [length seq combine]; rewrite sweep_loop_cons.
    destruct (Hall t (or_introl eq_refl)) as [areas Hareas].
    rewrite Hareas; cbn [bind].
    destruct (np_histogram_spec areas nbins lo hi Hb Hlt)
      as [hist [Hhist [Hhl Hent]]].
    rewrite Hhist; cbn [bind fst snd].
    simpl length in Hlen.
    destruct (IH (S s) (set_row s hist counts)
                 (Some (equal_bin_edges lo hi nbins)))
      as [counts' [Hrun [Hl [Hkeep Hrows]]]].
    { intros tau Htau; apply Hall; now right. }
    { rewrite set_row_length; lia. }
    exists counts'; split.
    { rewrite Hrun; destruct ths; reflexivity. }
    split; [now rewrite Hl, set_row_length|].
    split.
    + intros j Hj; rewrite Hkeep by lia.
      apply set_row_other; lia.
    + intros [|i] Hi.
      * exists areas; split; [exact Hareas|]; intros k Hk.
        rewrite Nat.add_0_r, Hkeep by lia.
        rewrite set_row_same by lia. now apply Hent.
      * destruct (Hrows i ltac:(simpl in Hi; lia)) as [ar [Har Hk]].
        exists ar; split; [exact Har|].
        intros k Hk'; rewrite Nat.add_succ_r; now apply Hk.
Qed.

Lemma np_arange_nth (a b : Z) (i : nat) :
  (Z.of_nat i < b - a) -> nth i (np_arange a b) 0 = a + Z.of_nat i.
Proof.
  intros Hi; unfold np_arange.
  apply (nth_map_seq (fun i => a + Z.of_nat i)); lia.
Qed.

Lemma np_arange_length (a b : Z) : length (np_arange a b) = Z.to_nat (b - a).
Proof. unfold np_arange; now rewrite length_map, length_seq. Qed.



(* ================================================================== *)
(** * Further properties *)

(** ** Generic list facts *)

Lemma mapM_Ok_Forall2 {A B : Type} (f : A -> result B) (l : list A)
      (out : list B) :
  mapM f l = Ok out -> Forall2 (fun a b => f a = Ok b) l out.
Proof.
  revert out; induction l as [|x xs IH]; intros out H; cbn [mapM] in H.
  - injection H as <-; constructor.
  - destruct (f x) as [y|e] eqn:Hx; cbn [bind] in H; [|discriminate].
    destruct (mapM f xs) as [ys|e] eqn:Hxs; cbn [bind] in H; [|discriminate].
    injection H as <-; constructor; [exact Hx | now apply IH].
Qed.

Lemma Forall2_nth_rel {A B : Type} (R : A -> B -> Prop) (l1 : list A)
      (l2 : list B) (i : nat) (d1 : A) (d2 : B) :
  Forall2 R l1 l2 -> (i < length l1)%nat -> R (nth i l1 d1) (nth i l2 d2).
Proof.
  intros H; revert i; induction H as [|x y l1 l2 Hxy _ IH]; intros i Hi.
  - cbn [length] in Hi; lia.
  - destruct i as [|i]; cbn [nth]; [exact Hxy|].
    apply IH; cbn [length] in Hi; lia.
Qed.

(** ** threshold_images: shape, values and dependence on the threshold *)

Lemma same_shape_map (f : Z -> Z) (img : image) :
  same_shape img (map (map f) img).
Proof.
  split; [now rewrite height_map | now rewrite width_map].
Qed.

Lemma thresholded_bytes (tau : Z) (img : image) :
  byte_image (map (map (binarize_pixel tau)) img).
Proof.
  unfold byte_image; rewrite Forall_forall; intros row Hrow.
  apply in_map_iff in Hrow as [row0 [<- _]].
  rewrite Forall_forall; intros v Hv.
  apply in_map_iff in Hv as [p [<- _]].
  unfold is_byte; destruct (binarize_pixel_binary tau p) as [-> | ->]; lia.
Qed.

(** X1. On a batch whose images have at least one row and one
    column, and for a threshold that fits a C int, [threshold_images]
    returns a batch of the same length whose images have the shape of
    the inputs and hold only the values 0 and 255 (so they fit
    uint8), whatever the input values are. *)
Theorem threshold_images_shape_values (images : batch) (tau : Z) :
  Forall nonempty_image images -> int32 tau ->
  exists out,
    threshold_images images tau = Ok out
    /\ Forall2 same_shape images out
    /\ Forall binary_image out
    /\ byte_batch out.
Proof.
  intros Hne Ht.
  rewrite (threshold_images_eq images tau (int32_fits_double tau Ht) Hne).
  eexists; split; [reflexivity|].
  split; [|split].
  - rewrite <- (map_id images) at 1.
    apply Forall2_map_same; intros img _; apply same_shape_map.
  - rewrite Forall_forall; intros o Ho.
    apply in_map_iff in Ho as [img [<- _]]; apply thresholded_binary.
  - unfold byte_batch; rewrite Forall_forall; intros o Ho.
    apply in_map_iff in Ho as [img [<- _]]; apply thresholded_bytes.
Qed.

Lemma int32_small (t : Z) : -1000 <= t <= 1000 -> int32 t.
Proof. unfold int32; change (2 ^ 31) with 2147483648; lia. Qed.

Lemma threshold_images_shape_values_witness :
  exists out,
    threshold_images small_batch 100 = Ok out
    /\ Forall2 same_shape small_batch out
    /\ Forall binary_image out
    /\ byte_batch out.
Proof.
  apply (threshold_images_shape_values small_batch 100).
  - repeat constructor; vm_compute; discriminate.
  - apply int32_small; lia.
Defined.

(** X2. Within the range of a C int, raising the threshold can only
    switch pixels off: on a batch of images with at least one row and
    one column, the result of [threshold_images] at the larger
    threshold is pixelwise at most the result at the smaller one,
    image by image. *)
Theorem threshold_images_antitone (images : batch) (tau1 tau2 : Z) :
  Forall nonempty_image images ->
  - 2 ^ 31 <= tau1 -> tau1 <= tau2 -> tau2 < 2 ^ 31 ->
  exists out1 out2,
    threshold_images images tau1 = Ok out1
    /\ threshold_images images tau2 = Ok out2
    /\ Forall2 image_le out2 out1.
Proof.
  intros Hne Hlo Hle Hhi.
  assert (H1 : int32 tau1) by (unfold int32; lia).
  assert (H2 : int32 tau2) by (unfold int32; lia).
  rewrite (threshold_images_eq images tau1 (int32_fits_double _ H1) Hne).
  rewrite (threshold_images_eq images tau2 (int32_fits_double _ H2) Hne).
  rewrite (int32_int_of_thresh _ H1), (int32_int_of_thresh _ H2).
  eexists; eexists; split; [reflexivity|]; split; [reflexivity|].
  apply Forall2_map_same; intros img _; now apply thresholded_le.
Qed.

Lemma threshold_images_antitone_witness :
  exists out1 out2,
    threshold_images small_batch 50 = Ok out1
    /\ threshold_images small_batch 100 = Ok out2
    /\ Forall2 image_le out2 out1.
Proof.
  apply (threshold_images_antitone small_batch 50 100).
  - repeat constructor; vm_compute; discriminate.
  - vm_compute; discriminate.
  - lia.
  - vm_compute; reflexivity.
Defined.

(** ** filter_median_images: kernel sizes *)

(** X3. On a batch that is not empty, [filter_median_images] raises
    the OpenCV error for every kernel size that is not odd (an even
    size, or a negative one); an empty batch is returned as it is
    whatever the kernel size. *)
Theorem filter_median_images_kernel_not_odd (images : batch) (k : Z) :
  Z.rem k 2 <> 1 ->
  filter_median_images [] k = Ok []
  /\ (images <> [] -> filter_median_images images k = Raise Cv2Error).
Proof.
  intros Hk; split; [reflexivity|].
  intros Hne; destruct images as [|img rest]; [congruence|].
  unfold filter_median_images; cbn [mapM].
  unfold cv2_medianBlur.
  destruct ((height img =? 0)%nat || (width img =? 0)%nat); [reflexivity|].
  replace (Z.rem k 2 =? 1) with false
    by (symmetry; apply Z.eqb_neq; exact Hk).
  reflexivity.
Qed.

Lemma filter_median_images_kernel_not_odd_witness :
  filter_median_images [] 4 = Ok []
  /\ ([blob_image] <> [] -> filter_median_images [blob_image] 4 = Raise Cv2Error).
Proof.
  apply (filter_median_images_kernel_not_odd [blob_image] 4).
  vm_compute; discriminate.
Defined.

Lemma uint8_byte_id (v : Z) : is_byte v -> uint8 v = v.
Proof.
  unfold is_byte, uint8; intros H; apply Z.mod_small; lia.
Qed.

Lemma uint8_image_id (img : image) :
  byte_image img -> map (map uint8) img = img.
Proof.
  unfold byte_image; intros H.
  rewrite <- (map_id img) at 2; apply map_ext_in; intros row Hrow.
  rewrite Forall_forall in H; specialize (H row Hrow).
  rewrite <- (map_id row) at 2; apply map_ext_in; intros v Hv.
  rewrite Forall_forall in H; now apply uint8_byte_id, H.
Qed.

(** X4. With kernel size 1 the median filter is the identity on
    uint8 data: a batch of non-empty byte images is returned
    unchanged. *)
Theorem filter_median_images_kernel_1 (images : batch) :
  byte_batch images ->
  Forall (fun img => height img <> 0%nat /\ width img <> 0%nat) images ->
  filter_median_images images 1 = Ok images.
Proof.
  unfold filter_median_images, byte_batch.
  induction images as [|img rest IH]; intros Hb Hne; [reflexivity|].
  inversion Hb as [|? ? Hb1 Hb2]; subst.
  inversion Hne as [|? ? [Hh Hw] Hne2]; subst.
  cbn [mapM]; rewrite (IH Hb2 Hne2); unfold cv2_medianBlur.
  apply Nat.eqb_neq in Hh; apply Nat.eqb_neq in Hw; rewrite Hh, Hw.
  cbn [orb negb bind].
  change (Z.rem 1 2 =? 1) with true; cbn [negb].
  change (1 <=? 1) with true; cbn [bind].
  now rewrite uint8_image_id.
Qed.

Lemma filter_median_images_kernel_1_witness :
  filter_median_images small_batch 1 = Ok small_batch.
Proof.
  apply (filter_median_images_kernel_1 small_batch).
  - repeat constructor; unfold is_byte; lia.
  - repeat constructor; vm_compute; discriminate.
Defined.

(** ** filter_median_images: shape and values *)

Lemma pix_default_row (img : image) (r c : nat) :
  (length img <= r)%nat -> pix img r c = 0.
Proof.
  intros H; unfold pix; rewrite (nth_overflow img [] H).
  now destruct c.
Qed.

Lemma pix_default_col (img : image) (r c : nat) :
  (length (nth r img []) <= c)%nat -> pix img r c = 0.
Proof.
  intros H; unfold pix; now apply nth_overflow.
Qed.

Lemma pix_uint8 (img : image) (r c : nat) :
  pix (map (map uint8) img) r c = uint8 (pix img r c).
Proof.
  rewrite pix_map_cases.
  destruct (r <? length img)%nat eqn:Hr; cbn [andb].
  - destruct (c <? length (nth r img []))%nat eqn:Hc; [reflexivity|].
    apply Nat.ltb_ge in Hc; now rewrite pix_default_col.
  - apply Nat.ltb_ge in Hr; now rewrite pix_default_row.
Qed.

Lemma pix_byte (img : image) (r c : nat) :
  byte_image img -> is_byte (pix img r c).
Proof.
  unfold byte_image, pix; intros H.
  destruct (nth_in_or_default r img []) as [Hr | ->].
  - rewrite Forall_forall in H; specialize (H _ Hr).
    destruct (nth_in_or_default c (nth r img []) 0) as [Hc | ->].
    + rewrite Forall_forall in H; now apply H.
    + unfold is_byte; lia.
  - destruct c; unfold is_byte; cbn [nth]; lia.
Qed.

Lemma clamp_lt (i : Z) (n : nat) : n <> 0%nat -> (clamp i n < n)%nat.
Proof.
  unfold clamp; intros Hn; lia.
Qed.

Lemma window_In_frame (img : image) (k r c : nat) (v : Z) :
  height img <> 0%nat -> width img <> 0%nat ->
  In v (window img k r c) ->
  exists r' c', (r' < height img)%nat /\ (c' < width img)%nat
                /\ v = pix img r' c'.
Proof.
  intros Hh Hw Hv; unfold window in Hv.
  apply in_flat_map in Hv as [dr [_ Hv]].
  apply in_map_iff in Hv as [dc [<- _]].
  eexists; eexists; split; [|split; [|reflexivity]]; now apply clamp_lt.
Qed.

Lemma cv2_medianBlur_values (img F : image) (k : Z) :
  cv2_medianBlur img k = Ok F -> same_shape img F /\ values_from img F.
Proof.
  unfold cv2_medianBlur.
  destruct (height img =? 0)%nat eqn:Hh; cbn [orb]; [discriminate|].
  destruct (width img =? 0)%nat eqn:Hw; [discriminate|].
  apply Nat.eqb_neq in Hh; apply Nat.eqb_neq in Hw.
  destruct (negb (Z.rem k 2 =? 1)); [discriminate|].
  destruct (k <=? 1).
  - intros H; injection H as <-; split; [now split|].
    intros r c Hr Hc; now exists r, c.
  - intros H; injection H as <-; split.
    + split; [now rewrite height_tabulate | now rewrite width_tabulate].
    + intros r c Hr Hc; rewrite pix_tabulate.
      apply Nat.ltb_lt in Hr; apply Nat.ltb_lt in Hc; rewrite Hr, Hc.
      cbn [andb].
      apply (window_In_frame img (Z.to_nat (k / 2)) r c); [assumption..|].
      apply median_In; apply window_nonempty.
Qed.

Lemma filter_image_values (img out : image) (k : Z) :
  byte_image img ->
  (image_filtered <- cv2_medianBlur img k ;;
   Ok (map (map uint8) image_filtered)) = Ok out ->
  same_shape img out /\ values_from img out.
Proof.
  intros Hb H; apply bind_Ok in H as [F [HF H]]; injection H as <-.
  destruct (cv2_medianBlur_values _ _ _ HF) as [[Hh Hw] Hv]; split.
  - split; [now rewrite height_map | now rewrite width_map].
  - intros r c Hr Hc; destruct (Hv r c Hr Hc) as [r' [c' [Hr' [Hc' E]]]].
    exists r', c'; split; [assumption|]; split; [assumption|].
    rewrite pix_uint8, E; apply uint8_byte_id, pix_byte, Hb.
Qed.

(** X5. The median filter keeps the shape of every image and invents
    no grey value: when [filter_median_images] returns on a uint8
    batch, each output image has the height and width of its input,
    and each of its pixels carries the value of some pixel of that
    input. *)
Theorem filter_median_images_shape_values
        (images out : batch) (k : Z) :
  byte_batch images ->
  filter_median_images images k = Ok out ->
  Forall2 (fun A B => same_shape A B /\ values_from A B) images out.
Proof.
  intros Hb H; apply mapM_Ok_Forall2 in H.
  unfold byte_batch in Hb; induction H as [|A B l1 l2 HAB _ IH];
    constructor.
  - inversion Hb; subst; now apply (filter_image_values A B k).
  - inversion Hb; subst; now apply IH.
Qed.

Lemma filter_median_images_shape_values_witness :
  Forall2 (fun A B => same_shape A B /\ values_from A B)
          [blob_image]
          [[[0; 0; 0; 0; 0; 0];
            [0; 0; 9; 0; 0; 0];
            [0; 9; 9; 9; 0; 0];
            [0; 0; 9; 0; 0; 0];
            [0; 0; 0; 0; 0; 0]]].
Proof.
  apply (filter_median_images_shape_values [blob_image] _ 3).
  - repeat constructor; unfold is_byte; lia.
  - vm_compute; reflexivity.
Defined.

(** ** filter_median_images: the majority rule on binary images *)

Lemma binary_counts (w : list Z) :
  (forall v, In v w -> v = 0 \/ v = 255) ->
  (count_le 0 w + count_fg w = length w)%nat.
Proof.
  unfold count_le, count_fg; induction w as [|x xs IH]; intros H;
    [reflexivity|].
  assert (IH' := IH (fun v Hv => H v (or_intror Hv))).
  cbn [filter length].
  destruct (H x (or_introl eq_refl)) as [-> | ->].
  - change (0 <=? 0) with true; change (0 =? 255) with false.
    cbn [length]; lia.
  - change (255 <=? 0) with false; change (255 =? 255) with true.
    cbn [length]; lia.
Qed.

Lemma median_majority (w : list Z) :
  length w = 9%nat ->
  (forall v, In v w -> v = 0 \/ v = 255) ->
  (median w = 255 <-> (5 <= count_fg w)%nat).
Proof.
  intros Hlen Hbin.
  pose proof (binary_counts w Hbin) as Hcnt.
  pose proof (isort_sorted w) as Hs.
  pose proof (isort_perm w) as Hp.
  assert (Hl : length (isort w) = 9%nat)
    by now rewrite (Permutation_length Hp).
  assert (Hm : median w = nth 4 (isort w) 0)
    by (unfold median; now rewrite Hlen).
  assert (Hin : In (median w) w).
  { apply median_In; intros ->; discriminate. }
  rewrite <- (count_le_perm 0 _ _ Hp) in Hcnt.
  split.
  - intros H255.
    pose proof (sorted_rank_lower (isort w) 4 0 Hs) as Hlow.
    destruct (Nat.le_gt_cases 5 (count_fg w)) as [|Hfew]; [assumption|].
    assert (H4 : (4 < count_le 0 (isort w))%nat) by lia.
    specialize (Hlow H4); rewrite <- Hm, H255 in Hlow; lia.
  - intros Hmany.
    destruct (Hbin _ Hin) as [H0 | H255]; [|assumption].
    pose proof (sorted_rank_upper (isort w) 4 Hs ltac:(lia)) as Hup.
    rewrite <- Hm, H0 in Hup; lia.
Qed.

Lemma window_1_length (img : image) (r c : nat) :
  length (window img 1 r c) = 9%nat.
Proof. reflexivity. Qed.

Lemma window_binary (img : image) (k r c : nat) (v : Z) :
  binary_image img -> In v (window img k r c) -> v = 0 \/ v = 255.
Proof.
  intros Hb Hv; apply window_In in Hv as [r' [c' ->]]; apply Hb.
Qed.

(** X6. On binary images the 3x3 median filter is a majority vote:
    when [filter_median_images] with kernel size 3 returns, a pixel
    of an output image is 255 exactly when at least five of the nine
    pixels of its neighbourhood (borders replicated) are 255 in the
    input image, and 0 otherwise. *)
Theorem filter_median_images_majority
        (images out : batch) (i r c : nat) :
  Forall binary_image images ->
  filter_median_images images 3 = Ok out ->
  (i < length images)%nat ->
  (r < height (nth i images []))%nat ->
  (c < width (nth i images []))%nat ->
  (pix (nth i out []) r c = 255
   <-> (5 <= count_fg (window (nth i images []) 1 r c))%nat)
  /\ (pix (nth i out []) r c = 0
      <-> (count_fg (window (nth i images []) 1 r c) <= 4)%nat).
Proof.
  intros Hbin H Hi Hr Hc.
  apply mapM_Ok_Forall2 in H.
  pose proof (Forall2_nth_rel _ _ _ i [] [] H Hi) as Hpair.
  cbv beta in Hpair; rewrite filter_image_eq in Hpair.
  set (img := nth i images []) in *.
  assert (Hb : binary_image img).
  { rewrite Forall_forall in Hbin; apply Hbin, nth_In, Hi. }
  change (nth i images []) with img in Hpair.
  set (o := nth i out []) in *.
  change (nth i out []) with o in Hpair; clearbody o.
  revert Hpair.
  destruct ((height img =? 0)%nat || (width img =? 0)%nat);
    [discriminate|].
  intros Hpair; injection Hpair as Hout; rewrite <- Hout, pix_tabulate.
  apply Nat.ltb_lt in Hr; apply Nat.ltb_lt in Hc; rewrite Hr, Hc.
  cbn [andb].
  pose proof (median_window_binary img 1 r c Hb) as Hmed.
  pose proof (median_majority (window img 1 r c) (window_1_length img r c)
                (fun v => window_binary img 1 r c v Hb)) as Hmaj.
  rewrite (uint8_binary_id _ Hmed).
  split; [exact Hmaj|].
  destruct Hmed as [H0 | H255]; split; intros H'.
  - destruct (Nat.le_gt_cases (count_fg (window img 1 r c)) 4)
      as [|Hgt]; [assumption|].
    apply Hmaj in Hgt; congruence.
  - exact H0.
  - congruence.
  - apply Hmaj in H255; lia.
Qed.

Lemma filter_median_images_majority_witness :
  (pix (nth 0 [[[0; 0; 0; 0; 0];
                [0; 0; 0; 255; 255];
                [0; 0; 0; 255; 255];
                [0; 0; 0; 0; 0]]] []) 1 3 = 255
   <-> (5 <= count_fg (window (nth 0 [speck_image] []) 1 1 3))%nat)
  /\ (pix (nth 0 [[[0; 0; 0; 0; 0];
                   [0; 0; 0; 255; 255];
                   [0; 0; 0; 255; 255];
                   [0; 0; 0; 0; 0]]] []) 1 3 = 0
      <-> (count_fg (window (nth 0 [speck_image] []) 1 1 3) <= 4)%nat).
Proof.
  apply (filter_median_images_majority [speck_image] _ 0 1 3).
  - constructor; [|constructor].
    intros r c.
    do 5 (destruct r as [|r]; [do 6 (destruct c as [|c];
      [vm_compute; auto|]); vm_compute; auto|]).
    vm_compute; destruct c; auto.
  - vm_compute; reflexivity.
  - cbn [length]; lia.
  - vm_compute; lia.
  - vm_compute; lia.
Defined.

(** ** label_images: areas and labels *)

Lemma nth_map_default {A B : Type} (f : A -> B) (l : list A) (i : nat)
      (d : A) (d' : B) :
  (i < length l)%nat -> nth i (map f l) d' = f (nth i l d).
Proof.
  intros Hi; rewrite (nth_indep (map f l) d' (f d)).
  - apply map_nth.
  - now rewrite length_map.
Qed.

Lemma image_areas_eq (images : batch) (i : nat) :
  (i < length images)%nat ->
  image_areas images i = component_areas (nth i images []).
Proof.
  intros Hi; unfold image_areas, label_images; cbn [snd].
  rewrite (nth_map_default _ images i [] [] Hi).
  apply regionprops_areas_components.
Qed.

Lemma labeled_image_eq (images : batch) (i : nat) :
  (i < length images)%nat ->
  labeled_image images i = skimage_label (nth i images []).
Proof.
  intros Hi; unfold labeled_image, label_images; cbn [fst].
  apply (nth_map_default skimage_label images i [] [] Hi).
Qed.

Lemma np_sum_lengths (cs : list (list pos)) :
  np_sum (map (fun C => Z.of_nat (length C)) cs)
  = Z.of_nat (length (concat cs)).
Proof.
  induction cs as [|C cs IH]; [reflexivity|].
  cbn [map np_sum fold_right concat]; rewrite length_app.
  unfold np_sum in IH; rewrite IH; lia.
Qed.

Lemma components_partition (img : image) :
  Permutation (concat (components img)) (foreground img).
Proof.
  apply NoDup_Permutation;
    [apply components_NoDup | apply foreground_NoDup |].
  intros p; split.
  - intros Hp; apply in_concat in Hp as [C [HC Hp]].
    now apply (components_foreground img C).
  - intros Hp; destruct (components_cover img p Hp) as [C [HC HpC]].
    apply in_concat; now exists C.
Qed.

(** X7. The regions that [label_images] reports for an image
    partition its non-zero pixels: there is one list of areas per
    image, every area is at least 1, and the areas of an image add up
    to the number of its non-zero pixels. *)
Theorem label_images_areas_partition (images : batch) (i : nat) :
  (i < length images)%nat ->
  length (snd (label_images images)) = length images
  /\ Forall (fun a => 1 <= a) (image_areas images i)
  /\ np_sum (image_areas images i)
     = Z.of_nat (length (foreground (nth i images []))).
Proof.
  intros Hi; split; [unfold label_images; cbn [snd]; apply length_map|].
  rewrite (image_areas_eq images i Hi); unfold component_areas; split.
  - rewrite Forall_forall; intros a Ha.
    apply in_map_iff in Ha as [C [<- HC]].
    apply components_nonempty in HC.
    destruct C; [congruence | cbn [length]; lia].
  - rewrite np_sum_lengths.
    now rewrite (Permutation_length (components_partition _)).
Qed.

Lemma label_images_areas_partition_witness :
  length (snd (label_images [ring_image])) = length [ring_image]
  /\ Forall (fun a => 1 <= a) (image_areas [ring_image] 0)
  /\ np_sum (image_areas [ring_image] 0)
     = Z.of_nat (length (foreground (nth 0 [ring_image] []))).
Proof.
  apply (label_images_areas_partition [ring_image] 0); cbn [length]; lia.
Defined.

Lemma skimage_label_at (img : image) (p : pos) :
  In p (grid img) ->
  at_pos (skimage_label img) p = label_from 1 (components img) p.
Proof.
  intros Hp; apply grid_In in Hp as [Hr Hc].
  unfold at_pos, skimage_label; rewrite pix_tabulate.
  apply Nat.ltb_lt in Hr; apply Nat.ltb_lt in Hc; rewrite Hr, Hc.
  now destruct p.
Qed.

Lemma label_of_foreground (img : image) (p : pos) :
  In p (foreground img) ->
  exists i C, nth_error (components img) i = Some C /\ In p C
              /\ label_from 1 (components img) p = 1 + Z.of_nat i.
Proof.
  intros Hp; destruct (components_cover img p Hp) as [C [HC HpC]].
  apply In_nth_error in HC as [i Hi]; exists i, C.
  split; [assumption|]; split; [assumption|].
  now apply (label_from_hit (components img) 1 i C p (components_NoDup img)).
Qed.

Lemma label_zero_iff (img : image) (p : pos) :
  In p (grid img) ->
  (label_from 1 (components img) p = 0 <-> at_pos img p = 0).
Proof.
  intros Hg; split.
  - intros H0; destruct (Z.eq_dec (at_pos img p) 0) as [|Hnz];
      [assumption|].
    assert (Hp : In p (foreground img)).
    { apply grid_In in Hg; apply foreground_In; tauto. }
    destruct (label_of_foreground img p Hp) as [i [C [_ [_ E]]]]; lia.
  - intros H0.
    destruct (label_from_inv (components img) 1 p)
      as [|[i [C [Hi [HpC _]]]]]; [assumption|].
    apply nth_error_In in Hi.
    apply (components_foreground img C p Hi) in HpC.
    apply foreground_In in HpC; tauto.
Qed.

Lemma nth_error_NoDup_concat (cs : list (list pos)) (i j : nat)
      (C D : list pos) (p : pos) :
  NoDup (concat cs) ->
  nth_error cs i = Some C -> nth_error cs j = Some D ->
  In p C -> In p D -> i = j.
Proof.
  intros Hnd Hi Hj HpC HpD.
  pose proof (label_from_hit cs 1 i C p Hnd Hi HpC) as E1.
  pose proof (label_from_hit cs 1 j D p Hnd Hj HpD) as E2.
  lia.
Qed.

Lemma label_same_iff (img : image) (p q : pos) :
  In p (foreground img) -> In q (foreground img) ->
  (label_from 1 (components img) p = label_from 1 (components img) q
   <-> reachable img p q).
Proof.
  intros Hp Hq.
  destruct (label_of_foreground img p Hp) as [i [C [Hi [HpC Ep]]]].
  destruct (label_of_foreground img q Hq) as [j [D [Hj [HqD Eq]]]].
  pose proof (nth_error_In _ _ Hi) as HC.
  split.
  - intros E; assert (i = j) by lia; subst j.
    assert (C = D) by congruence; subst D.
    now apply (components_are_classes img C p q HC HpC).
  - intros Hreach.
    apply (components_are_classes img C p q HC HpC) in Hreach.
    rewrite Ep.
    now rewrite (label_from_hit (components img) 1 i C q
                   (components_NoDup img) Hi Hreach).
Qed.

(** X8. The labels that [label_images] writes into an image: a
    pixel gets label 0 exactly when its value is 0; the labels lie
    between 0 and the number of areas reported for the image; and two
    non-zero pixels get the same label exactly when one is reached
    from the other through a chain of neighbouring (8-connected)
    non-zero pixels of equal value. *)
Theorem label_images_labels (images : batch) (i : nat) (p q : pos) :
  (i < length images)%nat ->
  In p (grid (nth i images [])) ->
  In q (grid (nth i images [])) ->
  (at_pos (labeled_image images i) p = 0
   <-> at_pos (nth i images []) p = 0)
  /\ 0 <= at_pos (labeled_image images i) p
          <= Z.of_nat (length (image_areas images i))
  /\ (at_pos (nth i images []) p <> 0 ->
      at_pos (nth i images []) q <> 0 ->
      (at_pos (labeled_image images i) p = at_pos (labeled_image images i) q
       <-> reachable (nth i images []) p q)).
Proof.
  intros Hi Hp Hq.
  rewrite (labeled_image_eq images i Hi), (image_areas_eq images i Hi).
  set (img := nth i images []) in *.
  rewrite !skimage_label_at by assumption.
  split; [now apply label_zero_iff|]; split.
  - unfold component_areas; rewrite length_map.
    pose proof (label_from_bound (components img) 1 p ltac:(lia)).
    destruct (label_from_inv (components img) 1 p)
      as [E|[k [C [_ [_ E]]]]]; lia.
  - intros Hpz Hqz; apply label_same_iff; apply foreground_In;
      apply grid_In in Hp; apply grid_In in Hq; tauto.
Qed.

Lemma label_images_labels_witness :
  (at_pos (labeled_image [blob_filtered] 0) (1, 2)%nat = 0
   <-> at_pos (nth 0 [blob_filtered] []) (1, 2)%nat = 0)
  /\ 0 <= at_pos (labeled_image [blob_filtered] 0) (1, 2)%nat
          <= Z.of_nat (length (image_areas [blob_filtered] 0))
  /\ (at_pos (nth 0 [blob_filtered] []) (1, 2)%nat <> 0 ->
      at_pos (nth 0 [blob_filtered] []) (2, 1)%nat <> 0 ->
      (at_pos (labeled_image [blob_filtered] 0) (1, 2)%nat
       = at_pos (labeled_image [blob_filtered] 0) (2, 1)%nat
       <-> reachable (nth 0 [blob_filtered] []) (1, 2)%nat (2, 1)%nat)).
Proof.
  apply (label_images_labels [blob_filtered] 0 (1, 2)%nat (2, 1)%nat).
  - cbn [length]; lia.
  - apply grid_In; vm_compute; lia.
  - apply grid_In; vm_compute; lia.
Defined.

(** ** test.py: the classification step *)

Lemma is_defective_cases (areas : list Z) (min_area : Z) :
  (is_defective areas min_area = 1
   /\ exists a, In a areas /\ min_area <= a)
  \/ (is_defective areas min_area = 0
      /\ forall a, In a areas -> a < min_area).
Proof.
  unfold is_defective.
  destruct (filter (fun a => min_area <=? a) areas) as [|a0 rest] eqn:Hf.
  - right; split; [reflexivity|].
    intros a Ha; destruct (min_area <=? a) eqn:Hle.
    + assert (In a (filter (fun a => min_area <=? a) areas))
        by (apply filter_In; now split).
      rewrite Hf in H; contradiction.
    + apply Z.leb_gt in Hle; exact Hle.
  - left; split.
    + cbn [length]; rewrite Nat2Z.inj_succ.
      destruct (0 <? Z.succ (Z.of_nat (length rest))) eqn:E;
        [reflexivity|].
      apply Z.ltb_ge in E; lia.
    + exists a0.
      assert (H : In a0 (filter (fun a => min_area <=? a) areas))
        by (rewrite Hf; now left).
      apply filter_In in H as [Hin Hle]; apply Z.leb_le in Hle; now split.
Qed.

Lemma main_classification_eq (resmaps : batch) (tau m : Z) :
  Forall nonempty_image resmaps -> int32 tau ->
  main_classification resmaps tau m
  = Ok (map (fun img =>
               is_defective
                 (component_areas (map (map (binarize_pixel tau)) img)) m)
            resmaps).
Proof.
  intros Hne Ht; unfold main_classification.
  rewrite (threshold_images_eq resmaps tau (int32_fits_double tau Ht) Hne).
  rewrite (int32_int_of_thresh tau Ht); cbn [bind].
  unfold label_images, classify; apply f_equal.
  rewrite !map_map; apply map_ext; intros img.
  now rewrite regionprops_areas_components.
Qed.

Lemma thresholded_below (tau1 tau2 : Z) (img : image) :
  tau1 <= tau2 ->
  image_below (map (map (binarize_pixel tau2)) img)
              (map (map (binarize_pixel tau1)) img).
Proof.
  intros Hle; split; [now apply thresholded_le|].
  split; apply thresholded_binary.
Qed.

(** X9. The prediction of the test script is monotone in its two
    parameters: on residual maps with at least one row and one column
    and for thresholds that fit a C int, the classification step
    (threshold, label, classify) returns one 0/1 decision per image,
    and a decision made with a larger threshold and a larger minimum
    area is never 1 where the decision with the smaller threshold and
    smaller minimum area is 0. *)
Theorem main_classification_monotone
        (resmaps : batch) (tau1 tau2 m1 m2 : Z) :
  Forall nonempty_image resmaps ->
  - 2 ^ 31 <= tau1 -> tau1 <= tau2 -> tau2 < 2 ^ 31 -> m1 <= m2 ->
  exists y1 y2,
    main_classification resmaps tau1 m1 = Ok y1
    /\ main_classification resmaps tau2 m2 = Ok y2
    /\ length y1 = length resmaps
    /\ labels01 y1
    /\ Forall2 Z.le y2 y1.
Proof.
  intros Hne Hlo Htau Hhi Hm.
  assert (H1 : int32 tau1) by (unfold int32; lia).
  assert (H2 : int32 tau2) by (unfold int32; lia).
  rewrite (main_classification_eq resmaps tau1 m1 Hne H1).
  rewrite (main_classification_eq resmaps tau2 m2 Hne H2).
  eexists; eexists; split; [reflexivity|]; split; [reflexivity|].
  split; [apply length_map|]; split.
  - unfold labels01; rewrite Forall_forall; intros y Hy.
    apply in_map_iff in Hy as [img [<- _]].
    destruct (is_defective_cases
                (component_areas (map (map (binarize_pixel tau1)) img)) m1)
      as [[-> _]|[-> _]]; auto.
  - apply Forall2_map_same; intros img _.
    destruct (is_defective_cases
                (component_areas (map (map (binarize_pixel tau2)) img)) m2)
      as [[-> [a [Ha Hle]]]|[-> _]].
    + unfold component_areas in Ha.
      apply in_map_iff in Ha as [C2 [<- HC2]].
      destruct (components_mono _ _ C2 (thresholded_below tau1 tau2 img Htau)
                  HC2) as [C1 [HC1 Hlen]].
      destruct (is_defective_cases
                  (component_areas (map (map (binarize_pixel tau1)) img)) m1)
        as [[-> _]|[_ Hall]]; [lia|].
      assert (Hin : In (Z.of_nat (length C1))
                       (component_areas
                          (map (map (binarize_pixel tau1)) img))).
      { unfold component_areas; apply in_map_iff; now exists C1. }
      specialize (Hall _ Hin); lia.
    + destruct (is_defective_cases
                  (component_areas (map (map (binarize_pixel tau1)) img)) m1)
        as [[-> _]|[-> _]]; lia.
Qed.

Lemma main_classification_monotone_witness :
  exists y1 y2,
    main_classification [blob_image; blob_filtered] 4 3 = Ok y1
    /\ main_classification [blob_image; blob_filtered] 8 10 = Ok y2
    /\ length y1 = length [blob_image; blob_filtered]
    /\ labels01 y1
    /\ Forall2 Z.le y2 y1.
Proof.
  apply (main_classification_monotone [blob_image; blob_filtered] 4 8 3 10).
  - repeat constructor; vm_compute; discriminate.
  - vm_compute; discriminate.
  - lia.
  - vm_compute; reflexivity.
  - lia.
Defined.

Lemma thresholded_foreground_above (img : image) (tau : Z) (p : pos) :
  In p (foreground (map (map (binarize_pixel tau)) img)) ->
  In p (above img tau).
Proof.
  intros Hp; apply foreground_In in Hp as [Hr [Hc Hnz]].
  rewrite height_map in Hr; rewrite width_map in Hc.
  unfold above; apply filter_In; split; [now apply grid_In|].
  unfold at_pos in *; rewrite pix_map_cases in Hnz.
  destruct ((fst p <? length img)%nat
            && (snd p <? length (nth (fst p) img []))%nat);
    [|congruence].
  unfold binarize_pixel in Hnz.
  destruct (tau <? pix img (fst p) (snd p)); [reflexivity | congruence].
Qed.

(** X10. An image needs enough pixels above the threshold to be
    called defective: in the classification step of the test script,
    on residual maps with at least one row and one column and for a
    threshold that fits a C int, an image with fewer than [min_area]
    pixels whose value exceeds the threshold gets the prediction 0. *)
Theorem main_classification_few_pixels
        (resmaps : batch) (tau m : Z) (i : nat) :
  Forall nonempty_image resmaps -> int32 tau ->
  (i < length resmaps)%nat ->
  Z.of_nat (length (above (nth i resmaps []) tau)) < m ->
  exists y, main_classification resmaps tau m = Ok y /\ nth i y 1 = 0.
Proof.
  intros Hne Ht Hi Hfew; rewrite (main_classification_eq _ _ _ Hne Ht).
  eexists; split; [reflexivity|].
  rewrite (nth_map_default _ resmaps i [] 1 Hi).
  set (img := nth i resmaps []) in *.
  destruct (is_defective_cases
              (component_areas (map (map (binarize_pixel tau)) img)) m)
    as [[_ [a [Ha Hle]]]|[E _]]; [|exact E].
  exfalso; unfold component_areas in Ha.
  apply in_map_iff in Ha as [C [<- HC]].
  assert (Hlen : (length C <= length (above img tau))%nat).
  { apply NoDup_incl_length; [exact (component_NoDup _ C HC)|].
    intros p Hp; apply thresholded_foreground_above.
    exact (components_foreground _ C p HC Hp). }
  lia.
Qed.

Lemma main_classification_few_pixels_witness :
  exists y, main_classification [blob_image] 8 10 = Ok y /\ nth 0 y 1 = 0.
Proof.
  apply (main_classification_few_pixels [blob_image] 8 10 0).
  - repeat constructor; vm_compute; discriminate.
  - apply int32_small; lia.
  - cbn [length]; lia.
  - vm_compute; reflexivity.
Defined.

(** ** test.py: the scoring step *)

Lemma unpack4_cases {A : Type} (xs : list A) :
  (length xs = 4%nat /\ exists t, unpack4 xs = Ok t)
  \/ (length xs <> 4%nat /\ unpack4 xs = Raise ValueError).
Proof.
  destruct xs as [|a [|b [|c [|d [|e xs]]]]];
    try (right; split; [cbn [length]; lia | reflexivity]).
  left; split; [reflexivity | eexists; reflexivity].
Qed.

Lemma length_concat_const {A : Type} (l : list (list A)) (n : nat) :
  (forall x, In x l -> length x = n) ->
  length (concat l) = (length l * n)%nat.
Proof.
  induction l as [|x xs IH]; intros H; [reflexivity|].
  cbn [concat length]; rewrite length_app, (H x (or_introl eq_refl)).
  rewrite IH; [lia|]; intros y Hy; apply H; now right.
Qed.

Lemma nodup01_length (l : list Z) :
  labels01 l ->
  (length (nodup Z.eq_dec l) = 2%nat <-> In 0 l /\ In 1 l).
Proof.
  intros H01; unfold labels01 in H01; rewrite Forall_forall in H01.
  pose proof (NoDup_nodup Z.eq_dec l) as Hnd.
  assert (Hsub : forall (a : Z), ~ In a l -> a = 0 \/ a = 1 ->
                   (length (nodup Z.eq_dec l) <= 1)%nat).
  { intros a Ha Ha01.
    apply (NoDup_incl_length (l' := [1 - a]) Hnd).
    intros x Hx; apply nodup_In in Hx.
    destruct (H01 x Hx) as [-> | ->]; destruct Ha01 as [-> | ->];
      try contradiction; now left. }
  split.
  - intros Hlen; split.
    + destruct (in_dec Z.eq_dec 0 l) as [|Hn]; [assumption|].
      specialize (Hsub 0 Hn (or_introl eq_refl)); lia.
    + destruct (in_dec Z.eq_dec 1 l) as [|Hn]; [assumption|].
      specialize (Hsub 1 Hn (or_intror eq_refl)); lia.
  - intros [H0 H1].
    assert (Hle : (length (nodup Z.eq_dec l) <= 2)%nat).
    { apply (NoDup_incl_length (l' := [0; 1]) Hnd).
      intros x Hx; apply nodup_In in Hx.
      destruct (H01 x Hx) as [-> | ->]; [now left | right; now left]. }
    assert (Hge : (2 <= length (nodup Z.eq_dec l))%nat).
    { apply (NoDup_incl_length (l := [0; 1])).
      - repeat constructor; cbn [In]; lia.
      - intros x [<- | [<- | []]]; now apply nodup_In. }
    lia.
Qed.

Lemma unique_labels_length (y_true y_pred : list Z) :
  length (unique_labels y_true y_pred)
  = length (nodup Z.eq_dec (y_true ++ y_pred)).
Proof.
  unfold unique_labels; apply Permutation_length, isort_perm.
Qed.

Lemma confusion_matrix_size (y_true y_pred : list Z) (cm : list (list Q)) :
  confusion_matrix y_true y_pred = Ok cm ->
  length (ravel cm)
  = (length (unique_labels y_true y_pred)
     * length (unique_labels y_true y_pred))%nat.
Proof.
  unfold confusion_matrix.
  destruct (negb (length y_true =? length y_pred)%nat); [discriminate|].
  destruct (unique_labels y_true y_pred) as [|l0 ls] eqn:E; [discriminate|].
  cbv iota zeta; set (labels := l0 :: ls); clearbody labels.
  intros H; injection H as <-; unfold ravel.
  rewrite (length_concat_const _ (length labels)).
  - now rewrite length_map.
  - intros row Hrow; apply in_map_iff in Hrow as [t [<- _]].
    unfold normalize_true; now rewrite !length_map.
Qed.

Lemma main_scoring_cases (y_pred y_true : list Z) :
  length y_pred = length y_true -> labels01 y_pred ->
  (length (unique_labels y_true y_pred) = 2%nat
   /\ main_scoring y_pred y_true (length y_true)
      = compute_rates y_pred y_true (length y_true))
  \/ (length (unique_labels y_true y_pred) <> 2%nat
      /\ main_scoring y_pred y_true (length y_true) = Raise ValueError).
Proof.
  intros Hlen H01; unfold main_scoring.
  rewrite (compute_rates_formula y_pred y_true Hlen H01); cbn [bind].
  destruct (confusion_matrix y_true y_pred) as [cm|e] eqn:Hcm; cbn [bind].
  - pose proof (confusion_matrix_size _ _ _ Hcm) as Hsz.
    destruct (unpack4_cases (ravel cm)) as [[H4 [t ->]]|[H4 ->]];
      cbn [bind]; [left | right]; (split; [nia | reflexivity]).
  - right; unfold confusion_matrix in Hcm.
    rewrite <- Hlen, Nat.eqb_refl in Hcm; cbn [negb] in Hcm.
    destruct (unique_labels y_true y_pred) as [|l0 ls]; [|discriminate].
    injection Hcm as <-; split; [cbn [length]; lia | reflexivity].
Qed.

(** X11. The scoring step of the test script returns only when both
    classes occur: for 0/1 lists of equal length, scored over their
    whole length, the step returns the rates exactly when the labels
    0 and 1 both occur among the true and predicted labels, and
    raises ValueError in every other case. *)
Theorem main_scoring_returns_iff (y_pred y_true : list Z) :
  length y_pred = length y_true ->
  labels01 y_pred -> labels01 y_true ->
  ((exists r, main_scoring y_pred y_true (length y_true) = Ok r)
   <-> In 0 (y_true ++ y_pred) /\ In 1 (y_true ++ y_pred))
  /\ (~ (In 0 (y_true ++ y_pred) /\ In 1 (y_true ++ y_pred)) ->
      main_scoring y_pred y_true (length y_true) = Raise ValueError).
Proof.
  intros Hlen Hp Ht.
  assert (H01 : labels01 (y_true ++ y_pred))
    by (unfold labels01 in *; apply Forall_app; now split).
  pose proof (nodup01_length _ H01) as Hiff.
  rewrite <- unique_labels_length in Hiff.
  destruct (main_scoring_cases y_pred y_true Hlen Hp)
    as [[H2 E]|[H2 E]]; rewrite E.
  - rewrite (compute_rates_formula y_pred y_true Hlen Hp).
    split.
    + split; [intros _; now apply Hiff | intros _; eexists; reflexivity].
    + intros Hn; exfalso; apply Hn; now apply Hiff.
  - split; [|reflexivity].
    split; [intros [r Hr]; discriminate|].
    intros Hboth; exfalso; apply H2; now apply Hiff.
Qed.

Lemma main_scoring_returns_iff_witness :
  ((exists r, main_scoring [1; 0; 0] [1; 1; 0] (length [1; 1; 0]) = Ok r)
   <-> In 0 ([1; 1; 0] ++ [1; 0; 0]) /\ In 1 ([1; 1; 0] ++ [1; 0; 0]))
  /\ (~ (In 0 ([1; 1; 0] ++ [1; 0; 0]) /\ In 1 ([1; 1; 0] ++ [1; 0; 0])) ->
      main_scoring [1; 0; 0] [1; 1; 0] (length [1; 1; 0])
      = Raise ValueError).
Proof.
  apply (main_scoring_returns_iff [1; 0; 0] [1; 1; 0]).
  - reflexivity.
  - repeat constructor; lia.
  - repeat constructor; lia.
Defined.

Lemma count_pairs_nonneg (p t : Z) (y_pred y_true : list Z) :
  0 <= count_pairs p t y_pred y_true.
Proof. unfold count_pairs; apply Nat2Z.is_nonneg. Qed.

Lemma np_true_divide_ratio (a b : Z) :
  0 <= a <= b ->
  (b = 0 /\ np_true_divide a b = NaN)
  \/ (0 < b /\ exists q, np_true_divide a b = Fin q /\ (0 <= q <= 1)%Q).
Proof.
  intros Hab; unfold np_true_divide.
  destruct (b =? 0) eqn:Hb.
  - apply Z.eqb_eq in Hb; left; split; [assumption|].
    replace (a =? 0) with true by (symmetry; apply Z.eqb_eq; lia).
    reflexivity.
  - apply Z.eqb_neq in Hb; right; split; [lia|].
    eexists; split; [reflexivity|].
    assert (Hb0 : (0 < inject_Z b)%Q).
    { change 0%Q with (inject_Z 0); rewrite <- Zlt_Qlt; lia. }
    assert (Ha0 : (0 <= inject_Z a)%Q).
    { change 0%Q with (inject_Z 0); rewrite <- Zle_Qle; lia. }
    assert (Hle : (inject_Z a <= inject_Z b)%Q)
      by (rewrite <- Zle_Qle; lia).
    split.
    + apply Qle_shift_div_l; [assumption | lra].
    + apply Qle_shift_div_r; [assumption | lra].
Qed.

(** X12. The two rates of the scoring step are proportions: for
    lists of equal length with 0/1 predictions, [compute_rates]
    returns, and the true-positive rate is NaN when no true label is
    1 and a number between 0 and 1 otherwise; likewise the
    true-negative rate with the label 0. *)
Theorem compute_rates_range (y_pred y_true : list Z) :
  length y_pred = length y_true -> labels01 y_pred ->
  exists r,
    compute_rates y_pred y_true (length y_true) = Ok r
    /\ ((py_count 1 y_true = 0 /\ TPR r = NaN)
        \/ (0 < py_count 1 y_true
            /\ exists q, TPR r = Fin q /\ (0 <= q <= 1)%Q))
    /\ ((py_count 0 y_true = 0 /\ TNR r = NaN)
        \/ (0 < py_count 0 y_true
            /\ exists q, TNR r = Fin q /\ (0 <= q <= 1)%Q)).
Proof.
  intros Hlen H01; rewrite (compute_rates_formula _ _ Hlen H01).
  eexists; split; [reflexivity|]; cbn [TPR TNR].
  rewrite (py_count_split 1 y_pred y_true Hlen H01).
  rewrite (py_count_split 0 y_pred y_true Hlen H01).
  unfold TP_of, FN_of, TN_of, FP_of.
  pose proof (count_pairs_nonneg 1 1 y_pred y_true).
  pose proof (count_pairs_nonneg 0 1 y_pred y_true).
  pose proof (count_pairs_nonneg 0 0 y_pred y_true).
  pose proof (count_pairs_nonneg 1 0 y_pred y_true).
  split.
  - apply np_true_divide_ratio; lia.
  - rewrite (Z.add_comm (count_pairs 1 0 y_pred y_true)).
    apply np_true_divide_ratio; lia.
Qed.

Lemma compute_rates_range_witness :
  exists r,
    compute_rates [1; 0; 0] [1; 1; 0] (length [1; 1; 0]) = Ok r
    /\ ((py_count 1 [1; 1; 0] = 0 /\ TPR r = NaN)
        \/ (0 < py_count 1 [1; 1; 0]
            /\ exists q, TPR r = Fin q /\ (0 <= q <= 1)%Q))
    /\ ((py_count 0 [1; 1; 0] = 0 /\ TNR r = NaN)
        \/ (0 < py_count 0 [1; 1; 0]
            /\ exists q, TNR r = Fin q /\ (0 <= q <= 1)%Q)).
Proof.
  apply (compute_rates_range [1; 0; 0] [1; 1; 0]).
  - reflexivity.
  - repeat constructor; lia.
Defined.

Lemma count_pairs_diag (p t : Z) (y : list Z) :
  p <> t -> count_pairs p t y y = 0.
Proof.
  intros Hpt; unfold count_pairs.
  rewrite filter_nil; [reflexivity|].
  intros [a b] Hin; cbn [fst snd].
  assert (a = b).
  { clear Hpt; induction y as [|x xs IH]; [contradiction|].
    cbn [combine In] in Hin; destruct Hin as [[= <- <-]|Hin];
      [reflexivity | now apply IH]. }
  subst b; destruct (a =? p) eqn:E1; [|reflexivity].
  apply Z.eqb_eq in E1; subst a; cbn [andb]; apply Z.eqb_neq; exact Hpt.
Qed.

Lemma py_count_pos (v : Z) (l : list Z) : In v l -> 0 < py_count v l.
Proof.
  intros H; unfold py_count.
  apply (count_occ_In Z.eq_dec) in H; lia.
Qed.

Lemma np_true_divide_self (a : Z) :
  0 < a -> exists q, np_true_divide a (a + 0) = Fin q /\ (q == 1)%Q.
Proof.
  intros Ha; unfold np_true_divide; rewrite Z.add_0_r.
  replace (a =? 0) with false by (symmetry; apply Z.eqb_neq; lia).
  eexists; split; [reflexivity|].
  assert (H : ~ (inject_Z a == 0)%Q).
  { change 0%Q with (inject_Z 0); rewrite inject_Z_injective; lia. }
  now field.
Qed.

(** X13. A perfect prediction scores 1 on both rates: when the
    predicted labels equal the true labels and both classes occur,
    the scoring step returns rates whose true-positive rate and
    true-negative rate are both equal to 1. *)
Theorem main_scoring_perfect (y : list Z) :
  labels01 y -> In 0 y -> In 1 y ->
  exists r q1 q0,
    main_scoring y y (length y) = Ok r
    /\ TPR r = Fin q1 /\ TNR r = Fin q0
    /\ (q1 == 1)%Q /\ (q0 == 1)%Q.
Proof.
  intros H01 H0 H1.
  assert (H01' : labels01 (y ++ y))
    by (unfold labels01 in *; apply Forall_app; now split).
  pose proof (nodup01_length _ H01') as Hiff.
  rewrite <- unique_labels_length in Hiff.
  destruct (main_scoring_cases y y eq_refl H01) as [[_ E]|[H2 _]].
  - rewrite E, (compute_rates_formula y y eq_refl H01).
    unfold TP_of, FN_of, TN_of, FP_of.
    rewrite (count_pairs_diag 0 1), (count_pairs_diag 1 0) by lia.
    pose proof (py_count_split 1 y y eq_refl H01) as P1.
    pose proof (py_count_split 0 y y eq_refl H01) as P0.
    rewrite (count_pairs_diag 0 1) in P1 by lia.
    rewrite (count_pairs_diag 1 0) in P0 by lia.
    pose proof (py_count_pos 1 y H1) as Hp1.
    pose proof (py_count_pos 0 y H0) as Hp0.
    destruct (np_true_divide_self (count_pairs 1 1 y y) ltac:(lia))
      as [q1 [E1 Hq1]].
    destruct (np_true_divide_self (count_pairs 0 0 y y) ltac:(lia))
      as [q0 [E0 Hq0]].
    eexists; exists q1, q0; split; [reflexivity|]; cbn [TPR TNR].
    repeat split; assumption.
  - exfalso; apply H2, Hiff; split; apply in_or_app; now left.
Qed.

Lemma main_scoring_perfect_witness :
  exists r q1 q0,
    main_scoring [1; 0; 1] [1; 0; 1] (length [1; 0; 1]) = Ok r
    /\ TPR r = Fin q1 /\ TNR r = Fin q0
    /\ (q1 == 1)%Q /\ (q0 == 1)%Q.
Proof.
  apply (main_scoring_perfect [1; 0; 1]).
  - repeat constructor; lia.
  - cbn [In]; lia.
  - cbn [In]; lia.
Defined.

Lemma mapM_seq_raise {B : Type} (f : nat -> result B) (e : exn)
      (m n s : nat) :
  (forall i, (s <= i < m)%nat -> exists b, f i = Ok b) ->
  f m = Raise e -> (s <= m < s + n)%nat ->
  mapM f (seq s n) = Raise e.
Proof.
  revert s; induction n as [|n IH]; intros s Hok Hm Hr; [lia|].
  cbn [seq mapM].
  destruct (Nat.eq_dec s m) as [->|Hne].
  - now rewrite Hm.
  - destruct (Hok s ltac:(lia)) as [b ->]; cbn [bind].
    rewrite IH; [reflexivity | | assumption | lia].
    intros i Hi; apply Hok; lia.
Qed.

Lemma getitem_cases (l : list Z) (i : nat) :
  ((i < length l)%nat /\ exists v, getitem l i = Ok v)
  \/ ((length l <= i)%nat /\ getitem l i = Raise IndexError).
Proof.
  unfold getitem; destruct (nth_error l i) as [v|] eqn:E.
  - left; split; [|now exists v].
    apply nth_error_Some; congruence.
  - right; split; [now apply nth_error_None | reflexivity].
Qed.

Lemma agree_on_short (v : Z) (y_pred y_true : list Z) (n : nat) :
  (length y_pred < n \/ length y_true < n)%nat ->
  agree_on v y_pred y_true n = Raise IndexError.
Proof.
  intros Hshort; unfold agree_on.
  apply (mapM_seq_raise _ IndexError
           (Nat.min (length y_pred) (length y_true))); [| |lia].
  - intros i Hi.
    destruct (getitem_cases y_pred i) as [[_ [p ->]]|[H _]]; [|lia].
    destruct (getitem_cases y_true i) as [[_ [t ->]]|[H _]]; [|lia].
    cbn [bind]; eexists; reflexivity.
  - destruct (getitem_cases y_pred (Nat.min (length y_pred) (length y_true)))
      as [[Hlt [p ->]]|[_ ->]]; [|reflexivity].
    destruct (getitem_cases y_true (Nat.min (length y_pred) (length y_true)))
      as [[Hlt' _]|[_ ->]]; [lia | reflexivity].
Qed.

(** X14. Scoring over more images than there are labels fails: when
    [total_number] exceeds the length of the predicted or of the true
    label list, the rate computation, and with it the scoring step,
    raises IndexError. *)
Theorem main_scoring_index_error (y_pred y_true : list Z) (n : nat) :
  (length y_pred < n \/ length y_true < n)%nat ->
  compute_rates y_pred y_true n = Raise IndexError
  /\ main_scoring y_pred y_true n = Raise IndexError.
Proof.
  intros Hshort.
  assert (E : compute_rates y_pred y_true n = Raise IndexError).
  { unfold compute_rates.
    now rewrite (agree_on_short 1 y_pred y_true n Hshort). }
  split; [exact E|].
  unfold main_scoring; now rewrite E.
Qed.

Lemma main_scoring_index_error_witness :
  compute_rates [1; 0] [1; 0; 0] 3 = Raise IndexError
  /\ main_scoring [1; 0] [1; 0; 0] 3 = Raise IndexError.
Proof.
  apply (main_scoring_index_error [1; 0] [1; 0; 0] 3).
  left; cbn [length]; lia.
Defined.

(** ** inspection.py: get_max_area, bounds and failures *)

Lemma filter_image_shape (img out : image) (k : Z) :
  (image_filtered <- cv2_medianBlur img k ;;
   Ok (map (map uint8) image_filtered)) = Ok out ->
  same_shape img out /\ height img <> 0%nat /\ width img <> 0%nat.
Proof.
  intros H; apply bind_Ok in H as [F [HF H]]; injection H as <-.
  destruct (cv2_medianBlur_values _ _ _ HF) as [[Hh Hw] _].
  split; [split; [now rewrite height_map | now rewrite width_map]|].
  unfold cv2_medianBlur in HF.
  destruct (height img =? 0)%nat eqn:E1; cbn [orb] in HF; [discriminate|].
  destruct (width img =? 0)%nat eqn:E2; [discriminate|].
  apply Nat.eqb_neq in E1; apply Nat.eqb_neq in E2; now split.
Qed.

Lemma denoised_at_shape (resmaps fil : batch) (tau : Z) :
  denoised_at resmaps tau = Ok fil -> Forall2 same_shape resmaps fil.
Proof.
  unfold denoised_at; intros H.
  apply bind_Ok in H as [th [Hth H]].
  destruct (threshold_images_Ok resmaps th tau Hth) as [_ [_ ->]].
  clear Hth; revert H; unfold filter_median_images; rewrite mapM_map.
  intros H; apply mapM_Ok_Forall2 in H.
  induction H as [|img F l1 l2 HF _ IH]; constructor; [|exact IH].
  apply filter_image_shape in HF as [[Hh Hw] _].
  rewrite height_map in Hh; rewrite width_map in Hw; now split.
Qed.

Lemma Forall2_In_right {A B : Type} (R : A -> B -> Prop) (l1 : list A)
      (l2 : list B) (b : B) :
  Forall2 R l1 l2 -> In b l2 -> exists a, In a l1 /\ R a b.
Proof.
  intros H; induction H as [|x y l1 l2 Hxy _ IH]; intros Hin;
    [contradiction|].
  destruct Hin as [<-|Hin].
  - exists x; split; [now left | assumption].
  - destruct (IH Hin) as [a [Ha HR]]; exists a; split;
      [now right | assumption].
Qed.

Lemma component_size (img : image) (C : list pos) :
  In C (components img) -> (length C <= height img * width img)%nat.
Proof.
  intros HC.
  assert (H : (length C <= length (grid img))%nat).
  { apply NoDup_incl_length; [exact (component_NoDup img C HC)|].
    intros p Hp; pose proof (components_foreground img C p HC Hp) as Hf.
    apply foreground_In in Hf; apply grid_In; tauto. }
  change (length (grid img))
    with (length (list_prod (seq 0 (height img)) (seq 0 (width img)))) in H.
  now rewrite length_prod, !length_seq in H.
Qed.

(** X15. The largest area fits into an image: when [get_max_area]
    returns a value, that value is at least 1 and at most the number
    of pixels (height times width) of some image of the batch. *)
Theorem get_max_area_bounds (resmaps : batch) (tau M : Z) :
  get_max_area resmaps tau = Ok M ->
  exists img, In img resmaps
              /\ 1 <= M <= Z.of_nat (height img * width img).
Proof.
  rewrite get_max_area_eq; intros H.
  apply bind_Ok in H as [fil [Hfil HM]].
  destruct (np_amax_spec (map (fun C => Z.of_nat (length C))
                              (batch_regions fil)))
    as [[_ E]|[m [Hm [Hin _]]]]; [congruence|].
  rewrite Hm in HM; injection HM as ->.
  apply in_map_iff in Hin as [C [<- HC]].
  unfold batch_regions in HC; apply in_flat_map in HC as [F [HF HC]].
  destruct (Forall2_In_right _ _ _ F (denoised_at_shape _ _ _ Hfil) HF)
    as [img [Himg [Hh Hw]]].
  exists img; split; [assumption|].
  pose proof (component_size F C HC) as Hsz.
  pose proof (components_nonempty F C HC) as Hne.
  rewrite Hh, Hw; destruct C; [congruence | cbn [length] in *; lia].
Qed.

Lemma get_max_area_bounds_witness :
  exists img, In img [blob_image]
              /\ 1 <= 5 <= Z.of_nat (height img * width img).
Proof.
  apply (get_max_area_bounds [blob_image] 8 5).
  vm_compute; reflexivity.
Defined.

Lemma mapM_raise_only {A B : Type} (f : A -> result B) (e : exn)
      (l : list A) :
  (forall x, In x l -> f x = Raise e \/ exists b, f x = Ok b) ->
  Exists (fun x => f x = Raise e) l ->
  mapM f l = Raise e.
Proof.
  intros Hall Hex; induction Hex as [x l Hx | x l _ IH]; cbn [mapM].
  - now rewrite Hx.
  - destruct (Hall x (or_introl eq_refl)) as [-> | [b ->]];
      [reflexivity|].
    cbn [bind]; rewrite IH; [reflexivity|].
    intros y Hy; apply Hall; now right.
Qed.

Lemma threshold_images_empty_image (images : batch) (tau : Z) :
  fits_double tau = true ->
  Exists (fun img => height img = 0%nat \/ width img = 0%nat) images ->
  threshold_images images tau = Raise TypeError.
Proof.
  intros Hfit Hex; unfold threshold_images.
  apply mapM_raise_only.
  - intros img _; rewrite threshold_image_cases, Hfit; cbn [negb].
    destruct (_ || _); [now left | right; eexists; reflexivity].
  - apply Exists_exists in Hex as [img [Hin Hz]].
    apply Exists_exists; exists img; split; [assumption|].
    rewrite threshold_image_cases, Hfit; cbn [negb].
    destruct Hz as [-> | ->]; [reflexivity|].
    now rewrite Bool.orb_true_r.
Qed.

(** X16. [get_max_area] on degenerate batches: a batch that holds an
    image without rows or without columns makes it raise TypeError in
    [threshold_images], at every threshold that fits a C int
    ([cv2.threshold] returns [None] for such an image and the uint8
    conversion rejects it); the empty batch makes it raise ValueError
    (there is no area to take the maximum of). *)
Theorem get_max_area_degenerate (resmaps : batch) (tau : Z) :
  int32 tau ->
  Exists (fun img => height img = 0%nat \/ width img = 0%nat) resmaps ->
  threshold_images resmaps tau = Raise TypeError
  /\ get_max_area resmaps tau = Raise TypeError
  /\ get_max_area [] tau = Raise ValueError.
Proof.
  intros Ht Hex.
  pose proof (threshold_images_empty_image resmaps tau
                (int32_fits_double tau Ht) Hex) as E.
  split; [exact E|]; split; [|reflexivity].
  unfold get_max_area; now rewrite E.
Qed.

Lemma get_max_area_degenerate_witness :
  threshold_images [[[]; []]] 8 = Raise TypeError
  /\ get_max_area [[[]; []]] 8 = Raise TypeError
  /\ get_max_area [] 8 = Raise ValueError.
Proof.
  apply (get_max_area_degenerate [[[]; []]] 8).
  - apply int32_small; lia.
  - left; right; reflexivity.
Defined.

(** ** inspection.py: the sweep on degenerate parameters *)

Lemma np_arange_empty (a b : Z) : b <= a -> np_arange a b = [].
Proof.
  intros H; unfold np_arange.
  replace (Z.to_nat (b - a)) with 0%nat by lia; reflexivity.
Qed.

Lemma np_arange_cons (a b : Z) :
  a < b -> exists rest, np_arange a b = a :: rest.
Proof.
  intros H; unfold np_arange.
  destruct (Z.to_nat (b - a)) as [|n] eqn:E; [lia|].
  cbn [seq map]; eexists; f_equal; lia.
Qed.

(** X17. The sweep over thresholds on degenerate parameters, when
    the largest area at [th_min] exists: a negative number of bins
    raises ValueError; zero bins with a non-empty threshold range
    raises ValueError from the histogram; and an empty threshold range
    ([th_max < th_min]) raises UnboundLocalError, because [edges] is
    only bound inside the loop. *)
Theorem sweep_degenerate_parameters
        (resmaps : batch) (th_min th_max nbins M : Z) :
  get_max_area resmaps th_min = Ok M ->
  (nbins < 0 ->
   get_area_size_counts_multiple_thresholds resmaps th_min th_max nbins
   = Raise ValueError)
  /\ (nbins = 0 -> th_min <= th_max ->
      get_area_size_counts_multiple_thresholds resmaps th_min th_max nbins
      = Raise ValueError)
  /\ (0 <= nbins -> th_max < th_min ->
      get_area_size_counts_multiple_thresholds resmaps th_min th_max nbins
      = Raise UnboundLocalError).
Proof.
  intros HM; unfold get_area_size_counts_multiple_thresholds.
  rewrite HM; cbn [bind].
  split; [|split].
  - intros Hn; apply Z.ltb_lt in Hn; now rewrite Hn.
  - intros -> Hr; change (0 <? 0) with false; cbv iota.
    destruct (np_arange_cons th_min (th_max + 1) ltac:(lia)) as [rest ->].
    unfold enumerate; cbn [length seq combine].
    rewrite sweep_loop_cons.
    destruct (areas_at_returns resmaps th_min th_min M
                (get_max_area_fits resmaps th_min M HM) HM) as [areas ->].
    reflexivity.
  - intros Hn Hr.
    replace (nbins <? 0) with false by (symmetry; apply Z.ltb_ge; lia).
    rewrite np_arange_empty by lia; reflexivity.
Qed.

Lemma sweep_degenerate_parameters_witness :
  (2 < 0 ->
   get_area_size_counts_multiple_thresholds [blob_image] 6 5 2
   = Raise ValueError)
  /\ (2 = 0 -> 6 <= 5 ->
      get_area_size_counts_multiple_thresholds [blob_image] 6 5 2
      = Raise ValueError)
  /\ (0 <= 2 -> 5 < 6 ->
      get_area_size_counts_multiple_thresholds [blob_image] 6 5 2
      = Raise UnboundLocalError).
Proof.
  apply (sweep_degenerate_parameters [blob_image] 6 5 2 5).
  vm_compute; reflexivity.
Defined.

(** ** inspection.py: get_xbars *)

Lemma get_xbars_eq (edges : list Q) :
  (2 <= length edges)%nat ->
  get_xbars edges
  = Ok (map (fun e => (e + (nth 1 edges 0 - nth 0 edges 0) / 2)%Q)
            (removelast edges)).
Proof.
  destruct edges as [|e0 [|e1 rest]]; cbn [length]; intros H; try lia.
  reflexivity.
Qed.

Lemma length_removelast {A : Type} (l : list A) :
  length (removelast l) = Nat.pred (length l).
Proof.
  rewrite removelast_firstn_len, length_firstn; lia.
Qed.

Lemma nth_removelast {A : Type} (l : list A) (k : nat) (d : A) :
  (S k < length l)%nat -> nth k (removelast l) d = nth k l d.
Proof.
  intros H; rewrite removelast_firstn_len, nth_firstn.
  replace (k <? Nat.pred (length l))%nat with true; [reflexivity|].
  symmetry; apply Nat.ltb_lt; lia.
Qed.

(** X18. [get_xbars] gives the centres of the bins: on the edges of
    [bins >= 1] equal bins it returns one value per bin, the midpoint
    of the two edges of that bin; on fewer than two edges it raises
    IndexError. *)
Theorem get_xbars_midpoints (lo hi : Q) (bins : Z) :
  1 <= bins ->
  (forall edges, (length edges < 2)%nat -> get_xbars edges = Raise IndexError)
  /\ exists x_bars,
       get_xbars (equal_bin_edges lo hi bins) = Ok x_bars
       /\ length x_bars = Z.to_nat bins
       /\ forall k, 0 <= k < bins ->
            (nth (Z.to_nat k) x_bars 0
             == (edge (equal_bin_edges lo hi bins) k
                 + edge (equal_bin_edges lo hi bins) (k + 1)) / 2)%Q.
Proof.
  intros Hb; split.
  { intros [|e0 [|e1 rest]]; cbn [length]; intros H; try lia; reflexivity. }
  assert (Hlen : length (equal_bin_edges lo hi bins) = S (Z.to_nat bins))
    by (unfold equal_bin_edges; rewrite linspace_length; lia).
  rewrite get_xbars_eq by (rewrite Hlen; lia).
  eexists; split; [reflexivity|]; split.
  - rewrite length_map, length_removelast, Hlen; reflexivity.
  - intros k Hk.
    rewrite (nth_map_default _ _ _ 0%Q)
      by (rewrite length_removelast, Hlen; cbn [Nat.pred]; lia).
    rewrite nth_removelast by (rewrite Hlen; lia).
    pose proof (bin_edges_step lo hi bins 0 Hb ltac:(lia)) as H0.
    pose proof (bin_edges_step lo hi bins k Hb Hk) as H1.
    unfold edge in *.
    change (Z.to_nat (0 + 1)) with 1%nat in H0.
    change (Z.to_nat 0) with 0%nat in H0.
    set (E := equal_bin_edges lo hi bins) in *; clearbody E.
    set (bw := bin_width lo hi bins) in *; clearbody bw.
    set (e0 := nth 0 E 0%Q) in *; set (e1 := nth 1 E 0%Q) in *.
    set (a := nth (Z.to_nat k) E 0%Q) in *.
    set (b := nth (Z.to_nat (k + 1)) E 0%Q) in *.
    clearbody e0 e1 a b.
    assert (Hb' : (b == a + bw)%Q) by lra.
    assert (He : (e1 - e0 == bw)%Q) by lra.
    rewrite He, Hb'; field.
Qed.

Lemma get_xbars_midpoints_witness :
  (forall edges, (length edges < 2)%nat -> get_xbars edges = Raise IndexError)
  /\ exists x_bars,
       get_xbars (equal_bin_edges (1 # 2) (11 # 2) 2) = Ok x_bars
       /\ length x_bars = Z.to_nat 2
       /\ forall k, 0 <= k < 2 ->
            (nth (Z.to_nat k) x_bars 0
             == (edge (equal_bin_edges (1 # 2) (11 # 2) 2) k
                 + edge (equal_bin_edges (1 # 2) (11 # 2) 2) (k + 1)) / 2)%Q.
Proof.
  apply (get_xbars_midpoints (1 # 2) (11 # 2) 2); lia.
Defined.

(** ** inspection.py: get_sum_counts after the sweep *)









Lemma set_row_Forall {A : Type} (P : A -> Prop) (i : nat) (row : A)
      (m : list A) :
  P row -> Forall P m -> Forall P (set_row i row m).
Proof.
  intros Hrow H; revert i; induction H as [|x m Hx Hm IH]; intros i;
    [destruct i; constructor|].
  destruct i as [|i]; cbn [set_row]; constructor; auto.
Qed.

Lemma sweep_loop_row_lengths (resmaps : batch) (nbins : Z) (lo hi : Q)
      (its : list (nat * Z)) :
  1 <= nbins -> (lo < hi)%Q ->
  forall counts edges counts' edges',
    sweep_loop resmaps nbins (lo, hi) its counts edges
    = Ok (counts', edges') ->
    Forall (fun row => length row = Z.to_nat nbins) counts ->
    Forall (fun row => length row = Z.to_nat nbins) counts'.
Proof.
  intros Hb Hlt; induction its as [|[i t] its IH];
    intros counts edges counts' edges' Hrun Hrows.
  - cbn [sweep_loop] in Hrun; injection Hrun as <- _; exact Hrows.
  - rewrite sweep_loop_cons in Hrun.
    apply bind_Ok in Hrun as [areas [_ Hrun]].
    apply bind_Ok in Hrun as [h [Hh Hrun]].
    destruct (np_histogram_spec areas nbins lo hi Hb Hlt)
      as [hist [Hhist [Hhl _]]].
    rewrite Hhist in Hh; injection Hh as <-; cbn [fst snd] in Hrun.
    apply (IH _ _ _ _ Hrun).
    now apply set_row_Forall.
Qed.

Lemma np_arange_In (a b t : Z) : In t (np_arange a b) -> a <= t < b.
Proof.
  unfold np_arange; intros H; apply in_map_iff in H as [i [<- Hi]].
  apply in_seq in Hi; lia.
Qed.

Lemma sweep_run (resmaps : batch) (th_min th_max nbins M : Z) :
  1 <= nbins -> th_min <= th_max -> th_max < 2 ^ 31 ->
  get_max_area resmaps th_min = Ok M ->
  exists counts,
    get_area_size_counts_multiple_thresholds resmaps th_min th_max nbins
    = Ok (counts,
          equal_bin_edges (1 # 2) (inject_Z M + (1 # 2)) nbins)
    /\ length counts = Z.to_nat (th_max - th_min + 1)
    /\ Forall (fun row => length row = Z.to_nat nbins) counts
    /\ forall tau, th_min <= tau <= th_max ->
         exists areas,
           areas_at resmaps tau = Ok areas
           /\ forall k, 0 <= k < nbins ->
                nth (Z.to_nat k) (nth (Z.to_nat (tau - th_min)) counts [])
                    NaN
                = density_entry
                    (equal_bin_edges (1 # 2) (inject_Z M + (1 # 2)) nbins)
                    nbins k (1 # 2) (inject_Z M + (1 # 2)) areas.
Proof.
  intros Hb Hr Hint HM.
  set (lo := (1 # 2)%Q); set (hi := (inject_Z M + (1 # 2))%Q).
  pose proof (get_max_area_pos _ _ _ HM) as HM1.
  pose proof (get_max_area_fits _ _ _ HM) as Hfit.
  assert (Hlt : (lo < hi)%Q).
  { unfold lo, hi.
    assert (H : (inject_Z 0 < inject_Z M)%Q) by (rewrite <- Zlt_Qlt; lia).
    change (inject_Z 0) with 0%Q in H; lra. }
  unfold get_area_size_counts_multiple_thresholds.
  rewrite HM; cbn [bind].
  replace (nbins <? 0) with false by (symmetry; apply Z.ltb_ge; lia).
  unfold enumerate.
  set (ths := np_arange th_min (th_max + 1)).
  assert (Hlen : length ths = Z.to_nat (th_max + 1 - th_min))
    by apply np_arange_length.
  destruct (sweep_loop_spec resmaps nbins lo hi Hb Hlt
              ths 0%nat (zeros (length ths) (Z.to_nat nbins)) None)
    as [counts [Hrun [Hrowlen [_ Hrows]]]].
  { intros t Ht; apply np_arange_In in Ht.
    apply (areas_at_returns resmaps th_min t M); [|exact HM].
    apply (fits_double_between th_min t Hfit); lia. }
  { unfold zeros; rewrite repeat_length; lia. }
  pose proof (sweep_loop_row_lengths resmaps nbins lo hi _ Hb Hlt
                _ _ _ _ Hrun) as Hall.
  unfold zeros in Hrowlen; rewrite repeat_length in Hrowlen.
  subst lo hi.
  exists counts; split; [|split; [|split]].
  - rewrite Hrun; cbn [bind snd fst].
    assert (Hpos : (0 < length ths)%nat) by lia.
    clearbody ths; destruct ths as [|t0 ths']; [cbn [length] in Hpos; lia|].
    reflexivity.
  - rewrite Hrowlen, Hlen; f_equal; lia.
  - apply Hall; unfold zeros; rewrite Forall_forall; intros row Hrow.
    apply repeat_spec in Hrow; subst row; apply repeat_length.
  - intros tau Htau.
    destruct (Hrows (Z.to_nat (tau - th_min)) ltac:(lia))
      as [areas [Hareas Hent]].
    unfold ths in Hareas; rewrite np_arange_nth in Hareas by lia.
    replace (th_min + Z.of_nat (Z.to_nat (tau - th_min))) with tau
      in Hareas by lia.
    exists areas; split; [exact Hareas | exact Hent].
Qed.



(** ** inspection.py: get_threshold_min on an array without spread *)

Lemma Qsum_const (v : Z) (l : list Z) :
  Forall (eq v) l ->
  (Qsum (map inject_Z l)
   == inject_Z (Z.of_nat (length l)) * inject_Z v)%Q.
Proof.
  induction 1 as [|x l Hx _ IH]; [cbn; ring|].
  subst x; cbn [map Qsum fold_right length].
  unfold Qsum in IH; rewrite IH.
  rewrite Nat2Z.inj_succ; unfold Z.succ; rewrite inject_Z_plus.
  change (inject_Z 1) with 1%Q; ring.
Qed.

Lemma Qsum_zero {A : Type} (f : A -> Q) (l : list A) :
  (forall x, In x l -> (f x == 0)%Q) -> (Qsum (map f l) == 0)%Q.
Proof.
  induction l as [|x xs IH]; intros H; [reflexivity|].
  cbn [map Qsum fold_right].
  rewrite (H x (or_introl eq_refl)).
  unfold Qsum in IH; rewrite IH; [ring|].
  intros y Hy; apply H; now right.
Qed.

Lemma sqrt_q_zero (q : Q) : (q == 0)%Q -> (sqrt_q q <= 0)%Q.
Proof.
  unfold Qeq, Qle, sqrt_q; cbn [Qnum Qden]; intros H.
  assert (Hn : Qnum q = 0) by lia.
  rewrite Hn; cbn; lia.
Qed.

(** X20. [get_threshold_min] needs spread in the validation data:
    when all pixels of the module-level validation array have the
    same value (standard deviation 0), or the array is empty, the
    function raises ValueError instead of returning a threshold: the
    quantile of a normal distribution of scale 0 is NaN and [int]
    rejects it. *)
Theorem get_threshold_min_no_spread
        (fsqrt ndtri : Q -> Q) (st : module_state)
        (resmaps : batch) (ppf_value : Q) (v : Z) :
  (forall q, (q == 0)%Q -> (fsqrt q <= 0)%Q) ->
  Forall (eq v) (flatten (resmaps_val_uint8 st)) ->
  get_threshold_min fsqrt ndtri st resmaps ppf_value = Raise ValueError.
Proof.
  intros Hsqrt Hall; unfold get_threshold_min.
  set (arr := flatten (resmaps_val_uint8 st)) in *; clearbody arr.
  destruct arr as [|x0 xs] eqn:E; [reflexivity|].
  rewrite <- E in *.
  assert (Hne : arr <> []) by (rewrite E; discriminate).
  destruct (np_amin_amax_nonempty arr Hne) as [lo [hi [-> ->]]].
  cbn [bind].
  assert (Hmean : np_mean arr
                  = Fin (Qsum (map inject_Z arr)
                         / inject_Z (Z.of_nat (length arr))))
    by (rewrite E; reflexivity).
  unfold np_std; rewrite Hmean; cbn [norm_ppf].
  set (n := inject_Z (Z.of_nat (length arr))).
  set (m := (Qsum (map inject_Z arr) / n)%Q).
  assert (Hn : ~ (n == 0)%Q).
  { unfold n; change 0%Q with (inject_Z 0); rewrite inject_Z_injective.
    rewrite E; cbn [length]; lia. }
  assert (Hm : (m == inject_Z v)%Q).
  { unfold m; rewrite (Qsum_const v arr Hall); fold n; now field. }
  assert (Hdev : (Qsum (map (fun x => (inject_Z x - m) * (inject_Z x - m))%Q
                            arr) / n == 0)%Q).
  { rewrite Qsum_zero; [now field|].
    intros x Hx; rewrite Forall_forall in Hall.
    rewrite <- (Hall x Hx), Hm; ring. }
  apply Hsqrt in Hdev; apply Qle_bool_iff in Hdev; rewrite Hdev.
  reflexivity.
Qed.

Lemma get_threshold_min_no_spread_witness :
  get_threshold_min sqrt_q ndtri_table
    {| resmaps_val_uint8 := val_flat |} val_flat (97 # 100)
  = Raise ValueError.
Proof.
  apply (get_threshold_min_no_spread sqrt_q ndtri_table
           {| resmaps_val_uint8 := val_flat |} val_flat (97 # 100) 7).
  - exact sqrt_q_zero.
  - repeat constructor.
Defined.

(** ** inspection.py: every row of the sweep is a density *)

Lemma Qsum_ext {A : Type} (f g : A -> Q) (l : list A) :
  (forall x, In x l -> (f x == g x)%Q) ->
  (Qsum (map f l) == Qsum (map g l))%Q.
Proof.
  induction l as [|x xs IH]; intros H; [reflexivity|].
  cbn [map Qsum fold_right].
  rewrite (H x (or_introl eq_refl)).
  unfold Qsum in IH; rewrite IH; [reflexivity|].
  intros y Hy; apply H; now right.
Qed.

Lemma Qsum_scale {A : Type} (f : A -> Q) (c : Q) (l : list A) :
  (Qsum (map (fun x => f x * c) l) == Qsum (map f l) * c)%Q.
Proof.
  induction l as [|x xs IH]; [cbn; ring|].
  cbn [map Qsum fold_right]; unfold Qsum in IH; rewrite IH; ring.
Qed.

Lemma Qsum_inject {A : Type} (h : A -> Z) (l : list A) :
  (Qsum (map (fun x => inject_Z (h x)) l) == inject_Z (np_sum (map h l)))%Q.
Proof.
  induction l as [|x xs IH]; [reflexivity|].
  cbn [map Qsum np_sum fold_right]; unfold Qsum, np_sum in IH.
  rewrite IH, inject_Z_plus; reflexivity.
Qed.

Lemma Qsum_nonneg (l : list Q) :
  Forall (fun q => 0 <= q)%Q l -> (0 <= Qsum l)%Q.
Proof.
  induction 1 as [|x l Hx _ IH]; cbn [Qsum fold_right]; [lra|].
  unfold Qsum in IH; lra.
Qed.

(** X21. Each row of the sweep is a probability density over the
    area bins: in a sweep over thresholds that fit a C int, for a
    threshold at which the filtered residual maps have at least one
    region, the row of that threshold holds [nbins] finite,
    non-negative values, and their sum times the bin width
    [max_area / nbins] is 1. *)
Theorem sweep_row_is_density
        (resmaps : batch) (th_min th_max nbins tau M : Z)
        (areas : list Z) :
  1 <= nbins -> th_min <= tau <= th_max -> th_max < 2 ^ 31 ->
  get_max_area resmaps th_min = Ok M ->
  areas_at resmaps tau = Ok areas -> areas <> [] ->
  exists counts edges qs,
    get_area_size_counts_multiple_thresholds resmaps th_min th_max nbins
    = Ok (counts, edges)
    /\ nth (Z.to_nat (tau - th_min)) counts [] = map Fin qs
    /\ length qs = Z.to_nat nbins
    /\ Forall (fun q => 0 <= q)%Q qs
    /\ (Qsum qs * (inject_Z M / inject_Z nbins) == 1)%Q.
Proof.
  intros Hb Htau Hint HM Hareas Hne.
  destruct (sweep_run resmaps th_min th_max nbins M Hb ltac:(lia) Hint HM)
    as [counts [Hrun [Hlen [Hall Hrows]]]].
  pose proof (get_max_area_pos _ _ _ HM) as HM1.
  set (lo := (1 # 2)%Q) in *; set (hi := (inject_Z M + (1 # 2))%Q) in *.
  assert (Hlt : (lo < hi)%Q).
  { unfold lo, hi.
    assert (H : (inject_Z 0 < inject_Z M)%Q) by (rewrite <- Zlt_Qlt; lia).
    change (inject_Z 0) with 0%Q in H; lra. }
  set (E := equal_bin_edges lo hi nbins) in *.
  set (row := nth (Z.to_nat (tau - th_min)) counts []) in *.
  assert (Hrowlen : length row = Z.to_nat nbins).
  { rewrite Forall_forall in Hall; apply Hall, nth_In; lia. }
  destruct (Hrows tau Htau) as [areas' [Hareas' Hent]].
  rewrite Hareas in Hareas'; injection Hareas' as <-.
  assert (Hcount : count_in_range lo hi areas = Z.of_nat (length areas)).
  { apply count_in_range_all; intros a Ha.
    pose proof (areas_within_range resmaps th_min tau M areas
                  (proj1 Htau) ltac:(lia) HM Hareas a Ha) as [Ha1 HaM].
    unfold lo, hi; rewrite Zle_Qle in Ha1, HaM.
    change (inject_Z 1) with 1%Q in Ha1; split; lra. }
  assert (Hnpos : 0 < count_in_range lo hi areas).
  { rewrite Hcount; destruct areas; [congruence | cbn [length]; lia]. }
  set (n := inject_Z (count_in_range lo hi areas)) in *.
  assert (Hn : (0 < n)%Q).
  { unfold n; change 0%Q with (inject_Z 0); now rewrite <- Zlt_Qlt. }
  set (bw := bin_width lo hi nbins).
  assert (Hbw : (0 < bw)%Q) by (apply bin_width_pos; assumption).
  set (g := fun k : nat =>
              (inject_Z (count_in_bin E nbins (Z.of_nat k) areas)
               / (edge E (Z.of_nat k + 1) - edge E (Z.of_nat k)) / n)%Q).
  assert (Hstep : forall k, (k < Z.to_nat nbins)%nat ->
            (edge E (Z.of_nat k + 1) - edge E (Z.of_nat k) == bw)%Q).
  { intros k Hk; apply bin_edges_step; lia. }
  exists counts, E, (map g (seq 0 (Z.to_nat nbins))).
  split; [exact Hrun|]; split; [|split; [|split]].
  - change (nth (Z.to_nat (tau - th_min)) counts []) with row.
    apply (nth_ext _ _ NaN NaN).
    + now rewrite Hrowlen, !length_map, length_seq.
    + intros k Hk; rewrite Hrowlen in Hk.
      rewrite (nth_map_default Fin _ k 0%Q NaN)
        by (rewrite length_map, length_seq; exact Hk).
      rewrite nth_map_seq by exact Hk.
      specialize (Hent (Z.of_nat k) ltac:(lia)).
      rewrite Nat2Z.id in Hent; fold row in Hent; rewrite Hent.
      now apply (density_entry_value lo hi nbins (Z.of_nat k) areas Hlt Hb
                   ltac:(lia)).
  - now rewrite length_map, length_seq.
  - rewrite Forall_forall; intros q Hq.
    apply in_map_iff in Hq as [k [<- Hk]]; apply in_seq in Hk.
    unfold g.
    assert (Hc : (0 <= inject_Z (count_in_bin E nbins (Z.of_nat k) areas))%Q).
    { change 0%Q with (inject_Z 0); rewrite <- Zle_Qle.
      unfold count_in_bin; apply Nat2Z.is_nonneg. }
    pose proof (Hstep k ltac:(lia)) as Hw.
    set (w := (edge E (Z.of_nat k + 1) - edge E (Z.of_nat k))%Q) in *.
    assert (Hw0 : (0 < w)%Q) by (rewrite Hw; exact Hbw).
    apply Qle_shift_div_l; [exact Hn|].
    apply Qle_shift_div_l; [exact Hw0|]; lra.
  - assert (Hg : (Qsum (map g (seq 0 (Z.to_nat nbins)))
                  == Qsum (map (fun k => inject_Z
                                  (count_in_bin E nbins (Z.of_nat k) areas)
                                * (/ bw * / n))
                               (seq 0 (Z.to_nat nbins))))%Q).
    { apply Qsum_ext; intros k Hk; apply in_seq in Hk.
      unfold g; rewrite (Hstep k ltac:(lia)).
      field; split; lra. }
    rewrite Hg, Qsum_scale, Qsum_inject.
    unfold E; rewrite (count_in_bin_total lo hi nbins areas Hlt Hb).
    fold n.
    assert (Hwid : (inject_Z M / inject_Z nbins == bw)%Q).
    { unfold bw, bin_width, lo, hi.
      assert (Hbq : ~ (inject_Z nbins == 0)%Q).
      { change 0%Q with (inject_Z 0); rewrite inject_Z_injective; lia. }
      now field. }
    rewrite Hwid; field; split; lra.
Qed.

Lemma sweep_row_is_density_witness :
  exists counts edges qs,
    get_area_size_counts_multiple_thresholds [blob_image] 6 9 2
    = Ok (counts, edges)
    /\ nth (Z.to_nat (8 - 6)) counts [] = map Fin qs
    /\ length qs = Z.to_nat 2
    /\ Forall (fun q => 0 <= q)%Q qs
    /\ (Qsum qs * (inject_Z 5 / inject_Z 2) == 1)%Q.
Proof.
  apply (sweep_row_is_density [blob_image] 6 9 2 8 5 [5]).
  - lia.
  - lia.
  - vm_compute; reflexivity.
  - vm_compute; reflexivity.
  - vm_compute; reflexivity.
  - discriminate.
Defined.

(** ** inspection.py: the rows of the sweep *)

(** C3, as stated, fails: the row of a threshold at which no region is
    left is not a density but NaN throughout, and on a batch without
    any region at the minimum threshold the sweep raises. *)
Lemma sweep_row_without_region_is_nan :
  (exists counts edges,
     get_area_size_counts_multiple_thresholds [blob_image] 6 9 2
     = Ok (counts, edges)
     /\ areas_at [blob_image] 9 = Ok []
     /\ nth 3 counts [] = [NaN; NaN])
  /\ get_area_size_counts_multiple_thresholds [flat_image] 6 9 2
     = Raise ValueError.
Proof.
  split; [|vm_compute; reflexivity].
  eexists; eexists; split; [vm_compute; reflexivity|].
  split; vm_compute; reflexivity.
Qed.

(** C3, amended.  When the sweep is run with at least one bin over
    thresholds that fit a C int and [get_max_area] returns [M] at the
    minimum threshold, it returns one row of [nbins] entries per
    threshold of [th_min .. th_max] and one list of [nbins + 1] edges
    for all of them: the edges are equally spaced from 0.5 to
    [M + 0.5] and depend on the minimum threshold only, and that range
    holds every area at every threshold.  The row of a threshold
    without any region is NaN in every bin.  The row of a threshold
    with regions is a density: every area is counted in one bin whose
    two edges enclose it, and the entry of a bin is the number of
    areas counted in it divided by the bin width and by the number of
    areas. *)
Theorem sweep_histograms
        (resmaps : batch) (th_min th_max nbins tau M : Z) :
  1 <= nbins -> - 2 ^ 31 <= th_min -> th_min <= tau <= th_max ->
  th_max < 2 ^ 31 ->
  get_max_area resmaps th_min = Ok M ->
  let lo := (1 # 2)%Q in
  let hi := (inject_Z M + (1 # 2))%Q in
  let edges := equal_bin_edges lo hi nbins in
  exists counts areas,
    get_area_size_counts_multiple_thresholds resmaps th_min th_max nbins
    = Ok (counts, edges)
    /\ areas_at resmaps tau = Ok areas
    /\ length counts = Z.to_nat (th_max - th_min + 1)
    /\ length (nth (Z.to_nat (tau - th_min)) counts []) = Z.to_nat nbins
    /\ length edges = S (Z.to_nat nbins)
    /\ (forall k, 0 <= k <= nbins ->
          (edge edges k
           == (1 # 2) + inject_Z k * (inject_Z M / inject_Z nbins))%Q)
    /\ (forall a, In a areas -> 1 <= a <= M)
    /\ (areas = [] ->
        forall k, 0 <= k < nbins ->
          nth (Z.to_nat k) (nth (Z.to_nat (tau - th_min)) counts [])
              (Fin 0) = NaN)
    /\ (areas <> [] ->
        exists bin_of : Z -> Z,
          (forall a, In a areas ->
             0 <= bin_of a < nbins
             /\ (edge edges (bin_of a) <= inject_Z a)%Q
             /\ (inject_Z a <= edge edges (bin_of a + 1))%Q)
          /\ forall k, 0 <= k < nbins ->
               nth (Z.to_nat k) (nth (Z.to_nat (tau - th_min)) counts [])
                   (Fin 0)
               = Fin (inject_Z (count_assigned bin_of k areas)
                      / (edge edges (k + 1) - edge edges k)
                      / inject_Z (Z.of_nat (length areas)))).
Proof.
  intros Hb _ Htau Hint HM lo hi edges.
  destruct (sweep_run resmaps th_min th_max nbins M Hb ltac:(lia) Hint HM)
    as [counts [Hrun [Hlen [Hall Hrows]]]].
  pose proof (get_max_area_pos _ _ _ HM) as HM1.
  assert (Hlt : (lo < hi)%Q).
  { unfold lo, hi.
    assert (H : (inject_Z 0 < inject_Z M)%Q) by (rewrite <- Zlt_Qlt; lia).
    change (inject_Z 0) with 0%Q in H; lra. }
  destruct (Hrows tau Htau) as [areas [Hareas Hent]].
  fold lo hi edges in Hent, Hrun.
  set (row := nth (Z.to_nat (tau - th_min)) counts []) in *.
  assert (Hrowlen : length row = Z.to_nat nbins).
  { rewrite Forall_forall in Hall; apply Hall, nth_In; lia. }
  assert (Hrange : forall a, In a areas -> 1 <= a <= M).
  { apply (areas_within_range resmaps th_min tau M areas);
      [lia | lia | exact HM | exact Hareas]. }
  assert (HrangeQ : forall a, In a areas ->
            (lo <= inject_Z a)%Q /\ (inject_Z a <= hi)%Q).
  { intros a Ha; destruct (Hrange a Ha) as [Ha1 HaM].
    unfold lo, hi; rewrite Zle_Qle in Ha1, HaM.
    change (inject_Z 1) with 1%Q in Ha1; split; lra. }
  assert (Hnth : forall k, 0 <= k < nbins ->
            nth (Z.to_nat k) row (Fin 0)
            = density_entry edges nbins k lo hi areas).
  { intros k Hk; rewrite (nth_indep _ (Fin 0) NaN) by lia.
    now apply Hent. }
  exists counts, areas.
  change (nth (Z.to_nat (tau - th_min)) counts []) with row.
  split; [exact Hrun|].
  split; [exact Hareas|].
  split; [exact Hlen|].
  split; [exact Hrowlen|].
  split; [apply edges_length; assumption|].
  split.
  { intros k Hk; unfold edges.
    rewrite (edge_linspace lo hi nbins Hb k Hk).
    unfold bin_width, lo, hi.
    assert (E : (inject_Z M + (1 # 2) - (1 # 2) == inject_Z M)%Q) by ring.
    now rewrite E. }
  split; [exact Hrange|].
  split.
  - intros -> k Hk; rewrite (Hnth k Hk).
    now apply (density_entry_value lo hi nbins k [] Hlt Hb Hk).
  - intros Hne.
    exists (fun a => bin_index edges lo hi nbins (inject_Z a)); split.
    + intros a Ha; destruct (HrangeQ a Ha) as [Hlo Hhi].
      destruct (bin_index_spec lo hi nbins Hlt Hb (inject_Z a) Hlo Hhi)
        as [Hk [Hl Hr]].
      fold edges in Hk, Hl, Hr.
      split; [exact Hk|]; split; [exact Hl|].
      destruct Hr as [Hr | [_ Hr]]; [now apply Qlt_le_weak | exact Hr].
    + intros k Hk; rewrite (Hnth k Hk).
      assert (Hcount : count_in_range lo hi areas
                       = Z.of_nat (length areas))
        by (now apply count_in_range_all).
      assert (Hpos : 0 < count_in_range lo hi areas).
      { rewrite Hcount; destruct areas; [congruence | cbn [length]; lia]. }
      pose proof (density_entry_value lo hi nbins k areas Hlt Hb Hk) as HD.
      cbv zeta in HD; destruct HD as [HD _]; fold edges in HD.
      rewrite (HD Hpos), Hcount.
      assert (Hbin : count_in_bin edges nbins k areas
                     = count_assigned
                         (fun a => bin_index edges lo hi nbins (inject_Z a))
                         k areas).
      { unfold count_in_bin, count_assigned; do 2 f_equal.
        apply filter_ext_in; intros a Ha.
        destruct (HrangeQ a Ha) as [Hlo Hhi].
        unfold edges; rewrite (in_bin_bin_index lo hi nbins Hlt Hb k a Hk).
        apply Qle_bool_iff in Hlo; apply Qle_bool_iff in Hhi.
        now rewrite Hlo, Hhi. }
      now rewrite Hbin.
Qed.

Lemma sweep_histograms_witness :
  let lo := (1 # 2)%Q in
  let hi := (inject_Z 5 + (1 # 2))%Q in
  let edges := equal_bin_edges lo hi 2 in
  exists counts areas,
    get_area_size_counts_multiple_thresholds [blob_image] 6 9 2
    = Ok (counts, edges)
    /\ areas_at [blob_image] 8 = Ok areas
    /\ length counts = Z.to_nat (9 - 6 + 1)
    /\ length (nth (Z.to_nat (8 - 6)) counts []) = Z.to_nat 2
    /\ length edges = S (Z.to_nat 2)
    /\ (forall k, 0 <= k <= 2 ->
          (edge edges k
           == (1 # 2) + inject_Z k * (inject_Z 5 / inject_Z 2))%Q)
    /\ (forall a, In a areas -> 1 <= a <= 5)
    /\ (areas = [] ->
        forall k, 0 <= k < 2 ->
          nth (Z.to_nat k) (nth (Z.to_nat (8 - 6)) counts [])
              (Fin 0) = NaN)
    /\ (areas <> [] ->
        exists bin_of : Z -> Z,
          (forall a, In a areas ->
             0 <= bin_of a < 2
             /\ (edge edges (bin_of a) <= inject_Z a)%Q
             /\ (inject_Z a <= edge edges (bin_of a + 1))%Q)
          /\ forall k, 0 <= k < 2 ->
               nth (Z.to_nat k) (nth (Z.to_nat (8 - 6)) counts [])
                   (Fin 0)
               = Fin (inject_Z (count_assigned bin_of k areas)
                      / (edge edges (k + 1) - edge edges k)
                      / inject_Z (Z.of_nat (length areas)))).
Proof.
  apply (sweep_histograms [blob_image] 6 9 2 8 5).
  - lia.
  - vm_compute; discriminate.
  - lia.
  - vm_compute; reflexivity.
  - vm_compute; reflexivity.
Defined.

(* ================================================================== *)
(** * modules/utils.py *)

(** ** get_plot_name *)

Lemma split_nonempty (sep : Ascii.ascii) (s : str) : split sep s <> [].
Proof.
  induction s as [|c t IH]; cbn [split]; [discriminate|].
  destruct (Ascii.eqb c sep); [discriminate|].
  destruct (split sep t); discriminate.
Qed.

Lemma join_cons_char (sep : str) (c : Ascii.ascii) (w : str)
      (ws : list str) :
  join sep ((c :: w) :: ws) = c :: join sep (w :: ws).
Proof. destruct ws; reflexivity. Qed.

Lemma join_split_flatten (s : str) :
  join (lit "_") (split "/"%char s) = map flatten_sep s.
Proof.
  induction s as [|c t IH]; [reflexivity|].
  cbn [split map]; unfold flatten_sep at 1.
  destruct (Ascii.eqb c "/"%char) eqn:E.
  - pose proof (split_nonempty "/"%char t) as Hne.
    destruct (split "/"%char t) as [|w ws] eqn:Es; [congruence|].
    cbn [join]; rewrite <- IH; reflexivity.
  - pose proof (split_nonempty "/"%char t) as Hne.
    destruct (split "/"%char t) as [|w ws] eqn:Es; [congruence|].
    rewrite join_cons_char, <- IH; reflexivity.
Qed.

Lemma rfind_range (c : Ascii.ascii) (p : str) :
  -1 <= rfind c p < Z.of_nat (length p).
Proof.
  induction p as [|x t IH]; cbn [rfind length]; [lia|].
  rewrite Nat2Z.inj_succ.
  destruct (0 <=? rfind c t) eqn:E;
    [apply Z.leb_le in E; lia|].
  destruct (Ascii.eqb x c); lia.
Qed.

Lemma rfind_after (c : Ascii.ascii) (p : str) :
  ~ In c (skipn (Z.to_nat (rfind c p + 1)) p).
Proof.
  induction p as [|x t IH]; cbn [rfind]; [cbn; tauto|].
  pose proof (rfind_range c t) as Hr.
  destruct (0 <=? rfind c t) eqn:E.
  - apply Z.leb_le in E.
    replace (Z.to_nat (rfind c t + 1 + 1))
      with (S (Z.to_nat (rfind c t + 1))) by lia.
    exact IH.
  - apply Z.leb_gt in E.
    assert (Hm : rfind c t = -1) by lia.
    rewrite Hm in IH; cbn [Z.add Z.to_nat skipn] in IH.
    change (Z.to_nat (-1 + 1)) with 0%nat in IH; cbn [skipn] in IH.
    destruct (Ascii.eqb x c) eqn:Ex.
    + exact IH.
    + change (Z.to_nat (-1 + 1)) with 0%nat; cbn [skipn In].
      intros [Hx | Hin]; [|tauto].
      subst x; rewrite Ascii.eqb_refl in Ex; discriminate.
Qed.

Lemma In_skipn {A : Type} (n : nat) (l : list A) (x : A) :
  In x (skipn n l) -> In x l.
Proof.
  revert l; induction n as [|n IH]; intros l H; [exact H|].
  destruct l as [|y t]; [exact H|].
  right; apply IH; exact H.
Qed.

Lemma splitext_spec (p : str) :
  fst (splitext p) ++ snd (splitext p) = p
  /\ ~ In "/"%char (snd (splitext p)).
Proof.
  unfold splitext.
  destruct (rfind "/"%char p <? rfind "."%char p) eqn:E.
  - destruct (existsb _ _); cbn [fst snd].
    + split; [apply firstn_skipn|].
      apply Z.ltb_lt in E.
      pose proof (rfind_range "/"%char p) as Hs.
      pose proof (rfind_after "/"%char p) as Hafter.
      intros Hin; apply Hafter.
      replace (Z.to_nat (rfind "."%char p))
        with (Z.to_nat (rfind "."%char p - (rfind "/"%char p + 1))
              + Z.to_nat (rfind "/"%char p + 1))%nat in Hin by lia.
      rewrite <- skipn_skipn in Hin.
      now apply In_skipn in Hin.
    + split; [apply app_nil_r | tauto].
  - cbn [fst snd]; split; [apply app_nil_r | tauto].
Qed.

Lemma flatten_sep_no_slash (s : str) : ~ In "/"%char (map flatten_sep s).
Proof.
  intros H; apply in_map_iff in H as [c [Hc _]].
  unfold flatten_sep in Hc.
  destruct (Ascii.eqb c "/"%char) eqn:E; [discriminate|].
  subst c; rewrite Ascii.eqb_refl in E; discriminate.
Qed.

(** X22. [get_plot_name] flattens the path and keeps the extension:
    the file name splits into a root and an extension without slash;
    the result is the root with every slash replaced by an
    underscore, then an underscore, the suffix and the extension.  It
    is one character longer than file name and suffix together, and
    it contains no slash when the suffix contains none. *)
Theorem get_plot_name_flat (filename suffix : str) :
  ~ In "/"%char suffix ->
  exists root ext,
    splitext filename = (root, ext)
    /\ root ++ ext = filename
    /\ get_plot_name filename suffix
       = map flatten_sep root ++ lit "_" ++ suffix ++ ext
    /\ length (get_plot_name filename suffix)
       = (length filename + 1 + length suffix)%nat
    /\ ~ In "/"%char (get_plot_name filename suffix).
Proof.
  intros Hsuf.
  destruct (splitext_spec filename) as [Hcat Hext].
  unfold get_plot_name.
  destruct (splitext filename) as [root ext]; cbn [fst snd] in *.
  exists root, ext; split; [reflexivity|]; split; [exact Hcat|].
  rewrite join_split_flatten, <- !app_assoc.
  split; [reflexivity|]; split.
  - rewrite <- Hcat, !length_app, length_map.
    change (length (lit "_")) with 1%nat; lia.
  - intros Hin.
    apply in_app_or in Hin as [Hin | Hin];
      [now apply flatten_sep_no_slash in Hin|].
    apply in_app_or in Hin as [Hin | Hin].
    + cbn in Hin; destruct Hin as [Hin | []]; discriminate.
    + apply in_app_or in Hin as [Hin | Hin]; tauto.
Qed.

Lemma get_plot_name_flat_witness :
  exists root ext,
    splitext (lit "broken_large/000.png") = (root, ext)
    /\ root ++ ext = lit "broken_large/000.png"
    /\ get_plot_name (lit "broken_large/000.png") (lit "inspection")
       = map flatten_sep root ++ lit "_" ++ lit "inspection" ++ ext
    /\ length (get_plot_name (lit "broken_large/000.png")
                             (lit "inspection"))
       = (length (lit "broken_large/000.png") + 1
          + length (lit "inspection"))%nat
    /\ ~ In "/"%char (get_plot_name (lit "broken_large/000.png")
                                    (lit "inspection")).
Proof.
  apply (get_plot_name_flat (lit "broken_large/000.png") (lit "inspection")).
  vm_compute; intuition discriminate.
Defined.

(** ** update_history *)

Lemma str_eqb_eq (a b : str) : str_eqb a b = true <-> a = b.
Proof.
  unfold str_eqb; destruct (list_eq_dec Ascii.ascii_dec a b);
    split; intros H; try assumption; try reflexivity; try discriminate.
  contradiction.
Qed.

Lemma str_eqb_neq (a b : str) : str_eqb a b = false <-> a <> b.
Proof.
  unfold str_eqb; destruct (list_eq_dec Ascii.ascii_dec a b);
    split; intros H; try assumption; try reflexivity; try discriminate.
  contradiction.
Qed.

Lemma dict_get_None {V : Type} (d : dict V) (k : str) :
  dict_get d k = None <-> ~ In k (keys d).
Proof.
  induction d as [|[k' v] rest IH]; cbn [dict_get keys map fst In];
    [tauto|].
  destruct (str_eqb k' k) eqn:E.
  - apply str_eqb_eq in E; split; [discriminate | tauto].
  - apply str_eqb_neq in E; unfold keys in IH; rewrite IH; tauto.
Qed.

Lemma dict_get_In {V : Type} (d : dict V) (k : str) (v : V) :
  NoDup (keys d) -> In (k, v) d -> dict_get d k = Some v.
Proof.
  induction d as [|[k' v'] rest IH]; cbn [dict_get keys map fst];
    intros Hnd Hin; [contradiction|].
  inversion Hnd as [|? ? Hnotin Hnd']; subst.
  destruct Hin as [[= -> ->] | Hin].
  - replace (str_eqb k k) with true
      by (symmetry; now apply str_eqb_eq).
    reflexivity.
  - destruct (str_eqb k' k) eqn:E.
    + apply str_eqb_eq in E; subst k'.
      exfalso; apply Hnotin, in_map_iff; now exists (k, v).
    + now apply IH.
Qed.

Lemma dict_set_new {V : Type} (d : dict V) (k : str) (v : V) :
  ~ In k (keys d) -> dict_set k v d = d ++ [(k, v)].
Proof.
  induction d as [|[k' v'] rest IH]; cbn [dict_set keys map fst In app];
    intros H; [reflexivity|].
  destruct (str_eqb k' k) eqn:E.
  - apply str_eqb_eq in E; tauto.
  - unfold keys in IH; rewrite IH by tauto; reflexivity.
Qed.

Lemma update_loop_returns (h1 h2 : dict (list Q)) (ks : list str)
      (acc : dict (list Q)) :
  NoDup ks ->
  (forall k, In k ks -> In k (keys h1) /\ In k (keys h2)
                        /\ ~ In k (keys acc)) ->
  update_loop h1 h2 ks acc
  = Returned (acc ++ map (fun k => (k, get_or_nil h1 k ++ get_or_nil h2 k))
                         ks).
Proof.
  intros Hnd; revert acc; induction Hnd as [|key rest Hnotin Hnd IH];
    intros acc Hks; cbn [update_loop map].
  - now rewrite app_nil_r.
  - destruct (Hks key (or_introl eq_refl)) as [H1 [H2 Hacc]].
    unfold get_or_nil at 1 2.
    destruct (dict_get h1 key) as [v1|] eqn:E1;
      [|apply dict_get_None in E1; contradiction].
    destruct (dict_get h2 key) as [v2|] eqn:E2;
      [|apply dict_get_None in E2; contradiction].
    rewrite (dict_set_new acc key _ Hacc), IH.
    + now rewrite <- app_assoc.
    + intros k Hk; destruct (Hks k (or_intror Hk)) as [Hk1 [Hk2 Hk3]].
      split; [assumption|]; split; [assumption|].
      unfold keys; rewrite map_app; cbn [map fst]; intros Hin.
      apply in_app_or in Hin as [Hin | [<- | []]]; [now apply Hk3|].
      contradiction.
Qed.

Lemma update_loop_raises (h1 h2 : dict (list Q)) (ks : list str)
      (acc : dict (list Q)) :
  (forall k, In k ks -> In k (keys h1)) ->
  Exists (fun k => ~ In k (keys h2)) ks ->
  update_loop h1 h2 ks acc = Raised KeyError.
Proof.
  intros Hks Hex; revert acc; induction ks as [|key rest IH]; intros acc;
    [inversion Hex|].
  cbn [update_loop].
  destruct (dict_get h1 key) as [v1|]; [|reflexivity].
  destruct (dict_get h2 key) as [v2|] eqn:E2; [|reflexivity].
  apply IH.
  - intros k Hk; apply Hks; now right.
  - inversion Hex as [? ? Hmiss | ? ? Hrest]; subst; [|assumption].
    apply dict_get_None in Hmiss; congruence.
Qed.

(** X23. [update_history] merges two training histories key by key:
    if every key of the first history is a key of the second, the
    call returns a history with exactly the keys of the first one, in
    their order, each holding the values of the first history
    followed by those of the second (keys that only the second
    history has are dropped); if some key of the first history is
    missing from the second, the call raises KeyError. *)
Theorem update_history_merges (history1 history2 : History) :
  NoDup (keys (history history1)) ->
  (incl (keys (history history1)) (keys (history history2)) ->
   exists history3,
     update_history history1 history2 = Returned history3
     /\ keys (history history3) = keys (history history1)
     /\ forall k v1,
          dict_get (history history1) k = Some v1 ->
          exists v2,
            dict_get (history history2) k = Some v2
            /\ dict_get (history history3) k = Some (v1 ++ v2))
  /\ ((exists k, In k (keys (history history1))
                 /\ ~ In k (keys (history history2))) ->
      update_history history1 history2 = Raised KeyError).
Proof.
  intros Hnd; unfold update_history; split.
  - intros Hincl.
    rewrite update_loop_returns; [|exact Hnd|].
    2:{ intros k Hk; split; [assumption|]; split; [now apply Hincl|].
        cbn; tauto. }
    cbn [app]; eexists; split; [reflexivity|]; cbn [history].
    assert (Hkeys : keys (map (fun k => (k, get_or_nil (history history1) k
                                            ++ get_or_nil (history history2) k))
                              (keys (history history1)))
                    = keys (history history1)).
    { unfold keys at 1; rewrite map_map; cbn [fst]; apply map_id. }
    split; [exact Hkeys|].
    intros k v1 Hk1.
    assert (Hin1 : In k (keys (history history1))).
    { destruct (in_dec (list_eq_dec Ascii.ascii_dec) k
                       (keys (history history1))) as [|Hn]; [assumption|].
      apply dict_get_None in Hn; congruence. }
    destruct (dict_get (history history2) k) as [v2|] eqn:Hk2.
    2:{ apply dict_get_None in Hk2; exfalso; now apply Hk2, Hincl. }
    exists v2; split; [reflexivity|].
    apply dict_get_In; [now rewrite Hkeys|].
    apply in_map_iff; exists k; split; [|assumption].
    unfold get_or_nil; now rewrite Hk1, Hk2.
  - intros [k [Hk1 Hk2]].
    rewrite update_loop_raises; [reflexivity | tauto |].
    apply Exists_exists; now exists k.
Qed.

Lemma update_history_merges_witness :
  (incl (keys (history history_first)) (keys (history history_second)) ->
   exists history3,
     update_history history_first history_second = Returned history3
     /\ keys (history history3) = keys (history history_first)
     /\ forall k v1,
          dict_get (history history_first) k = Some v1 ->
          exists v2,
            dict_get (history history_second) k = Some v2
            /\ dict_get (history history3) k = Some (v1 ++ v2))
  /\ ((exists k, In k (keys (history history_first))
                 /\ ~ In k (keys (history history_second))) ->
      update_history history_first history_second = Raised KeyError).
Proof.
  apply (update_history_merges history_first history_second).
  vm_compute; repeat constructor; cbn [In]; intuition discriminate.
Defined.

(** ** printProgressBar *)





(* ================================================================== *)
(** * test.py: classification and scoring together *)

Lemma thresholded_no_foreground (img : image) (tau : Z) :
  byte_image img -> 255 <= tau ->
  foreground (map (map (binarize_pixel tau)) img) = [].
Proof.
  intros Hb Htau.
  destruct (foreground (map (map (binarize_pixel tau)) img)) as [|p l] eqn:E;
    [reflexivity|].
  assert (Hp : In p (foreground (map (map (binarize_pixel tau)) img)))
    by (rewrite E; now left).
  apply thresholded_foreground_above in Hp.
  unfold above in Hp; apply filter_In in Hp as [_ Hgt].
  apply Z.ltb_lt in Hgt.
  pose proof (pix_byte img (fst p) (snd p) Hb) as Hbyte.
  unfold is_byte, at_pos in *; lia.
Qed.

Lemma components_no_foreground (img : image) :
  foreground img = [] -> components img = [].
Proof.
  intros H; unfold components; now rewrite H.
Qed.

Lemma main_classification_saturated (resmaps : batch) (tau m : Z) :
  byte_batch resmaps -> Forall nonempty_image resmaps ->
  255 <= tau -> tau < 2 ^ 31 ->
  main_classification resmaps tau m = Ok (map (fun _ => 0) resmaps).
Proof.
  intros Hb Hne Htau Hint.
  assert (Ht : int32 tau)
    by (unfold int32 in *; change (2 ^ 31) with 2147483648 in *; lia).
  rewrite (main_classification_eq resmaps tau m Hne Ht); apply f_equal.
  apply map_ext_in; intros img Himg.
  unfold byte_batch in Hb; rewrite Forall_forall in Hb.
  unfold component_areas.
  rewrite components_no_foreground
    by (apply thresholded_no_foreground; auto).
  reflexivity.
Qed.

Lemma count_pairs_pred_zero (t : Z) (y_pred y_true : list Z) :
  Forall (eq 0) y_pred -> count_pairs 1 t y_pred y_true = 0.
Proof.
  intros H0; unfold count_pairs.
  rewrite filter_nil; [reflexivity|].
  intros [a b] Hin; cbn [fst snd].
  apply in_combine_l in Hin; rewrite Forall_forall in H0.
  now rewrite <- (H0 a Hin).
Qed.

Lemma y_true_of_labels (filenames : list str) :
  labels01 (y_true_of filenames)
  /\ length (y_true_of filenames) = length filenames.
Proof.
  unfold labels01, y_true_of; split; [|apply length_map].
  rewrite Forall_forall; intros y Hy.
  apply in_map_iff in Hy as [f [<- _]].
  destruct (negb _); auto.
Qed.

(** X25. A threshold at the top of the grey scale detects nothing:
    on uint8 residual maps with at least one row and one column and
    with a threshold of 255 or more that fits a C int, the test
    script predicts 0 for every image, whatever the minimum area;
    when the test set holds good and defective images, the scoring
    then returns a true-positive rate of 0 and a true-negative rate
    of 1. *)
Theorem main_evaluation_saturated_threshold
        (resmaps_test : batch) (filenames : list str)
        (threshold min_area : Z) :
  byte_batch resmaps_test -> Forall nonempty_image resmaps_test ->
  255 <= threshold -> threshold < 2 ^ 31 ->
  length filenames = length resmaps_test ->
  In 0 (y_true_of filenames) -> In 1 (y_true_of filenames) ->
  main_classification resmaps_test threshold min_area
  = Ok (map (fun _ => 0) resmaps_test)
  /\ exists r q1 q0,
       main_evaluation resmaps_test filenames threshold min_area
                       (length filenames) = Ok r
       /\ TPR r = Fin q1 /\ TNR r = Fin q0
       /\ (q1 == 0)%Q /\ (q0 == 1)%Q.
Proof.
  intros Hb Hne Htau Hint Hlen H0 H1.
  pose proof (main_classification_saturated resmaps_test threshold min_area
                Hb Hne Htau Hint) as Hpred.
  split; [exact Hpred|].
  unfold main_evaluation; rewrite Hpred; cbn [bind].
  set (y_pred := map (fun _ : image => 0) resmaps_test).
  set (y_true := y_true_of filenames) in *.
  destruct (y_true_of_labels filenames) as [Ht01 Htlen].
  fold y_true in Ht01, Htlen.
  assert (Hzero : Forall (eq 0) y_pred).
  { unfold y_pred; rewrite Forall_forall; intros y Hy.
    apply in_map_iff in Hy as [img [<- _]]; reflexivity. }
  assert (Hp01 : labels01 y_pred).
  { unfold labels01; eapply Forall_impl; [|exact Hzero].
    intros y <-; now left. }
  assert (Hlen' : length y_pred = length y_true).
  { unfold y_pred; rewrite length_map; congruence. }
  rewrite <- Htlen.
  assert (H01 : labels01 (y_true ++ y_pred))
    by (unfold labels01 in *; apply Forall_app; now split).
  pose proof (nodup01_length _ H01) as Hiff.
  rewrite <- unique_labels_length in Hiff.
  destruct (main_scoring_cases y_pred y_true Hlen' Hp01) as [[_ E]|[H2 _]].
  2:{ exfalso; apply H2, Hiff; split; apply in_or_app; now left. }
  rewrite E, (compute_rates_formula y_pred y_true Hlen' Hp01).
  pose proof (py_count_split 1 y_pred y_true Hlen' Hp01) as P1.
  pose proof (py_count_split 0 y_pred y_true Hlen' Hp01) as P0.
  pose proof (py_count_pos 1 y_true H1) as Hp1.
  pose proof (py_count_pos 0 y_true H0) as Hp0.
  unfold TP_of, FN_of, TN_of, FP_of.
  rewrite (count_pairs_pred_zero 1 y_pred y_true Hzero) in *.
  rewrite (count_pairs_pred_zero 0 y_pred y_true Hzero) in *.
  destruct (np_true_divide_self (count_pairs 0 0 y_pred y_true) ltac:(lia))
    as [q0 [E0 Hq0]].
  eexists; eexists; exists q0; split; [reflexivity|]; cbn [TPR TNR].
  split; [|split; [exact E0|split; [|exact Hq0]]].
  - unfold np_true_divide.
    replace (0 + count_pairs 0 1 y_pred y_true =? 0) with false
      by (symmetry; apply Z.eqb_neq; lia).
    reflexivity.
  - cbv beta; unfold Qdiv; change (inject_Z 0) with 0%Q; ring.
Qed.

Lemma main_evaluation_saturated_threshold_witness :
  main_classification [blob_filtered; blob_image] 255 1
  = Ok (map (fun _ => 0) [blob_filtered; blob_image])
  /\ exists r q1 q0,
       main_evaluation [blob_filtered; blob_image] two_filenames 255 1
                       (length two_filenames) = Ok r
       /\ TPR r = Fin q1 /\ TNR r = Fin q0
       /\ (q1 == 0)%Q /\ (q0 == 1)%Q.
Proof.
  apply (main_evaluation_saturated_threshold
           [blob_filtered; blob_image] two_filenames 255 1).
  - repeat constructor; unfold is_byte; lia.
  - repeat constructor; vm_compute; discriminate.
  - lia.
  - vm_compute; reflexivity.
  - reflexivity.
  - vm_compute; auto.
  - vm_compute; auto.
Defined.
